(** * nostr-double-ratchet: device records, invite lists, invite responses,
      the controllable relay and the session receive path

    A shallow embedding of the TypeScript sources.  JavaScript values are
    modelled as the code uses them: strings as [string], integer numbers as
    [Z] or [nat] (as [JsNumber.t] where [Number(string)] can make them
    [NaN]), [undefined]/[null] as [None], a [Map] as an association
    list kept in insertion order, an array as a [list], a thrown exception
    as [None] (or an error constructor), object identity as an address. *)

From Stdlib Require Import String Ascii List ZArith Lia Bool Arith PeanoNat Permutation.
From Stdlib Require Import DecimalString DecimalZ DecimalNat.
Import ListNotations.
Local Open Scope string_scope.
Local Open Scope list_scope.

Set Implicit Arguments.

(** ** Decidable equality on keys *)

Class EqDec (K : Type) := {
  eqb : K -> K -> bool;
  eqb_eq : forall a b, eqb a b = true <-> a = b
}.

#[export] Instance EqDec_string : EqDec string :=
  {| eqb := String.eqb; eqb_eq := String.eqb_eq |}.

#[export] Instance EqDec_nat : EqDec nat :=
  {| eqb := Nat.eqb; eqb_eq := Nat.eqb_eq |}.

Lemma eqb_refl {K} `{EqDec K} (a : K) : eqb a a = true.
Proof. apply eqb_eq. reflexivity. Qed.

Lemma eqb_neq {K} `{EqDec K} (a b : K) : eqb a b = false <-> a <> b.
Proof.
  split.
  - intros E Hab. apply eqb_eq in Hab. congruence.
  - intros N. destruct (eqb a b) eqn:E; [apply eqb_eq in E; contradiction | reflexivity].
Qed.

Lemma eqb_sym {K} `{EqDec K} (a b : K) : eqb a b = eqb b a.
Proof.
  destruct (eqb a b) eqn:E.
  - apply eqb_eq in E. subst. symmetry. apply eqb_refl.
  - apply eqb_neq in E. symmetry. apply eqb_neq. congruence.
Qed.

Ltac eqb_case a b :=
  let E := fresh "E" in
  destruct (eqb a b) eqn:E;
  [apply eqb_eq in E; try subst | pose proof (proj1 (eqb_neq _ _) E)].

(** ** JavaScript [Map]

    A [Map] keeps its entries in insertion order.  [set] on a key that is
    present replaces the value where it stands, [set] on a new key appends,
    [delete] removes the entry, iteration ([values], [for .. of]) follows
    the list. *)

Module JsMap.

Section Ops.
Context {K V : Type} `{EqDec K}.

Definition t := list (K * V).

Definition empty : t := [].

Fixpoint get (k : K) (m : t) : option V :=
  match m with
  | [] => None
  | (k', v) :: m' => if eqb k k' then Some v else get k m'
  end.

Definition has (k : K) (m : t) : bool :=
  match get k m with Some _ => true | None => false end.

Fixpoint set (k : K) (v : V) (m : t) : t :=
  match m with
  | [] => [(k, v)]
  | (k', v') :: m' => if eqb k k' then (k, v) :: m' else (k', v') :: set k v m'
  end.

Fixpoint delete (k : K) (m : t) : t :=
  match m with
  | [] => []
  | (k', v') :: m' => if eqb k k' then delete k m' else (k', v') :: delete k m'
  end.

Definition keys (m : t) : list K := map fst m.
Definition values (m : t) : list V := map snd m.
Definition size (m : t) : nat := length m.

(** No key occurs twice: what every [Map] built by [set] and [delete]
    satisfies. *)
Definition wf (m : t) : Prop := NoDup (keys m).

Lemma get_set_eq k v m : get k (set k v m) = Some v.
Proof.
  induction m as [|[k' v'] m IH]; simpl.
  - now rewrite eqb_refl.
  - destruct (eqb k k') eqn:E; simpl; [now rewrite eqb_refl | now rewrite E].
Qed.

Lemma get_set_ne k k' v m : k <> k' -> get k' (set k v m) = get k' m.
Proof.
  intros N. induction m as [|[k0 v0] m IH]; simpl.
  - assert (eqb k' k = false) as -> by (apply eqb_neq; congruence). reflexivity.
  - destruct (eqb k k0) eqn:E; simpl.
    + apply eqb_eq in E. subst k0.
      assert (eqb k' k = false) as -> by (apply eqb_neq; congruence). reflexivity.
    + rewrite IH. reflexivity.
Qed.

Lemma get_delete_eq k m : get k (delete k m) = None.
Proof.
  induction m as [|[k0 v0] m IH]; simpl; [reflexivity|].
  destruct (eqb k k0) eqn:E; simpl; [exact IH | now rewrite E].
Qed.

Lemma get_delete_ne k k' m : k <> k' -> get k' (delete k m) = get k' m.
Proof.
  intros N. induction m as [|[k0 v0] m IH]; simpl; [reflexivity|].
  destruct (eqb k k0) eqn:E; simpl.
  - apply eqb_eq in E. subst k0.
    assert (eqb k' k = false) as -> by (apply eqb_neq; congruence). exact IH.
  - now rewrite IH.
Qed.

Lemma get_None_keys k m : get k m = None <-> ~ In k (keys m).
Proof.
  induction m as [|[k0 v0] m IH]; simpl.
  - tauto.
  - destruct (eqb k k0) eqn:E.
    + apply eqb_eq in E. subst. split; [discriminate | intros N; exfalso; apply N; now left].
    + apply eqb_neq in E. rewrite IH. split.
      * intros N [Hk|Hk]; [congruence | contradiction].
      * intros N Hk. apply N. now right.
Qed.

Lemma get_Some_In k v m : get k m = Some v -> In (k, v) m.
Proof.
  induction m as [|[k0 v0] m IH]; simpl; [discriminate|].
  destruct (eqb k k0) eqn:E.
  - apply eqb_eq in E. subst. intros [= ->]. now left.
  - intros G. right. auto.
Qed.

Lemma In_get_wf k v m : wf m -> In (k, v) m -> get k m = Some v.
Proof.
  unfold wf. induction m as [|[k0 v0] m IH]; simpl; [tauto|].
  intros ND [Heq|Hin].
  - inversion Heq; subst. now rewrite eqb_refl.
  - inversion ND as [|? ? Hnot ND']; subst.
    destruct (eqb k k0) eqn:E.
    + apply eqb_eq in E. subst. exfalso. apply Hnot.
      change (In (fst (k0, v)) (map fst m)). now apply in_map.
    + auto.
Qed.

Lemma keys_set_in k v m : In k (keys m) -> keys (set k v m) = keys m.
Proof.
  induction m as [|[k0 v0] m IH]; simpl; [tauto|].
  intros Hin. destruct (eqb k k0) eqn:E; simpl.
  - apply eqb_eq in E. now subst.
  - apply eqb_neq in E. f_equal. apply IH. destruct Hin; congruence.
Qed.

Lemma keys_set_notin k v m : ~ In k (keys m) -> keys (set k v m) = keys m ++ [k].
Proof.
  induction m as [|[k0 v0] m IH]; simpl; [reflexivity|].
  intros N. destruct (eqb k k0) eqn:E; simpl.
  - apply eqb_eq in E. subst. exfalso. apply N. now left.
  - f_equal. apply IH. tauto.
Qed.

Lemma wf_empty : wf empty.
Proof. constructor. Qed.

Lemma wf_set k v m : wf m -> wf (set k v m).
Proof.
  unfold wf. intros W.
  destruct (in_dec (fun a b => match Bool.bool_dec (eqb a b) true with
                               | left e => left (proj1 (eqb_eq a b) e)
                               | right n => right (fun e => n (proj2 (eqb_eq a b) e))
                               end) k (keys m)) as [Hin|Hnot].
  - now rewrite keys_set_in.
  - rewrite keys_set_notin by assumption.
    apply NoDup_app; [assumption | constructor; [easy | constructor] | ].
    intros x Hx [<-|[]]. contradiction.
Qed.

Lemma keys_delete k m : keys (delete k m) = filter (fun k' => negb (eqb k k')) (keys m).
Proof.
  induction m as [|[k0 v0] m IH]; simpl; [reflexivity|].
  destruct (eqb k k0); simpl; now rewrite IH.
Qed.

Lemma wf_delete k m : wf m -> wf (delete k m).
Proof. unfold wf. rewrite keys_delete. apply NoDup_filter. Qed.

Lemma delete_notin k m : get k m = None -> delete k m = m.
Proof.
  induction m as [|[k0 v0] m IH]; simpl; [reflexivity|].
  destruct (eqb k k0); [discriminate|]. intros G. now rewrite IH.
Qed.

Lemma In_set k v k' v' m : In (k, v) (set k' v' m) -> (k, v) = (k', v') \/ In (k, v) m.
Proof.
  induction m as [|[k0 v0] m IH]; simpl.
  - intros [E|[]]. left. congruence.
  - destruct (eqb k' k0); simpl.
    + intros [E|Hin]; [left; congruence | right; now right].
    + intros [E|Hin]; [right; now left | destruct (IH Hin); [now left | right; now right]].
Qed.

Lemma In_delete k v k' m : In (k, v) (delete k' m) -> In (k, v) m.
Proof.
  induction m as [|[k0 v0] m IH]; simpl; [tauto|].
  destruct (eqb k' k0); simpl; intros Hin; [right; auto | destruct Hin; [now left | right; auto]].
Qed.

Lemma In_keys_set k k' v m : In k (keys (set k' v m)) <-> k = k' \/ In k (keys m).
Proof.
  induction m as [|[k0 v0] m IH]; simpl.
  - split; [intros [E|[]]; now left | intros [E|[]]; now left].
  - destruct (eqb k' k0) eqn:E; simpl.
    + apply eqb_eq in E. subst k0. intuition congruence.
    + rewrite IH. intuition congruence.
Qed.

Lemma get_Some_keys k v m : get k m = Some v -> In k (keys m).
Proof.
  intros G. destruct (get_None_keys k m) as [_ Hn].
  destruct (in_dec (fun a b => match Bool.bool_dec (eqb a b) true with
                               | left e => left (proj1 (eqb_eq a b) e)
                               | right n => right (fun e => n (proj2 (eqb_eq a b) e))
                               end) k (keys m)) as [Hin|Hnot]; [assumption|].
  rewrite (Hn Hnot) in G. discriminate.
Qed.

Lemma In_keys_get k m : In k (keys m) -> exists v, get k m = Some v.
Proof.
  intros Hin. destruct (get k m) eqn:G; [eauto|].
  apply get_None_keys in G. contradiction.
Qed.

Lemma has_true k m : has k m = true <-> In k (keys m).
Proof.
  unfold has. split.
  - destruct (get k m) eqn:G; [intros _; eapply get_Some_keys; eauto | discriminate].
  - intros Hin. destruct (In_keys_get _ _ Hin) as [v ->]. reflexivity.
Qed.

Lemma has_false k m : has k m = false <-> get k m = None.
Proof. unfold has. destruct (get k m); split; congruence. Qed.

Lemma size_set_le k v m : size (set k v m) <= S (size m).
Proof.
  unfold size. induction m as [|[k0 v0] m IH]; simpl; [lia|].
  destruct (eqb k k0); simpl; lia.
Qed.


Lemma size_keys m : size m = length (keys m).
Proof. unfold size, keys. now rewrite length_map. Qed.

End Ops.

Arguments t : clear implicits.

End JsMap.

(** ** DeviceRecord.ts *)

Module DeviceRecord.

(** A [Session] object as [rotateSession] sees it: the object itself (its
    address, compared by [===]) and its [name]. *)
Record Session := {
  ref : nat;
  name : string
}.

Definition same_object (a b : Session) : bool := Nat.eqb (ref a) (ref b).

Record DeviceRecord := {
  deviceId : string;
  activeSession : option Session;
  inactiveSessions : list Session;
  createdAt : Z;
  staleAt : option Z
}.

Definition createDeviceRecord (now : Z) (id : string) : DeviceRecord :=
  {| deviceId := id; activeSession := None; inactiveSessions := [];
     createdAt := now; staleAt := None |}.

Definition set_activeSession (r : DeviceRecord) (s : Session) : DeviceRecord :=
  {| deviceId := deviceId r; activeSession := Some s;
     inactiveSessions := inactiveSessions r;
     createdAt := createdAt r; staleAt := staleAt r |}.

Definition set_inactiveSessions (r : DeviceRecord) (l : list Session) : DeviceRecord :=
  {| deviceId := deviceId r; activeSession := activeSession r;
     inactiveSessions := l;
     createdAt := createdAt r; staleAt := staleAt r |}.

(** [Array.prototype.slice(-1)]: the last element, or nothing. *)
Definition slice_last {A} (l : list A) : list A := skipn (length l - 1) l.

Definition rotateSession (record : DeviceRecord) (nextSession : Session) : DeviceRecord :=
  match activeSession record with
  | None => set_activeSession record nextSession
  | Some current =>
    if same_object current nextSession || String.eqb (name current) (name nextSession)
    then set_activeSession record nextSession
    else
      let kept := filter (fun session => negb (same_object session current)
                                         && negb (String.eqb (name session) (name current)))
                         (inactiveSessions record) in
      let pushed := kept ++ [current] in
      set_activeSession (set_inactiveSessions record (slice_last pushed)) nextSession
  end.

Lemma slice_last_snoc {A} (l : list A) (x : A) : slice_last (l ++ [x]) = [x].
Proof.
  unfold slice_last. rewrite length_app. simpl.
  replace (length l + 1 - 1) with (length l + 0) by lia.
  rewrite skipn_app, Nat.add_0_r, skipn_all.
  replace (length l - length l) with 0 by lia. reflexivity.
Qed.

(** C8. [rotateSession record next]: without an active session, [next] is
    installed and the inactive sessions stay as they are; when [next] is the
    active session itself or carries its name, [next] replaces it in place and
    nothing is demoted; otherwise the active session is demoted and the
    inactive sessions are trimmed to that single, newest entry (every older
    one is dropped), so their length is at most 1. *)
Theorem rotateSession_cases (record : DeviceRecord) (next : Session) :
  (activeSession record = None ->
     rotateSession record next = set_activeSession record next /\
     inactiveSessions (rotateSession record next) = inactiveSessions record) /\
  (forall current, activeSession record = Some current ->
     (ref current = ref next \/ name current = name next) ->
     activeSession (rotateSession record next) = Some next /\
     inactiveSessions (rotateSession record next) = inactiveSessions record) /\
  (forall current, activeSession record = Some current ->
     ref current <> ref next -> name current <> name next ->
     activeSession (rotateSession record next) = Some next /\
     inactiveSessions (rotateSession record next) = [current] /\
     inactiveSessions (rotateSession record next)
       = slice_last (filter (fun s => negb (same_object s current)
                                      && negb (String.eqb (name s) (name current)))
                            (inactiveSessions record) ++ [current]) /\
     length (inactiveSessions (rotateSession record next)) <= 1) /\
  deviceId (rotateSession record next) = deviceId record /\
  createdAt (rotateSession record next) = createdAt record /\
  staleAt (rotateSession record next) = staleAt record.
Proof.
  unfold rotateSession, same_object.
  split; [|split; [|split]].
  - intros ->. split; reflexivity.
  - intros current -> [E|E].
    + rewrite E, Nat.eqb_refl. split; reflexivity.
    + rewrite E, String.eqb_refl, orb_true_r. split; reflexivity.
  - intros current -> Hr Hn.
    apply Nat.eqb_neq in Hr. apply String.eqb_neq in Hn.
    rewrite Hr, Hn. simpl. rewrite slice_last_snoc.
    repeat split; simpl; lia.
  - destruct (activeSession record); [|repeat split].
    destruct (_ || _); repeat split.
Qed.

Definition s1 : Session := {| ref := 1; name := "s1" |}.
Definition s1' : Session := {| ref := 4; name := "s1" |}.
Definition s2 : Session := {| ref := 2; name := "s2" |}.
Definition s3 : Session := {| ref := 3; name := "s3" |}.
Definition d1 : DeviceRecord := createDeviceRecord 0 "d1".

(** The three cases at the records of the repository's tests: a fresh
    record, a record rotated onto a session of the same name, and a record
    rotated three times. *)
Lemma rotateSession_cases_witness :
  inactiveSessions (rotateSession d1 s1) = [] /\
  activeSession (rotateSession (rotateSession d1 s1) s1') = Some s1' /\
  inactiveSessions (rotateSession (rotateSession d1 s1) s1') = [] /\
  inactiveSessions (rotateSession (rotateSession (rotateSession d1 s1) s2) s3) = [s2].
Proof.
  split; [|split; [|split]].
  - apply (proj1 (rotateSession_cases d1 s1)). reflexivity.
  - apply (proj1 (proj2 (rotateSession_cases (rotateSession d1 s1) s1')) s1);
      [reflexivity | right; reflexivity].
  - apply (proj1 (proj2 (rotateSession_cases (rotateSession d1 s1) s1')) s1);
      [reflexivity | right; reflexivity].
  - apply (proj1 (proj2 (proj2 (rotateSession_cases (rotateSession (rotateSession d1 s1) s2) s3))) s2);
      [reflexivity | simpl; lia | simpl; discriminate].
Defined.

End DeviceRecord.

(** ** Nostr events

    [{id, pubkey, created_at, kind, tags, content, sig}].  An unsigned event
    has no [id] and no [sig]. *)

Record Event := {
  id : option string;
  pubkey : string;
  created_at : Z;
  kind : Z;
  tags : list (list string);
  content : string;
  sig : option string
}.

(** JavaScript truthiness of a string, and of a possibly missing string. *)
Definition truthy (s : string) : bool := negb (String.eqb s "").

Definition truthy_opt (o : option string) : bool :=
  match o with Some s => truthy s | None => false end.

(** Two lists seen as sets. *)
Definition same_set {A} (l1 l2 : list A) : Prop := forall x, In x l1 <-> In x l2.

(** ** JavaScript numbers

    The numbers an invite list holds besides [createdAt] (the timestamps
    of its removed entries, its schema version) come from [Math.floor],
    from a literal, or from [Number(string)] on a tag of an event, which is
    [NaN] for a tag that is no numeral.  A number is an integer or [NaN];
    fractions and infinities, which [Number] can give as well, compare like
    the integers and are left out. *)

Module JsNumber.

Inductive t :=
| Num (z : Z)
| NaN.

(** [a > b]: false as soon as one of the two is [NaN]. *)
Definition gt (a b : t) : bool :=
  match a, b with
  | Num x, Num y => (x >? y)%Z
  | _, _ => false
  end.

(** [a <= b] *)
Definition le (a b : t) : bool :=
  match a, b with
  | Num x, Num y => (x <=? y)%Z
  | _, _ => false
  end.

(** [Math.max(a, b)]: [NaN] as soon as one of the two is. *)
Definition max (a b : t) : t :=
  match a, b with
  | Num x, Num y => Num (Z.max x y)
  | _, _ => NaN
  end.

End JsNumber.

(** ** InviteList.ts *)

Module InviteList.

Record DeviceEntry := {
  ephemeralPublicKey : string;
  sharedSecret : string;
  deviceId : string;
  label : string;
  ephemeralPrivateKey : option (list Byte.byte)
}.

Record RemovedEntry := {
  removedId : string;
  timestamp : JsNumber.t
}.

Record InviteList := {
  owner : string;
  devices : JsMap.t string DeviceEntry;
  removed : list RemovedEntry;
  mainDeviceId : option string;
  version : JsNumber.t;
  createdAt : Z
}.

(** [new InviteList(owner, createdAt)]; [now_ms] is [Date.now()]. *)
Definition new_InviteList (now_ms : Z) (owner : string) (createdAt : option Z) : InviteList :=
  {| owner := owner; devices := JsMap.empty; removed := []; mainDeviceId := None;
     version := JsNumber.Num 1;
     createdAt := match createdAt with Some c => c | None => now_ms / 1000 end |}.

Definition create (now_ms : Z) (owner : string) : InviteList :=
  new_InviteList now_ms owner None.

Definition set_devices (l : InviteList) (d : JsMap.t string DeviceEntry) : InviteList :=
  {| owner := owner l; devices := d; removed := removed l;
     mainDeviceId := mainDeviceId l; version := version l; createdAt := createdAt l |}.

Definition set_removed (l : InviteList) (r : list RemovedEntry) : InviteList :=
  {| owner := owner l; devices := devices l; removed := r;
     mainDeviceId := mainDeviceId l; version := version l; createdAt := createdAt l |}.

Definition set_mainDeviceId (l : InviteList) (m : option string) : InviteList :=
  {| owner := owner l; devices := devices l; removed := removed l;
     mainDeviceId := m; version := version l; createdAt := createdAt l |}.

Definition set_version (l : InviteList) (v : JsNumber.t) : InviteList :=
  {| owner := owner l; devices := devices l; removed := removed l;
     mainDeviceId := mainDeviceId l; version := v; createdAt := createdAt l |}.

(** [this.removed.some(r => r.deviceId === id)] *)
Definition isRemoved (l : InviteList) (id : string) : bool :=
  existsb (fun r => String.eqb (removedId r) id) (removed l).

Definition addDevice (l : InviteList) (device : DeviceEntry) : InviteList :=
  if isRemoved l (deviceId device) then l
  else set_devices l (JsMap.set (deviceId device) device (devices l)).

(** [now_ms] is [Date.now()]; the timestamp is [Math.floor(now_ms / 1000)]. *)
Definition removeDevice (now_ms : Z) (l : InviteList) (id : string) : InviteList :=
  if negb (JsMap.has id (devices l)) then l
  else set_removed (set_devices l (JsMap.delete id (devices l)))
                   (removed l ++ [{| removedId := id;
                                     timestamp := JsNumber.Num (now_ms / 1000) |}]).

Definition getDevice (l : InviteList) (id : string) : option DeviceEntry :=
  JsMap.get id (devices l).

Definition getAllDevices (l : InviteList) : list DeviceEntry :=
  JsMap.values (devices l).

(** The first loop of [merge]: removed entries deduplicated by device id;
    an entry replaces the one kept so far when its timestamp is greater
    ([r.timestamp > existing.timestamp], false when either is [NaN]). *)
Definition removedStep (m : JsMap.t string RemovedEntry) (r : RemovedEntry)
  : JsMap.t string RemovedEntry :=
  match JsMap.get (removedId r) m with
  | None => JsMap.set (removedId r) r m
  | Some existing =>
    if JsNumber.gt (timestamp r) (timestamp existing)
    then JsMap.set (removedId r) r m else m
  end.

Definition removedMapOf (rs : list RemovedEntry) : JsMap.t string RemovedEntry :=
  fold_left removedStep rs JsMap.empty.

(** [allDevices]: each device with the [createdAt] of the list it came
    from ([fromList.createdAt] is all that is read of [fromList]). *)
Definition thisStep (c : Z) (m : JsMap.t string (DeviceEntry * Z)) (d : DeviceEntry)
  : JsMap.t string (DeviceEntry * Z) :=
  JsMap.set (deviceId d) (d, c) m.

Definition otherStep (c : Z) (m : JsMap.t string (DeviceEntry * Z)) (d : DeviceEntry)
  : JsMap.t string (DeviceEntry * Z) :=
  match JsMap.get (deviceId d) m with
  | None => JsMap.set (deviceId d) (d, c) m
  | Some (_, from) => if (c >? from)%Z then JsMap.set (deviceId d) (d, c) m else m
  end.

Definition allDevicesOf (this other : InviteList) : JsMap.t string (DeviceEntry * Z) :=
  fold_left (otherStep (createdAt other)) (JsMap.values (devices other))
    (fold_left (thisStep (createdAt this)) (JsMap.values (devices this)) JsMap.empty).

Definition keepStep (removedMap : JsMap.t string RemovedEntry)
  (m : JsMap.t string DeviceEntry) (e : DeviceEntry * Z) : JsMap.t string DeviceEntry :=
  if JsMap.has (deviceId (fst e)) removedMap then m
  else JsMap.set (deviceId (fst e)) (fst e) m.

Definition merge (this other : InviteList) : InviteList :=
  let removedMap := removedMapOf (removed this ++ removed other) in
  let allDevices := allDevicesOf this other in
  {| owner := owner this;
     devices := fold_left (keepStep removedMap) (JsMap.values allDevices) JsMap.empty;
     removed := JsMap.values removedMap;
     mainDeviceId := if (createdAt this >=? createdAt other)%Z
                     then mainDeviceId this else mainDeviceId other;
     version := JsNumber.max (version this) (version other);
     createdAt := Z.max (createdAt this) (createdAt other) |}.

Inductive FromEventError := NotSigned | InvalidSignature.

Section FromEvent.

(** [verifyEvent] of nostr-tools, and [Number] on the strings of the
    [removed] and [version] tags. *)
Variable verifyEvent : Event -> bool.
Variable Number : string -> JsNumber.t.

Definition parseTag (il : InviteList) (tag : list string) : InviteList :=
  match tag with
  | [] => il
  | t0 :: rest =>
    if String.eqb t0 "device" && Nat.leb 5 (length tag) then
      match rest with
      | e :: s :: d :: lb :: _ =>
        if truthy e && truthy s && truthy d && truthy lb
        then set_devices il
               (JsMap.set d {| ephemeralPublicKey := e; sharedSecret := s; deviceId := d;
                               label := lb; ephemeralPrivateKey := None |} (devices il))
        else il
      | _ => il
      end
    else if String.eqb t0 "removed" && Nat.leb 3 (length tag) then
      match rest with
      | d :: ts :: _ =>
        if truthy d && truthy ts
        then set_removed il (removed il ++ [{| removedId := d; timestamp := Number ts |}])
        else il
      | _ => il
      end
    else if String.eqb t0 "main-device" && truthy_opt (nth_error tag 1) then
      set_mainDeviceId il (nth_error tag 1)
    else if String.eqb t0 "version" && truthy_opt (nth_error tag 1) then
      set_version il (match nth_error tag 1 with Some v => Number v
                                              | None => JsNumber.Num 1 end)
    else il
  end.

Definition fromEvent (event : Event) : FromEventError + InviteList :=
  if negb (truthy_opt (sig event)) then inl NotSigned
  else if negb (verifyEvent event) then inl InvalidSignature
  else inr (fold_left parseTag (tags event)
              (new_InviteList 0 (pubkey event) (Some (created_at event)))).

End FromEvent.

(** *** Observable fields *)

Definition activeDevices (l : InviteList) : list DeviceEntry := getAllDevices l.
Definition activeIds (l : InviteList) : list string := map deviceId (getAllDevices l).
Definition removedIds (l : InviteList) : list string := map removedId (removed l).

(** The invariant of the data model: no removed id among the devices. *)
Definition removed_absent (l : InviteList) : Prop :=
  forall id, In id (removedIds l) -> JsMap.get id (devices l) = None.

(** The representation of [devices]: a [Map] keyed by the entry's own
    [deviceId]. *)
Definition keyed {V} (key : V -> string) (m : JsMap.t string V) : Prop :=
  JsMap.wf m /\ forall k v, In (k, v) m -> key v = k.

Definition wf (l : InviteList) : Prop := keyed deviceId (devices l).

(** Lists made by the class from [create] with [addDevice], [removeDevice]
    and [merge]. *)
Inductive built : InviteList -> Prop :=
| built_create now_ms o : built (create now_ms o)
| built_add l d : built l -> built (addDevice l d)
| built_remove now_ms l id : built l -> built (removeDevice now_ms l id)
| built_merge a b : wf a -> wf b -> built (merge a b).

(** *** Maps keyed by a field of their values *)

Lemma keyed_empty {V} (key : V -> string) : keyed key JsMap.empty.
Proof. split; [apply JsMap.wf_empty | intros k v []]. Qed.

Lemma keyed_set {V} (key : V -> string) m v :
  keyed key m -> keyed key (JsMap.set (key v) v m).
Proof.
  intros [W Hk]. split; [now apply JsMap.wf_set|].
  intros k v' Hin. apply JsMap.In_set in Hin. destruct Hin as [E|Hin]; [congruence | auto].
Qed.

Lemma keyed_delete {V} (key : V -> string) m k :
  keyed key m -> keyed key (JsMap.delete k m).
Proof.
  intros [W Hk]. split; [now apply JsMap.wf_delete|].
  intros k' v' Hin. apply JsMap.In_delete in Hin. auto.
Qed.

Lemma keyed_tail {V} (key : V -> string) k v (m : JsMap.t string V) :
  keyed key ((k, v) :: m) -> key v = k /\ keyed key m /\ JsMap.get k m = None.
Proof.
  intros [W Hk]. unfold JsMap.wf in W. simpl in W. inversion W; subst.
  split; [apply Hk; now left|]. split.
  - split; [assumption | intros; apply Hk; now right].
  - now apply JsMap.get_None_keys.
Qed.

Lemma keyed_values_get {V} (key : V -> string) (m : JsMap.t string V) v :
  keyed key m -> (In v (JsMap.values m) <-> JsMap.get (key v) m = Some v).
Proof.
  intros [W Hk]. split.
  - intros Hin. apply in_map_iff in Hin. destruct Hin as [[k v'] [E Hin]]. simpl in E. subst v'.
    rewrite (Hk _ _ Hin). now apply JsMap.In_get_wf.
  - intros G. apply JsMap.get_Some_In in G.
    change v with (snd (key v, v)). now apply in_map.
Qed.

Lemma keyed_get_key {V} (key : V -> string) (m : JsMap.t string V) k v :
  keyed key m -> JsMap.get k m = Some v -> key v = k.
Proof. intros [W Hk] G. apply Hk. now apply JsMap.get_Some_In. Qed.

Lemma keyed_ids_keys {V} (key : V -> string) (m : JsMap.t string V) :
  keyed key m -> map key (JsMap.values m) = JsMap.keys m.
Proof.
  intros [_ Hk]. unfold JsMap.values, JsMap.keys. rewrite map_map.
  apply map_ext_in. intros [k v] Hin. simpl. auto.
Qed.

(** *** The three loops of [merge] *)

Lemma removedStep_keyed m r : keyed removedId m -> keyed removedId (removedStep m r).
Proof.
  intros K. unfold removedStep. destruct (JsMap.get (removedId r) m).
  - destruct (JsNumber.gt _ _); [now apply keyed_set | assumption].
  - now apply keyed_set.
Qed.

Lemma removedStep_keys m r id :
  In id (JsMap.keys (removedStep m r)) <-> id = removedId r \/ In id (JsMap.keys m).
Proof.
  unfold removedStep. destruct (JsMap.get (removedId r) m) eqn:G.
  - apply JsMap.get_Some_keys in G.
    destruct (JsNumber.gt _ _); [apply JsMap.In_keys_set|].
    split; [tauto | intros [->|?]; assumption].
  - apply JsMap.In_keys_set.
Qed.

Lemma removedFold_keyed rs m :
  keyed removedId m -> keyed removedId (fold_left removedStep rs m).
Proof.
  revert m. induction rs as [|r rs IH]; simpl; intros m K; [assumption|].
  apply IH. now apply removedStep_keyed.
Qed.

Lemma removedFold_keys rs m id :
  In id (JsMap.keys (fold_left removedStep rs m))
  <-> In id (JsMap.keys m) \/ In id (map removedId rs).
Proof.
  revert m. induction rs as [|r rs IH]; simpl; intros m; [tauto|].
  rewrite IH, removedStep_keys. intuition congruence.
Qed.

Lemma removedMapOf_keyed rs : keyed removedId (removedMapOf rs).
Proof. apply removedFold_keyed, keyed_empty. Qed.

Lemma removedMapOf_has rs id :
  JsMap.has id (removedMapOf rs) = true <-> In id (map removedId rs).
Proof.
  rewrite JsMap.has_true. unfold removedMapOf. rewrite removedFold_keys. simpl. tauto.
Qed.

Lemma thisFold_get c (m : JsMap.t string DeviceEntry) acc id :
  keyed deviceId m ->
  JsMap.get id (fold_left (thisStep c) (JsMap.values m) acc)
  = match JsMap.get id m with Some d => Some (d, c) | None => JsMap.get id acc end.
Proof.
  revert acc. induction m as [|[k d] m IH]; intros acc K; simpl; [reflexivity|].
  destruct (keyed_tail K) as (Hk & K' & Hnone).
  rewrite (IH _ K'). unfold thisStep. rewrite Hk.
  destruct (String.eqb id k) eqn:E.
  - apply String.eqb_eq in E. subst id. rewrite Hnone. apply JsMap.get_set_eq.
  - apply String.eqb_neq in E. rewrite JsMap.get_set_ne by congruence. reflexivity.
Qed.

Lemma thisFold_keyed c ds acc :
  keyed (fun e : DeviceEntry * Z => deviceId (fst e)) acc ->
  keyed (fun e : DeviceEntry * Z => deviceId (fst e)) (fold_left (thisStep c) ds acc).
Proof.
  revert acc. induction ds as [|d ds IH]; simpl; intros acc K; [assumption|].
  apply IH. unfold thisStep.
  exact (@keyed_set _ (fun e : DeviceEntry * Z => deviceId (fst e)) acc (d, c) K).
Qed.

Definition pick (c : Z) (d : DeviceEntry) (old : option (DeviceEntry * Z))
  : option (DeviceEntry * Z) :=
  match old with
  | None => Some (d, c)
  | Some (d0, from) => if (c >? from)%Z then Some (d, c) else Some (d0, from)
  end.

Lemma otherFold_get c (m : JsMap.t string DeviceEntry) acc id :
  keyed deviceId m ->
  JsMap.get id (fold_left (otherStep c) (JsMap.values m) acc)
  = match JsMap.get id m with
    | Some d => pick c d (JsMap.get id acc)
    | None => JsMap.get id acc
    end.
Proof.
  revert acc. induction m as [|[k d] m IH]; intros acc K; simpl; [reflexivity|].
  destruct (keyed_tail K) as (Hk & K' & Hnone).
  rewrite (IH _ K'). unfold otherStep. rewrite Hk.
  destruct (String.eqb id k) eqn:E.
  - apply String.eqb_eq in E. subst id. rewrite Hnone.
    unfold pick. destruct (JsMap.get k acc) as [[d0 from]|] eqn:G.
    + destruct (c >? from)%Z; [apply JsMap.get_set_eq | assumption].
    + apply JsMap.get_set_eq.
  - apply String.eqb_neq in E.
    assert (JsMap.get id
              match JsMap.get k acc with
              | Some (_, from) => if (c >? from)%Z then JsMap.set k (d, c) acc else acc
              | None => JsMap.set k (d, c) acc
              end = JsMap.get id acc) as ->.
    { destruct (JsMap.get k acc) as [[d0 from]|].
      - destruct (c >? from)%Z; [apply JsMap.get_set_ne; congruence | reflexivity].
      - apply JsMap.get_set_ne; congruence. }
    reflexivity.
Qed.

Lemma otherFold_keyed c ds acc :
  keyed (fun e : DeviceEntry * Z => deviceId (fst e)) acc ->
  keyed (fun e : DeviceEntry * Z => deviceId (fst e)) (fold_left (otherStep c) ds acc).
Proof.
  revert acc. induction ds as [|d ds IH]; simpl; intros acc K; [assumption|].
  apply IH. unfold otherStep.
  destruct (JsMap.get (deviceId d) acc) as [[d0 from]|].
  - destruct (c >? from)%Z; [|assumption].
    exact (@keyed_set _ (fun e : DeviceEntry * Z => deviceId (fst e)) acc (d, c) K).
  - exact (@keyed_set _ (fun e : DeviceEntry * Z => deviceId (fst e)) acc (d, c) K).
Qed.

Lemma allDevicesOf_keyed a b :
  keyed (fun e : DeviceEntry * Z => deviceId (fst e)) (allDevicesOf a b).
Proof. apply otherFold_keyed, thisFold_keyed, keyed_empty. Qed.

Lemma allDevicesOf_get a b id :
  wf a -> wf b ->
  JsMap.get id (allDevicesOf a b)
  = match JsMap.get id (devices b) with
    | Some db => pick (createdAt b) db
                   (match JsMap.get id (devices a) with
                    | Some da => Some (da, createdAt a) | None => None end)
    | None => match JsMap.get id (devices a) with
              | Some da => Some (da, createdAt a) | None => None end
    end.
Proof.
  intros Wa Wb. unfold allDevicesOf.
  rewrite (otherFold_get _ _ _ Wb), (thisFold_get _ _ _ Wa). reflexivity.
Qed.

Lemma keepFold_get rm (all : JsMap.t string (DeviceEntry * Z)) acc id :
  keyed (fun e : DeviceEntry * Z => deviceId (fst e)) all ->
  JsMap.get id (fold_left (keepStep rm) (JsMap.values all) acc)
  = match JsMap.get id all with
    | Some e => if JsMap.has id rm then JsMap.get id acc else Some (fst e)
    | None => JsMap.get id acc
    end.
Proof.
  revert acc. induction all as [|[k e] all IH]; intros acc K; simpl; [reflexivity|].
  destruct (keyed_tail K) as (Hk & K' & Hnone). simpl in Hk.
  rewrite (IH _ K'). unfold keepStep. simpl. rewrite Hk.
  destruct (String.eqb id k) eqn:E.
  - apply String.eqb_eq in E. subst id. rewrite Hnone.
    destruct (JsMap.has k rm); [reflexivity | apply JsMap.get_set_eq].
  - apply String.eqb_neq in E.
    assert (JsMap.get id (if JsMap.has k rm then acc else JsMap.set k (fst e) acc)
            = JsMap.get id acc) as ->.
    { destruct (JsMap.has k rm); [reflexivity | apply JsMap.get_set_ne; congruence]. }
    reflexivity.
Qed.

Lemma keepFold_keyed rm es acc :
  keyed deviceId acc -> keyed deviceId (fold_left (keepStep rm) es acc).
Proof.
  revert acc. induction es as [|e es IH]; simpl; intros acc K; [assumption|].
  apply IH. unfold keepStep. destruct (JsMap.has _ rm); [assumption | now apply keyed_set].
Qed.

(** What [merge] leaves among the devices, entry by entry. *)
Lemma merge_get a b id :
  wf a -> wf b ->
  JsMap.get id (devices (merge a b))
  = if JsMap.has id (removedMapOf (removed a ++ removed b)) then None
    else match JsMap.get id (devices a), JsMap.get id (devices b) with
         | Some da, Some db => if (createdAt b >? createdAt a)%Z then Some db else Some da
         | Some da, None => Some da
         | None, Some db => Some db
         | None, None => None
         end.
Proof.
  intros Wa Wb. unfold merge. simpl.
  rewrite (keepFold_get _ _ _ (allDevicesOf_keyed a b)).
  rewrite (allDevicesOf_get _ Wa Wb). simpl.
  destruct (JsMap.get id (devices b)) as [db|], (JsMap.get id (devices a)) as [da|]; simpl;
    try destruct (createdAt b >? createdAt a)%Z; simpl;
    destruct (JsMap.has id _); reflexivity.
Qed.

Lemma merge_wf a b : wf (merge a b).
Proof. unfold wf, merge. simpl. apply keepFold_keyed, keyed_empty. Qed.

Lemma merge_removedIds a b id :
  In id (removedIds (merge a b)) <-> In id (removedIds a) \/ In id (removedIds b).
Proof.
  unfold removedIds, merge. simpl.
  rewrite (keyed_ids_keys (removedMapOf_keyed _)).
  rewrite <- JsMap.has_true, removedMapOf_has, map_app, in_app_iff. tauto.
Qed.

Lemma activeIds_get l id : wf l -> (In id (activeIds l) <-> JsMap.get id (devices l) <> None).
Proof.
  intros W. unfold activeIds, getAllDevices. rewrite (keyed_ids_keys W).
  split.
  - intros Hin. destruct (JsMap.In_keys_get _ _ Hin) as [v ->]. discriminate.
  - intros N. destruct (JsMap.get id (devices l)) eqn:G; [|congruence].
    eapply JsMap.get_Some_keys; eauto.
Qed.

Lemma activeDevices_get l d :
  wf l -> (In d (activeDevices l) <-> JsMap.get (deviceId d) (devices l) = Some d).
Proof. intros W. apply (keyed_values_get d W). Qed.

Lemma isRemoved_In l id : isRemoved l id = true <-> In id (removedIds l).
Proof.
  unfold isRemoved, removedIds. rewrite existsb_exists, in_map_iff.
  split; intros [r [H1 H2]]; exists r.
  - apply String.eqb_eq in H2. tauto.
  - split; [tauto | apply String.eqb_eq; tauto].
Qed.

(** *** [addDevice] and [removeDevice] *)

Lemma addDevice_removed_noop l d :
  In (deviceId d) (removedIds l) -> addDevice l d = l.
Proof. intros Hin. unfold addDevice. apply isRemoved_In in Hin. now rewrite Hin. Qed.

Lemma addDevice_removedIds l d : removed (addDevice l d) = removed l.
Proof. unfold addDevice. destruct (isRemoved l (deviceId d)); reflexivity. Qed.

Lemma addDevice_keeps_absent l d id :
  In id (removedIds l) -> JsMap.get id (devices l) = None ->
  JsMap.get id (devices (addDevice l d)) = None.
Proof.
  intros Hin G. unfold addDevice. destruct (isRemoved l (deviceId d)) eqn:R; [assumption|].
  simpl. rewrite JsMap.get_set_ne; [assumption|].
  intros E. subst id. apply isRemoved_In in Hin. congruence.
Qed.

Lemma addDevice_absent l d : removed_absent l -> removed_absent (addDevice l d).
Proof.
  intros I id Hin. unfold removedIds in Hin. rewrite addDevice_removedIds in Hin.
  apply addDevice_keeps_absent; auto.
Qed.

Lemma addDevices_keep_absent ds l id :
  In id (removedIds l) -> JsMap.get id (devices l) = None ->
  JsMap.get id (devices (fold_left addDevice ds l)) = None /\
  removed (fold_left addDevice ds l) = removed l.
Proof.
  revert l. induction ds as [|d ds IH]; simpl; intros l Hin G; [tauto|].
  destruct (IH (addDevice l d)) as [H1 H2].
  - unfold removedIds. now rewrite addDevice_removedIds.
  - now apply addDevice_keeps_absent.
  - split; [assumption | now rewrite H2, addDevice_removedIds].
Qed.

Lemma removeDevice_absent now_ms l id :
  removed_absent l -> removed_absent (removeDevice now_ms l id).
Proof.
  intros I id' Hin. unfold removeDevice in *.
  destruct (JsMap.has id (devices l)); simpl in *; [|now apply I].
  unfold removedIds in Hin. simpl in Hin. rewrite map_app, in_app_iff in Hin. simpl in Hin.
  destruct (String.eqb id id') eqn:E.
  - apply String.eqb_eq in E. subst. apply JsMap.get_delete_eq.
  - apply String.eqb_neq in E. rewrite JsMap.get_delete_ne by assumption.
    destruct Hin as [Hin|[Hin|[]]]; [now apply I | congruence].
Qed.

Lemma removeDevice_present now_ms l id d :
  JsMap.get id (devices l) = Some d ->
  JsMap.get id (devices (removeDevice now_ms l id)) = None /\
  removed (removeDevice now_ms l id)
    = removed l ++ [{| removedId := id; timestamp := JsNumber.Num (now_ms / 1000) |}] /\
  forall id', id' <> id ->
    JsMap.get id' (devices (removeDevice now_ms l id)) = JsMap.get id' (devices l).
Proof.
  intros G. unfold removeDevice, JsMap.has. rewrite G. simpl.
  split; [apply JsMap.get_delete_eq|]. split; [reflexivity|].
  intros id' N. apply JsMap.get_delete_ne. congruence.
Qed.

Lemma merge_absent a b : wf a -> wf b -> removed_absent (merge a b).
Proof.
  intros Wa Wb id Hin. rewrite (merge_get _ Wa Wb).
  apply merge_removedIds in Hin.
  assert (JsMap.has id (removedMapOf (removed a ++ removed b)) = true) as ->; [|reflexivity].
  apply removedMapOf_has. rewrite map_app, in_app_iff. exact Hin.
Qed.

Lemma built_absent l : built l -> removed_absent l.
Proof.
  induction 1.
  - intros id [].
  - now apply addDevice_absent.
  - now apply removeDevice_absent.
  - now apply merge_absent.
Qed.

(** The class keeps [devices] keyed by the entries' ids. *)
Lemma addDevice_wf l d : wf l -> wf (addDevice l d).
Proof.
  unfold wf, addDevice. intros W. destruct (isRemoved l (deviceId d)); [assumption|].
  simpl. now apply keyed_set.
Qed.

Lemma removeDevice_wf now_ms l id0 : wf l -> wf (removeDevice now_ms l id0).
Proof.
  unfold wf, removeDevice. intros W. destruct (negb _); [assumption|].
  simpl. now apply keyed_delete.
Qed.

Lemma built_wf l : built l -> wf l.
Proof.
  induction 1.
  - apply keyed_empty.
  - now apply addDevice_wf.
  - now apply removeDevice_wf.
  - apply merge_wf.
Qed.

Lemma parseTag_wf num l tag : wf l -> wf (parseTag num l tag).
Proof.
  unfold wf, parseTag. intros W.
  destruct tag as [|t0 rest]; [assumption|].
  destruct (String.eqb t0 "device" && _).
  { destruct rest as [|e [|s0 [|d [|lb r]]]]; try assumption.
    destruct (truthy e && truthy s0 && truthy d && truthy lb); [|assumption].
    simpl.
    exact (@keyed_set _ deviceId (devices l)
             {| ephemeralPublicKey := e; sharedSecret := s0; deviceId := d;
                label := lb; ephemeralPrivateKey := None |} W). }
  destruct (String.eqb t0 "removed" && _).
  { destruct rest as [|d [|ts r]]; try assumption.
    destruct (truthy d && truthy ts); assumption. }
  destruct (String.eqb t0 "main-device" && _); [assumption|].
  destruct (String.eqb t0 "version" && _); assumption.
Qed.

Lemma fromEvent_wf ver num ev l : fromEvent ver num ev = inr l -> wf l.
Proof.
  unfold fromEvent. destruct (negb (truthy_opt (sig ev))); [discriminate|].
  destruct (negb (ver ev)); [discriminate|]. intros [= <-].
  assert (F : forall tl l0, wf l0 -> wf (fold_left (parseTag num) tl l0)).
  { induction tl as [|tag tl IH]; simpl; intros l0 W0; [assumption|].
    apply IH. now apply parseTag_wf. }
  apply F. apply keyed_empty.
Qed.

(** *** Sample lists *)

Definition phone : DeviceEntry :=
  {| ephemeralPublicKey := "eph-phone"; sharedSecret := "secret-phone";
     deviceId := "phone"; label := "Phone"; ephemeralPrivateKey := None |}.

Definition phone_renamed : DeviceEntry :=
  {| ephemeralPublicKey := "eph-phone"; sharedSecret := "secret-phone";
     deviceId := "phone"; label := "Old phone"; ephemeralPrivateKey := None |}.

Definition laptop : DeviceEntry :=
  {| ephemeralPublicKey := "eph-laptop"; sharedSecret := "secret-laptop";
     deviceId := "laptop"; label := "Laptop"; ephemeralPrivateKey := None |}.

(** A verifier that accepts the events signed ["sig-of-" ++ pubkey], and
    [Number] on decimal numerals; a string with another character is no
    numeral here. *)
Definition sampleVerify (e : Event) : bool :=
  match sig e with
  | Some s => String.eqb s ("sig-of-" ++ pubkey e)
  | None => false
  end.

Fixpoint digitsValue (acc : Z) (s : string) : Z :=
  match s with
  | EmptyString => acc
  | String c rest =>
    digitsValue (10 * acc + (Z.of_nat (Ascii.nat_of_ascii c) - 48)) rest
  end.

Fixpoint allDigits (s : string) : bool :=
  match s with
  | EmptyString => true
  | String c rest =>
    Nat.leb 48 (Ascii.nat_of_ascii c) && Nat.leb (Ascii.nat_of_ascii c) 57 && allDigits rest
  end.

Definition sampleNumber (s : string) : JsNumber.t :=
  if allDigits s then JsNumber.Num (digitsValue 0 s) else JsNumber.NaN.

(** An owner-signed list event that names device [phone] and also lists
    it as removed. *)
Definition listEvent : Event :=
  {| id := Some "e1"; pubkey := "owner"; created_at := 100; kind := 10078;
     tags := [ ["d"; "double-ratchet/invite-list"];
               ["device"; "eph-phone"; "secret-phone"; "phone"; "Phone"];
               ["removed"; "phone"; "90"];
               ["version"; "1"] ];
     content := ""; sig := Some "sig-of-owner" |}.

Definition parsedList : InviteList :=
  {| owner := "owner"; devices := [("phone", phone)];
     removed := [{| removedId := "phone"; timestamp := JsNumber.Num 90 |}];
     mainDeviceId := None; version := JsNumber.Num 1; createdAt := 100 |}.

Definition listA : InviteList := addDevice (create 100000 "owner") phone.
Definition listB : InviteList := addDevice (create 100000 "owner") phone_renamed.
Definition listD : InviteList := addDevice (create 200000 "owner") phone_renamed.
Definition listC : InviteList :=
  removeDevice 200000 (addDevice (addDevice (create 100000 "owner") phone) laptop) "phone".

(** *** Properties *)

(** C9.  The invariant breaks at a list read from an event.  [fromEvent]
    copies the [device] and [removed] tags of a signed event as they come,
    without the check that [addDevice] and [merge] make: for an event that
    names the phone in both, [getDevice] returns the phone although its id
    is in [removed], and [getAllDevices] lists it. *)
Lemma getDevice_returns_removed_device :
  fromEvent sampleVerify sampleNumber listEvent = inr parsedList /\
  In "phone" (removedIds parsedList) /\
  getDevice parsedList "phone" = Some phone /\
  getAllDevices parsedList = [phone] /\
  ~ removed_absent parsedList.
Proof.
  split; [reflexivity|]. split; [now left|]. split; [reflexivity|]. split; [reflexivity|].
  intros I. specialize (I "phone" (or_introl eq_refl)). discriminate.
Qed.

(** The other paths keep the invariant.  In every list the class makes
    from [create] with [addDevice], [removeDevice] and [merge], no id of
    [removed] is among the devices.  For every list, [addDevice] of an id
    in [removed] changes nothing, so no sequence of [addDevice] brings a
    removed and absent id back (and [removed] stays as it is); and
    [removeDevice] of a present id takes it out of [devices], leaves the
    other devices alone and appends it to [removed] with the timestamp
    [floor(now_ms / 1000)]. *)
Theorem removed_never_active (l : InviteList) :
  (built l -> removed_absent l) /\
  (forall d, In (deviceId d) (removedIds l) -> addDevice l d = l) /\
  (forall ds id, In id (removedIds l) -> JsMap.get id (devices l) = None ->
     JsMap.get id (devices (fold_left addDevice ds l)) = None /\
     removed (fold_left addDevice ds l) = removed l) /\
  (forall now_ms id d, JsMap.get id (devices l) = Some d ->
     JsMap.get id (devices (removeDevice now_ms l id)) = None /\
     removed (removeDevice now_ms l id)
       = removed l ++ [{| removedId := id; timestamp := JsNumber.Num (now_ms / 1000) |}] /\
     forall id', id' <> id ->
       JsMap.get id' (devices (removeDevice now_ms l id)) = JsMap.get id' (devices l)).
Proof.
  split; [apply built_absent|].
  split; [apply addDevice_removed_noop|].
  split; [intros; now apply addDevices_keep_absent|].
  intros now_ms id0 d G. exact (@removeDevice_present now_ms l id0 d G).
Qed.

Lemma removed_never_active_witness :
  removed_absent listC /\
  addDevice listC phone = listC /\
  JsMap.get "phone" (devices (fold_left addDevice [phone; phone_renamed] listC)) = None /\
  removed (removeDevice 200999 listA "phone")
    = [{| removedId := "phone"; timestamp := JsNumber.Num 200 |}].
Proof.
  assert (B : built listC) by (repeat constructor).
  split; [exact (proj1 (removed_never_active listC) B)|].
  split; [apply (proj1 (proj2 (removed_never_active listC)) phone); simpl; now left|].
  split.
  - apply (proj1 (proj2 (proj2 (removed_never_active listC))) [phone; phone_renamed] "phone");
      [simpl; now left | reflexivity].
  - apply (proj2 (proj2 (proj2 (removed_never_active listA))) 200999%Z "phone" phone).
    reflexivity.
Defined.

(** *** [merge] *)

Lemma removedMapOf_has_comm ra rb id :
  JsMap.has id (removedMapOf (ra ++ rb)) = JsMap.has id (removedMapOf (rb ++ ra)).
Proof.
  apply eq_true_iff_eq. rewrite !removedMapOf_has, !map_app, !in_app_iff. tauto.
Qed.

Lemma removedMapOf_has_self ra id :
  JsMap.has id (removedMapOf (ra ++ ra)) = JsMap.has id (removedMapOf ra).
Proof.
  apply eq_true_iff_eq. rewrite !removedMapOf_has, !map_app, !in_app_iff. tauto.
Qed.

(** The two lists hold the same entry wherever both hold one. *)
Definition agree (a b : InviteList) : Prop :=
  forall id da db, JsMap.get id (devices a) = Some da ->
                   JsMap.get id (devices b) = Some db -> da = db.

Lemma merge_get_comm a b id :
  wf a -> wf b -> createdAt a <> createdAt b \/ agree a b ->
  JsMap.get id (devices (merge a b)) = JsMap.get id (devices (merge b a)).
Proof.
  intros Wa Wb H. rewrite (merge_get _ Wa Wb), (merge_get _ Wb Wa).
  rewrite (removedMapOf_has_comm (removed a) (removed b)).
  destruct (JsMap.has id _); [reflexivity|].
  destruct (JsMap.get id (devices a)) as [da|] eqn:Ga,
           (JsMap.get id (devices b)) as [db|] eqn:Gb; try reflexivity.
  destruct H as [N|A].
  - destruct (Z.gtb_spec (createdAt b) (createdAt a)), (Z.gtb_spec (createdAt a) (createdAt b));
      try reflexivity; lia.
  - rewrite (A id da db Ga Gb).
    destruct (createdAt b >? createdAt a)%Z, (createdAt a >? createdAt b)%Z; reflexivity.
Qed.

Lemma merge_ids_comm a b id :
  wf a -> wf b ->
  (JsMap.get id (devices (merge a b)) <> None <-> JsMap.get id (devices (merge b a)) <> None).
Proof.
  intros Wa Wb. rewrite (merge_get _ Wa Wb), (merge_get _ Wb Wa).
  rewrite (removedMapOf_has_comm (removed a) (removed b)).
  destruct (JsMap.has id _); [tauto|].
  destruct (JsMap.get id (devices a)), (JsMap.get id (devices b));
    try destruct (createdAt b >? createdAt a)%Z; try destruct (createdAt a >? createdAt b)%Z;
    split; congruence.
Qed.

Lemma merge_get_self a id :
  wf a -> removed_absent a ->
  JsMap.get id (devices (merge a a)) = JsMap.get id (devices a).
Proof.
  intros Wa I. rewrite (merge_get _ Wa Wa), removedMapOf_has_self.
  destruct (JsMap.has id (removedMapOf (removed a))) eqn:R.
  - apply removedMapOf_has in R. symmetry. now apply I.
  - destruct (JsMap.get id (devices a)); [|reflexivity].
    destruct (createdAt a >? createdAt a)%Z; reflexivity.
Qed.

Lemma same_devices_of_get x y :
  wf x -> wf y ->
  (forall id, JsMap.get id (devices x) = JsMap.get id (devices y)) ->
  same_set (activeDevices x) (activeDevices y).
Proof.
  intros Wx Wy E d. rewrite (activeDevices_get _ Wx), (activeDevices_get _ Wy), E. tauto.
Qed.

(** C6, as stated, fails twice.  Two lists of one owner, created in the
    same second, that hold different entries for one device id: each merge
    order keeps the entry of its receiver.  And a list that holds a device
    whose id it also lists as removed: merging it with itself drops the
    device. *)
Lemma merge_counterexample :
  owner listA = owner listB /\
  activeDevices (merge listA listB) = [phone] /\
  activeDevices (merge listB listA) = [phone_renamed] /\
  ~ same_set (activeDevices (merge listA listB)) (activeDevices (merge listB listA)) /\
  activeDevices parsedList = [phone] /\
  activeDevices (merge parsedList parsedList) = [] /\
  ~ same_set (activeDevices (merge parsedList parsedList)) (activeDevices parsedList).
Proof.
  repeat split; try reflexivity.
  - intros S. destruct (S phone) as [H _]. specialize (H (or_introl eq_refl)).
    destruct H as [H|[]]. discriminate.
  - intros S. destruct (S phone) as [_ H]. exact (H (or_introl eq_refl)).
Qed.

(** C6, amended.  For lists [a] and [b] (of the same owner or not),
    [a.merge(b)] and [b.merge(a)] have the same set of removed ids and the
    same set of active device ids; they have the same set of active device
    entries when the two [createdAt] differ or the lists agree on the
    devices they share.  [a.merge(a)] has the removed ids of [a], and the
    active devices of [a] when no device of [a] is listed in its
    [removed]. *)
Theorem merge_commutative_idempotent (a b : InviteList) :
  wf a -> wf b ->
  same_set (removedIds (merge a b)) (removedIds (merge b a)) /\
  same_set (activeIds (merge a b)) (activeIds (merge b a)) /\
  (createdAt a <> createdAt b \/ agree a b ->
     same_set (activeDevices (merge a b)) (activeDevices (merge b a))) /\
  same_set (removedIds (merge a a)) (removedIds a) /\
  (removed_absent a ->
     same_set (activeDevices (merge a a)) (activeDevices a) /\
     same_set (activeIds (merge a a)) (activeIds a)).
Proof.
  intros Wa Wb. split; [|split; [|split; [|split]]].
  - intros id. rewrite !merge_removedIds. tauto.
  - intros id. rewrite (activeIds_get _ (merge_wf a b)), (activeIds_get _ (merge_wf b a)).
    now apply merge_ids_comm.
  - intros H. apply same_devices_of_get; try apply merge_wf.
    intros id. now apply merge_get_comm.
  - intros id. rewrite merge_removedIds. tauto.
  - intros I. split.
    + apply same_devices_of_get; [apply merge_wf | assumption |].
      intros id. now apply merge_get_self.
    + intros id. rewrite (activeIds_get _ (merge_wf a a)), (activeIds_get _ Wa).
      now rewrite merge_get_self.
Qed.

Lemma wf_listA : wf listA.
Proof. apply (@keyed_set _ deviceId JsMap.empty phone), keyed_empty. Qed.

Lemma wf_listB : wf listB.
Proof. apply (@keyed_set _ deviceId JsMap.empty phone_renamed), keyed_empty. Qed.

Lemma wf_listC : wf listC.
Proof.
  unfold wf, listC. simpl. split.
  - repeat constructor. intros [].
  - intros k v [E|[]]. now inversion E.
Qed.

Lemma wf_listD : wf listD.
Proof. apply (@keyed_set _ deviceId JsMap.empty phone_renamed), keyed_empty. Qed.

Lemma merge_commutative_idempotent_witness :
  same_set (activeIds (merge listA listD)) (activeIds (merge listD listA)) /\
  same_set (removedIds (merge listA listD)) (removedIds (merge listD listA)) /\
  same_set (activeDevices (merge listA listD)) (activeDevices (merge listD listA)) /\
  same_set (activeDevices (merge listC listC)) (activeDevices listC).
Proof.
  pose proof (merge_commutative_idempotent wf_listA wf_listD) as (H1 & H2 & H3 & _).
  pose proof (merge_commutative_idempotent wf_listC wf_listC) as (_ & _ & _ & _ & H5).
  split; [exact H2|]. split; [exact H1|]. split.
  - apply H3. left. vm_compute. discriminate.
  - refine (proj1 (H5 _)). intros x [E|[]]. subst x. reflexivity.
Defined.

End InviteList.

(** ** ControllableRelay.ts: [publish] *)

Module ControllableRelay.

Definition Bytes := list Byte.byte.

(** What the [NDKEvent] built from the input holds after the optional
    [sign]: its id, its signature and its tags. *)
Record NdkEvent := {
  ndk_id : string;
  ndk_sig : option string;
  ndk_tags : list (list string)
}.

(** [tags.find(t => t[0] === "d")?.[1]] *)
Definition isDTag (t : list string) : bool :=
  match t with
  | t0 :: _ => String.eqb t0 "d"
  | [] => false
  end.

Definition dTagOf (tgs : list (list string)) : option string :=
  match find isDTag tgs with
  | Some t => nth_error t 1
  | None => None
  end.

Definition replaceable (k : Z) : bool := (10000 <=? k)%Z && (k <? 20000)%Z.

Definition option_string_eqb (a b : option string) : bool :=
  match a, b with
  | Some x, Some y => String.eqb x y
  | None, None => true
  | _, _ => false
  end.

(** Does the stored event [e] stand at the address of [event]: same kind,
    same pubkey, same d-tag. *)
Definition sameAddress (event e : Event) : bool :=
  (kind e =? kind event)%Z && String.eqb (pubkey e) (pubkey event)
  && option_string_eqb (dTagOf (tags e)) (dTagOf (tags event)).

(** The [for .. of this.events] loop: the key of the first stored event
    at the address of [event]. *)
Fixpoint firstAtAddress (event : Event) (events : JsMap.t string Event) : option string :=
  match events with
  | [] => None
  | (k, e) :: rest => if sameAddress event e then Some k else firstAtAddress event rest
  end.

Section Publish.

(** NDK's [NDKEvent] and [NDKPrivateKeySigner.sign]. *)
Variable ndkEvent : Event -> option Bytes -> NdkEvent.

Definition verifiedOf (event : Event) (signerSecretKey : option Bytes) : Event :=
  if truthy_opt (id event) && truthy_opt (sig event) then event
  else
    let n := ndkEvent event signerSecretKey in
    {| id := Some (ndk_id n); pubkey := pubkey event; created_at := created_at event;
       kind := kind event; tags := ndk_tags n; content := content event;
       sig := ndk_sig n |}.

Definition idOf (e : Event) : string :=
  match id e with Some s => s | None => "" end.

Definition publish (events : JsMap.t string Event) (p : Event * option Bytes)
  : JsMap.t string Event :=
  let (event, signerSecretKey) := p in
  let verifiedEvent := verifiedOf event signerSecretKey in
  let events1 :=
    if replaceable (kind event) then
      match firstAtAddress event events with
      | Some k => JsMap.delete k events
      | None => events
      end
    else events in
  JsMap.set (idOf verifiedEvent) verifiedEvent events1.

Definition publishAll (ps : list (Event * option Bytes)) (events : JsMap.t string Event)
  : JsMap.t string Event :=
  fold_left publish ps events.

(** [getEvents()] *)
Definition getEvents (events : JsMap.t string Event) : list Event := JsMap.values events.

(** The publication made last at the address of [e]: the last one in
    the sequence of publications, whatever the [created_at] values. *)
Fixpoint lastPublishedAt (e : Event) (ps : list (Event * option Bytes))
  : option (Event * option Bytes) :=
  match ps with
  | [] => None
  | p :: rest =>
    match lastPublishedAt e rest with
    | Some q => Some q
    | None => if sameAddress e (fst p) then Some p else None
    end
  end.

(** The address of a replaceable event: (kind, pubkey, d-tag). *)
Definition address (e : Event) : Z * string * option string :=
  (kind e, pubkey e, dTagOf (tags e)).

Lemma option_string_eqb_eq a b : option_string_eqb a b = true <-> a = b.
Proof.
  destruct a, b; simpl; try (split; congruence).
  rewrite String.eqb_eq. split; congruence.
Qed.

Lemma sameAddress_address event e : sameAddress event e = true <-> address e = address event.
Proof.
  unfold sameAddress, address.
  rewrite !andb_true_iff, Z.eqb_eq, String.eqb_eq, option_string_eqb_eq.
  split; [intros [[-> ->] ->]; reflexivity | intros [= -> -> ->]; auto].
Qed.

Lemma sameAddress_ext e e' x :
  address e = address e' -> sameAddress e x = sameAddress e' x.
Proof.
  intros A. apply eq_true_iff_eq. rewrite !sameAddress_address, A. tauto.
Qed.

Lemma lastPublishedAt_ext e e' ps : address e = address e' -> lastPublishedAt e ps = lastPublishedAt e' ps.
Proof.
  intros A. induction ps as [|p ps IH]; simpl; [reflexivity|].
  now rewrite IH, (sameAddress_ext _ A).
Qed.

Lemma lastPublishedAt_snoc e ps p :
  lastPublishedAt e (ps ++ [p]) = if sameAddress e (fst p) then Some p else lastPublishedAt e ps.
Proof.
  induction ps as [|q ps IH]; simpl; [reflexivity|].
  rewrite IH. destruct (sameAddress e (fst p)); reflexivity.
Qed.

Lemma firstAtAddress_None event events :
  firstAtAddress event events = None ->
  forall k e, In (k, e) events -> address e <> address event.
Proof.
  induction events as [|[k0 e0] rest IH]; simpl; [intros _ k e []|].
  destruct (sameAddress event e0) eqn:S; [discriminate|].
  intros F k e [E|Hin].
  - inversion E; subst. intros A. apply sameAddress_address in A. congruence.
  - exact (IH F k e Hin).
Qed.

Lemma firstAtAddress_Some event events k0 :
  firstAtAddress event events = Some k0 ->
  exists e0, In (k0, e0) events /\ address e0 = address event.
Proof.
  induction events as [|[k1 e1] rest IH]; simpl; [discriminate|].
  destruct (sameAddress event e1) eqn:S.
  - intros [= <-]. exists e1. split; [now left | now apply sameAddress_address].
  - intros F. destruct (IH F) as [e0 [Hin A]]. exists e0. split; [now right | assumption].
Qed.

Lemma In_delete_key (m : JsMap.t string Event) k k0 e :
  In (k, e) (JsMap.delete k0 m) -> k <> k0.
Proof.
  intros Hin E. subst k.
  assert (In k0 (JsMap.keys (JsMap.delete k0 m))) as Hk.
  { change k0 with (fst (k0, e)). now apply in_map. }
  apply JsMap.In_keys_get in Hk. destruct Hk as [v G].
  rewrite JsMap.get_delete_eq in G. discriminate.
Qed.

Lemma filter_single (P : Event -> bool) (m : JsMap.t string Event) k v :
  JsMap.wf m -> In (k, v) m -> P v = true ->
  (forall k' e', In (k', e') m -> P e' = true -> k' = k) ->
  filter P (JsMap.values m) = [v].
Proof.
  unfold JsMap.wf. induction m as [|[k1 e1] m IH]; simpl; [tauto|].
  intros W Hin Pv U. inversion W as [|? ? Hnot W']; subst.
  assert (Hnone : forall m', (forall k' e', In (k', e') m' -> P e' = true -> k' = k) ->
                             ~ In k (JsMap.keys m') -> filter P (JsMap.values m') = []).
  { induction m' as [|[k2 e2] m' IH']; simpl; [reflexivity|]. intros U' N.
    destruct (P e2) eqn:P2.
    - exfalso. apply N. left. apply (U' k2 e2); [now left | assumption].
    - apply IH'; [intros; eapply U'; eauto | tauto]. }
  destruct Hin as [E|Hin].
  - inversion E; subst. rewrite Pv. f_equal.
    apply Hnone; [intros; eapply U; eauto | assumption].
  - destruct (P e1) eqn:P1.
    + exfalso. assert (k1 = k) by (apply (U k1 e1); [now left | assumption]). subst k1.
      apply Hnot. change k with (fst (k, v)). now apply in_map.
    + apply IH; auto. intros; eapply U; eauto.
Qed.

(** *** The invariant of the store *)

(** NDK leaves the d-tag of the event it signs as it is. *)
Hypothesis ndk_keeps_dTag :
  forall event sk, dTagOf (ndk_tags (ndkEvent event sk)) = dTagOf (tags event).

Lemma verifiedOf_address event sk : address (verifiedOf event sk) = address event.
Proof.
  unfold verifiedOf. destruct (_ && _); [reflexivity|].
  unfold address. simpl. now rewrite ndk_keeps_dTag.
Qed.

Lemma verifiedOf_kind event sk : kind (verifiedOf event sk) = kind event.
Proof. unfold verifiedOf. destruct (_ && _); reflexivity. Qed.

Definition last_only (ps : list (Event * option Bytes)) (events : JsMap.t string Event)
  : Prop :=
  JsMap.wf events /\
  (forall k e, In (k, e) events -> idOf e = k) /\
  (forall k e, In (k, e) events -> replaceable (kind e) = true ->
     exists p, lastPublishedAt e ps = Some p /\ e = verifiedOf (fst p) (snd p)).

Lemma last_only_unique ps events k e k' e' :
  last_only ps events -> In (k, e) events -> In (k', e') events ->
  replaceable (kind e) = true -> address e' = address e -> k' = k /\ e' = e.
Proof.
  intros (W & Hid & Hnew) Hin Hin' R A.
  assert (R' : replaceable (kind e') = true) by (injection A as -> _ _; exact R).
  destruct (Hnew _ _ Hin R) as [p [N E]], (Hnew _ _ Hin' R') as [p' [N' E']].
  rewrite (lastPublishedAt_ext _ A) in N'. rewrite N in N'. injection N' as Ep.
  assert (Ee : e' = e) by congruence.
  split; [|exact Ee]. rewrite <- (Hid _ _ Hin), <- (Hid _ _ Hin'), Ee. reflexivity.
Qed.

Lemma publish_last_only ps events p :
  last_only ps events -> last_only (ps ++ [p]) (publish events p).
Proof.
  intros I. pose proof I as (W & Hid & Hnew). destruct p as [event sk]. unfold publish.
  set (v := verifiedOf event sk).
  set (events1 := if replaceable (kind event)
                  then match firstAtAddress event events with
                       | Some k => JsMap.delete k events
                       | None => events
                       end
                  else events).
  assert (Sub : forall k e, In (k, e) events1 -> In (k, e) events).
  { subst events1. intros k e. destruct (replaceable (kind event)); [|tauto].
    destruct (firstAtAddress event events); [apply JsMap.In_delete | tauto]. }
  assert (W1 : JsMap.wf events1).
  { subst events1. destruct (replaceable (kind event)); [|assumption].
    destruct (firstAtAddress event events); [now apply JsMap.wf_delete | assumption]. }
  assert (Away : forall k e, In (k, e) events1 -> replaceable (kind e) = true ->
                             address e <> address event).
  { subst events1. intros k e Hin R A.
    destruct (replaceable (kind event)) eqn:Rv.
    - destruct (firstAtAddress event events) as [k0|] eqn:F.
      + destruct (@firstAtAddress_Some _ _ _ F) as [e0 [Hin0 A0]].
        pose proof (@In_delete_key _ _ _ _ Hin) as Nk.
        apply JsMap.In_delete in Hin.
        destruct (@last_only_unique ps events k e k0 e0 I Hin Hin0 R) as [Ek _];
          [congruence | congruence].
      + exact (@firstAtAddress_None _ _ F _ _ Hin A).
    - injection A as Ek _ _. congruence. }
  split; [now apply JsMap.wf_set|]. split.
  - intros k e Hin. apply JsMap.In_set in Hin. destruct Hin as [E|Hin].
    + congruence.
    + apply Hid. auto.
  - intros k e Hin R. rewrite lastPublishedAt_snoc. simpl.
    apply JsMap.In_set in Hin. destruct Hin as [E|Hin].
    + inversion E; subst e.
      assert (sameAddress v event = true) as ->.
      { apply sameAddress_address. symmetry. apply verifiedOf_address. }
      exists (event, sk). split; reflexivity.
    + assert (sameAddress e event = false) as ->.
      { destruct (sameAddress e event) eqn:S; [|reflexivity].
        apply sameAddress_address in S. exfalso.
        apply (Away _ _ Hin R). congruence. }
      apply (Hnew k); auto.
Qed.

Lemma publishAll_last_only ps : last_only ps (publishAll ps JsMap.empty).
Proof.
  induction ps as [|p ps IH] using rev_ind.
  - split; [apply JsMap.wf_empty|]. split; intros k e [].
  - unfold publishAll. rewrite fold_left_app. simpl. now apply publish_last_only.
Qed.

Lemma stored_alone ps e :
  In e (getEvents (publishAll ps JsMap.empty)) -> replaceable (kind e) = true ->
  (exists p, lastPublishedAt e ps = Some p /\ e = verifiedOf (fst p) (snd p)) /\
  filter (sameAddress e) (getEvents (publishAll ps JsMap.empty)) = [e].
Proof.
  intros Hin R. pose proof (publishAll_last_only ps) as I.
  unfold getEvents, JsMap.values in Hin. apply in_map_iff in Hin.
  destruct Hin as [[k e'] [E Hin]]. simpl in E. subst e'.
  split; [exact (proj2 (proj2 I) k e Hin R)|].
  apply (@filter_single (sameAddress e) _ k e (proj1 I) Hin).
  - now apply sameAddress_address.
  - intros k' e' Hin' S. apply sameAddress_address in S.
    exact (proj1 (@last_only_unique ps _ k e k' e' I Hin Hin' R S)).
Qed.

Lemma published_stored ps p :
  In (verifiedOf (fst p) (snd p)) (getEvents (publishAll (ps ++ [p]) JsMap.empty)).
Proof.
  unfold publishAll. rewrite fold_left_app. simpl. destruct p as [event sk]. simpl.
  unfold publish, getEvents.
  set (v := verifiedOf event sk).
  match goal with |- In v (JsMap.values (JsMap.set _ v ?m)) => generalize m end.
  intros m. change v with (snd (idOf v, v)). apply in_map.
  apply JsMap.get_Some_In, JsMap.get_set_eq.
Qed.

Lemma sameAddress_refl e : sameAddress e e = true.
Proof. now apply sameAddress_address. Qed.

Lemma lastPublishedAt_In e ps q :
  lastPublishedAt e ps = Some q -> In q ps /\ sameAddress e (fst q) = true.
Proof.
  induction ps as [|p ps IH]; simpl; [discriminate|].
  destruct (lastPublishedAt e ps) as [q'|].
  - intros [= <-]. destruct (IH eq_refl). split; [now right | assumption].
  - destruct (sameAddress e (fst p)) eqn:S; [|discriminate].
    intros [= <-]. split; [now left | assumption].
Qed.

(** The ids are those of the events: two publications with the same id
    are the same event. *)
Definition ids_identify (ps : list (Event * option Bytes)) : Prop :=
  forall p q, In p ps -> In q ps ->
    idOf (verifiedOf (fst p) (snd p)) = idOf (verifiedOf (fst q) (snd q)) ->
    verifiedOf (fst p) (snd p) = verifiedOf (fst q) (snd q).

(** The last publication at every address published to is in the
    store, under its id. *)
Definition retained (ps : list (Event * option Bytes)) (events : JsMap.t string Event)
  : Prop :=
  forall p, In p ps -> replaceable (kind (fst p)) = true ->
    exists q, lastPublishedAt (fst p) ps = Some q /\
      JsMap.get (idOf (verifiedOf (fst q) (snd q))) events
        = Some (verifiedOf (fst q) (snd q)).

Lemma publish_retained ps events p :
  ids_identify (ps ++ [p]) -> JsMap.wf events ->
  retained ps events -> retained (ps ++ [p]) (publish events p).
Proof.
  intros Ids W Ret p0 Hin0 R0. rewrite lastPublishedAt_snoc.
  destruct (sameAddress (fst p0) (fst p)) eqn:S.
  - exists p. split; [reflexivity|]. destruct p as [event sk]. unfold publish. simpl.
    apply JsMap.get_set_eq.
  - apply in_app_iff in Hin0. destruct Hin0 as [Hin0|[<-|[]]];
      [|rewrite sameAddress_refl in S; discriminate].
    destruct (Ret p0 Hin0 R0) as [q [N G]]. exists q. split; [exact N|].
    destruct (lastPublishedAt_In _ _ N) as [Hq Sq].
    assert (Far : address (verifiedOf (fst q) (snd q)) <> address (fst p)).
    { rewrite verifiedOf_address. intros A.
      apply sameAddress_address in Sq. rewrite A in Sq.
      apply sameAddress_address in Sq. congruence. }
    destruct p as [event sk]. unfold publish. simpl in *.
    rewrite JsMap.get_set_ne.
    + destruct (replaceable (kind event)); [|exact G].
      destruct (firstAtAddress event events) as [k0|] eqn:F; [|exact G].
      rewrite JsMap.get_delete_ne; [exact G|].
      intros ->. destruct (@firstAtAddress_Some _ _ _ F) as [e0 [Hin A0]].
      apply (JsMap.In_get_wf _ _ W) in Hin. rewrite G in Hin.
      injection Hin as <-. contradiction.
    + intros E. apply Far.
      rewrite <- (verifiedOf_address event sk). f_equal. symmetry.
      apply (Ids (event, sk) q); [apply in_app_iff; right; now left
                                 | apply in_app_iff; now left | exact E].
Qed.

Lemma publishAll_retained ps :
  ids_identify ps -> retained ps (publishAll ps JsMap.empty).
Proof.
  induction ps as [|p ps IH] using rev_ind; intros Ids.
  - intros p [].
  - unfold publishAll. rewrite fold_left_app. simpl.
    apply publish_retained; [assumption | apply publishAll_last_only |].
    apply IH. intros x y Hx Hy. apply Ids; apply in_app_iff; now left.
Qed.

(** C10.  Whatever the sequence of publications, a stored event of a kind
    in 10000..19999 is the publication made last at its (pubkey, kind,
    d-tag), and it is the only stored event there.  After publishing two
    such events with the same pubkey, kind and d-tag, the store holds
    exactly one event at that address, the second, and no longer the first.
    And nothing is lost: when the ids identify the events, the store holds,
    for every such address published to, exactly the event published there
    last. *)
Theorem publish_keeps_last_published (ps : list (Event * option Bytes)) :
  (forall e, In e (getEvents (publishAll ps JsMap.empty)) -> replaceable (kind e) = true ->
     (exists p, lastPublishedAt e ps = Some p /\ e = verifiedOf (fst p) (snd p)) /\
     filter (sameAddress e) (getEvents (publishAll ps JsMap.empty)) = [e]) /\
  (forall first sk1 second sk2,
     replaceable (kind second) = true -> sameAddress first second = true ->
     let events := publishAll (ps ++ [(first, sk1); (second, sk2)]) JsMap.empty in
     filter (sameAddress second) (getEvents events) = [verifiedOf second sk2] /\
     (verifiedOf first sk1 <> verifiedOf second sk2 ->
      ~ In (verifiedOf first sk1) (getEvents events))) /\
  (ids_identify ps ->
   forall p, In p ps -> replaceable (kind (fst p)) = true ->
     exists q, lastPublishedAt (fst p) ps = Some q /\
       filter (sameAddress (fst p)) (getEvents (publishAll ps JsMap.empty))
         = [verifiedOf (fst q) (snd q)]).
Proof.
  split; [intros e; apply stored_alone|]. split.
  - intros first sk1 second sk2 R S events.
    assert (Hin : In (verifiedOf second sk2) (getEvents events)).
    { subst events.
      replace (ps ++ [(first, sk1); (second, sk2)])
        with ((ps ++ [(first, sk1)]) ++ [(second, sk2)]) by (now rewrite <- app_assoc).
      apply (published_stored (ps ++ [(first, sk1)]) (second, sk2)). }
    assert (Rv : replaceable (kind (verifiedOf second sk2)) = true)
      by (now rewrite verifiedOf_kind).
    destruct (stored_alone _ _ Hin Rv) as [_ F].
    assert (F2 : filter (sameAddress second) (getEvents events) = [verifiedOf second sk2]).
    { rewrite <- F. apply filter_ext. intros x. symmetry.
      apply sameAddress_ext, verifiedOf_address. }
    split; [exact F2|]. intros N Hin1.
    assert (In (verifiedOf first sk1) (filter (sameAddress second) (getEvents events))) as Hf.
    { apply filter_In. split; [assumption|].
      apply sameAddress_address. rewrite verifiedOf_address.
      apply sameAddress_address in S. congruence. }
    rewrite F2 in Hf. destruct Hf as [E|[]]. congruence.
  - intros Ids p Hin R.
    destruct (publishAll_retained Ids p Hin R) as [q [N G]]. exists q. split; [exact N|].
    destruct (lastPublishedAt_In _ _ N) as [_ Sq]. apply sameAddress_address in Sq.
    set (v := verifiedOf (fst q) (snd q)) in *.
    assert (A : address v = address (fst p)) by (subst v; now rewrite verifiedOf_address).
    assert (Hv : In v (getEvents (publishAll ps JsMap.empty))).
    { apply JsMap.get_Some_In in G. unfold getEvents, JsMap.values.
      change v with (snd (idOf v, v)). now apply in_map. }
    assert (Rv : replaceable (kind v) = true).
    { injection A as -> _ _. exact R. }
    destruct (stored_alone _ _ Hv Rv) as [_ F]. rewrite <- F.
    apply filter_ext. intros x. apply sameAddress_ext. congruence.
Qed.

End Publish.

(** *** The scenario of the repository's test *)

(** A signer that names the event after its content and leaves the tags. *)
Definition sampleNdk (event : Event) (sk : option Bytes) : NdkEvent :=
  {| ndk_id := "id-" ++ content event; ndk_sig := Some "sig"; ndk_tags := tags event |}.

Definition firstNote : Event :=
  {| id := None; pubkey := "alice"; created_at := 1; kind := 10078;
     tags := [["d"; "test"]]; content := "first"; sig := None |}.

Definition secondNote : Event :=
  {| id := None; pubkey := "alice"; created_at := 2; kind := 10078;
     tags := [["d"; "test"]]; content := "second"; sig := None |}.

(** A note at another address, and one publication after another. *)
Definition otherNote : Event :=
  {| id := None; pubkey := "alice"; created_at := 3; kind := 10078;
     tags := [["d"; "other"]]; content := "other"; sig := None |}.

Definition publications : list (Event * option Bytes) :=
  [(firstNote, None); (otherNote, None); (secondNote, None)].

(** "Keeps the newest", the newest read off [created_at]: no publication
    at the address of a stored event of a kind in 10000..19999 is newer
    than it. *)
Definition newest_by_created_at (ndk : Event -> option Bytes -> NdkEvent)
  (ps : list (Event * option Bytes)) : Prop :=
  forall e, In e (getEvents (publishAll ndk ps JsMap.empty)) ->
    replaceable (kind e) = true ->
    forall p, In p ps -> sameAddress e (fst p) = true ->
      (created_at (fst p) <= created_at e)%Z.

(** Two events signed elsewhere that carry the same id, at two
    addresses. *)
Definition signedOne : Event :=
  {| id := Some "x"; pubkey := "alice"; created_at := 1; kind := 10078;
     tags := [["d"; "one"]]; content := "one"; sig := Some "sig" |}.

Definition signedTwo : Event :=
  {| id := Some "x"; pubkey := "alice"; created_at := 2; kind := 10078;
     tags := [["d"; "two"]]; content := "two"; sig := Some "sig" |}.

(** C10, as stated, fails when the newer event is published first: the
    store keeps the event published last, which is the older one.  And the
    store is keyed by the id: an event with the id of a stored event takes
    its place, also at another address, which then holds no event. *)
Lemma publish_newest_counterexample :
  getEvents (publishAll sampleNdk [(secondNote, None); (firstNote, None)] JsMap.empty)
    = [verifiedOf sampleNdk firstNote None] /\
  (created_at firstNote < created_at secondNote)%Z /\
  ~ newest_by_created_at sampleNdk [(secondNote, None); (firstNote, None)] /\
  getEvents (publishAll sampleNdk [(signedOne, None); (signedTwo, None)] JsMap.empty)
    = [signedTwo] /\
  sameAddress signedOne signedTwo = false.
Proof.
  split; [reflexivity|]. split; [reflexivity|]. split; [|split; reflexivity]. intros H.
  specialize (H (verifiedOf sampleNdk firstNote None) (or_introl eq_refl) eq_refl
                (secondNote, None) (or_introl eq_refl) eq_refl).
  simpl in H. lia.
Qed.

Lemma publish_keeps_last_published_witness :
  getEvents (publishAll sampleNdk [(firstNote, None); (secondNote, None)] JsMap.empty)
    = [verifiedOf sampleNdk secondNote None] /\
  filter (sameAddress secondNote)
    (getEvents (publishAll sampleNdk [(firstNote, None); (secondNote, None)] JsMap.empty))
    = [verifiedOf sampleNdk secondNote None] /\
  filter (sameAddress firstNote) (getEvents (publishAll sampleNdk publications JsMap.empty))
    = [verifiedOf sampleNdk secondNote None] /\
  filter (sameAddress otherNote) (getEvents (publishAll sampleNdk publications JsMap.empty))
    = [verifiedOf sampleNdk otherNote None].
Proof.
  split; [reflexivity|]. split.
  - refine (proj1 (proj1 (proj2 (@publish_keeps_last_published sampleNdk (fun _ _ => eq_refl) []))
                     firstNote None secondNote None _ _)); reflexivity.
  - assert (Ids : ids_identify sampleNdk publications).
    { intros p q Hp Hq. simpl in Hp, Hq.
      destruct Hp as [<-|[<-|[<-|[]]]], Hq as [<-|[<-|[<-|[]]]];
        solve [reflexivity | discriminate]. }
    pose proof (proj2 (proj2 (@publish_keeps_last_published sampleNdk (fun _ _ => eq_refl)
                                publications)) Ids) as H.
    split.
    + destruct (H (firstNote, None) (or_introl eq_refl) eq_refl) as [q [N F]].
      injection N as <-. exact F.
    + destruct (H (otherNote, None) (or_intror (or_introl eq_refl)) eq_refl) as [q [N F]].
      injection N as <-. exact F.
Defined.

End ControllableRelay.

(** ** inviteUtils.ts *)

Module InviteUtils.

Definition Bytes := list Byte.byte.

(** JSON values as this code meets them: objects with string and number
    fields, other non-null values, and [null]. *)
Inductive jvalue :=
| JStr (s : string)
| JNum (n : Z).

Inductive json :=
| JObject (fields : list (string * jvalue))
| JPrimitive (v : jvalue)
| JNull.

(** [x.name]: [Some None] is [undefined]; on [null] the read throws
    ([None]). *)
Definition prop (name : string) (x : json) : option (option jvalue) :=
  match x with
  | JObject fields => Some (JsMap.get name fields)
  | JPrimitive _ => Some None
  | JNull => None
  end.

(** A value passed where the library wants a string. *)
Definition asString (v : option jvalue) : option string :=
  match v with
  | Some (JStr s) => Some s
  | _ => None
  end.

(** [JSON.stringify] drops the properties that are [undefined]. *)
Definition optField (name : string) (v : option string) : list (string * jvalue) :=
  match v with
  | Some s => [(name, JStr s)]
  | None => []
  end.

(** The primitives of nostr-tools and noble, and [JSON].  A [None] result
    is a thrown exception.  [nip44.encrypt] draws a random nonce, passed
    here as its third argument. *)
Record Primitives := {
  getPublicKey : Bytes -> string;
  getConversationKey : Bytes -> string -> option Bytes;
  nip44_encrypt : string -> Bytes -> Bytes -> option string;
  nip44_decrypt : string -> Bytes -> option string;
  hexToBytes : string -> option Bytes;
  JSON_stringify : json -> string;
  JSON_parse : string -> option json;
  getEventHash : Event -> string;
  schnorrSign : Bytes -> string -> string;
  INVITE_RESPONSE_KIND : Z
}.

(** What the collaborators are assumed to satisfy: ECDH is symmetric, a
    ciphertext decrypts under its key, JSON text parses back. *)
Record Laws (P : Primitives) : Prop := {
  conversation_symmetric : forall a b,
    getConversationKey P a (getPublicKey P b) = getConversationKey P b (getPublicKey P a);
  nip44_roundtrip : forall m k n c,
    nip44_encrypt P m k n = Some c -> nip44_decrypt P c k = Some m;
  JSON_roundtrip : forall j, JSON_parse P (JSON_stringify P j) = Some j
}.

(** The values drawn at run time by one call of [encryptInviteResponse]. *)
Record Entropy := {
  now_ms : Z;
  randomNow : Z;
  randomSenderKey : Bytes;
  nonce1 : Bytes;
  nonce2 : Bytes;
  nonce3 : Bytes
}.

Record EncryptInviteResponseParams := {
  inviteeSessionPublicKey : string;
  inviteePublicKey : string;
  inviteePrivateKey : Bytes;
  inviterPublicKey : string;
  inviterEphemeralPublicKey : string;
  sharedSecret : string;
  deviceId : option string
}.

Record DecryptInviteResponseParams := {
  event : Event;
  inviterEphemeralPrivateKey : Bytes;
  inviterPrivateKey : Bytes;
  d_sharedSecret : string
}.

Record DecryptInviteResponseResult := {
  r_inviteePublicKey : string;
  r_sessionKey : option jvalue;
  r_deviceId : option jvalue
}.

Definition bind {A B} (o : option A) (f : A -> option B) : option B :=
  match o with Some a => f a | None => None end.

Notation "x <- o ;; k" := (bind o (fun x => k))
  (at level 61, o at next level, right associativity).

Section Codec.

Variable P : Primitives.

(** [finalizeEvent(template, secretKey)]: sets the pubkey of the signer,
    the id and the signature. *)
Definition finalizeEvent (k : Z) (c : string) (t : Z) (tgs : list (list string))
  (secretKey : Bytes) : Event :=
  let unsigned := {| id := None; pubkey := getPublicKey P secretKey; created_at := t;
                     kind := k; tags := tgs; content := c; sig := None |} in
  {| id := Some (getEventHash P unsigned); pubkey := getPublicKey P secretKey;
     created_at := t; kind := k; tags := tgs; content := c;
     sig := Some (schnorrSign P secretKey (getEventHash P unsigned)) |}.

Definition encryptInviteResponse (params : EncryptInviteResponseParams) (rnd : Entropy)
  : option Event :=
  sharedSecretBytes <- hexToBytes P (sharedSecret params) ;;
  let payload := JSON_stringify P
                   (JObject (("sessionKey", JStr (inviteeSessionPublicKey params))
                             :: optField "deviceId" (deviceId params))) in
  dhKey <- getConversationKey P (inviteePrivateKey params) (inviterPublicKey params) ;;
  dhEncrypted <- nip44_encrypt P payload dhKey (nonce1 rnd) ;;
  innerContent <- nip44_encrypt P dhEncrypted sharedSecretBytes (nonce2 rnd) ;;
  let innerJson := JSON_stringify P
                     (JObject [("pubkey", JStr (inviteePublicKey params));
                               ("content", JStr innerContent);
                               ("created_at", JNum (now_ms rnd / 1000))]) in
  envelopeKey <- getConversationKey P (randomSenderKey rnd) (inviterEphemeralPublicKey params) ;;
  envelopeContent <- nip44_encrypt P innerJson envelopeKey (nonce3 rnd) ;;
  Some (finalizeEvent (INVITE_RESPONSE_KIND P) envelopeContent (randomNow rnd)
          [["p"; inviterEphemeralPublicKey params]] (randomSenderKey rnd)).

Definition decryptInviteResponse (params : DecryptInviteResponseParams)
  : option DecryptInviteResponseResult :=
  sharedSecretBytes <- hexToBytes P (d_sharedSecret params) ;;
  envelopeKey <- getConversationKey P (inviterEphemeralPrivateKey params)
                   (pubkey (event params)) ;;
  decrypted <- nip44_decrypt P (content (event params)) envelopeKey ;;
  innerEvent <- JSON_parse P decrypted ;;
  innerPubkey <- prop "pubkey" innerEvent ;;
  innerContent <- prop "content" innerEvent ;;
  innerContentStr <- asString innerContent ;;
  dhEncrypted <- nip44_decrypt P innerContentStr sharedSecretBytes ;;
  inviteePublicKey <- asString innerPubkey ;;
  dhKey <- getConversationKey P (inviterPrivateKey params) inviteePublicKey ;;
  decryptedPayload <- nip44_decrypt P dhEncrypted dhKey ;;
  match bind (JSON_parse P decryptedPayload)
             (fun parsed => sk <- prop "sessionKey" parsed ;;
                            dev <- prop "deviceId" parsed ;;
                            Some (sk, dev)) with
  | Some (sk, dev) =>
    Some {| r_inviteePublicKey := inviteePublicKey; r_sessionKey := sk; r_deviceId := dev |}
  | None =>
    Some {| r_inviteePublicKey := inviteePublicKey;
            r_sessionKey := Some (JStr decryptedPayload); r_deviceId := None |}
  end.

Hypothesis L : Laws P.

(** C5.  The event that [encryptInviteResponse] makes for an invitee
    identity key pair, an inviter identity key pair and an inviter ephemeral
    key pair decrypts, under the inviter's ephemeral and identity private
    keys and the same shared secret, to the invitee's public key, the
    session key and the device id (or none) that went in. *)
Theorem decrypt_encrypt_invite_response
  (params : EncryptInviteResponseParams) (rnd : Entropy)
  (inviterEphemeralPriv inviterPriv : Bytes) (ev : Event) :
  inviteePublicKey params = getPublicKey P (inviteePrivateKey params) ->
  inviterPublicKey params = getPublicKey P inviterPriv ->
  inviterEphemeralPublicKey params = getPublicKey P inviterEphemeralPriv ->
  encryptInviteResponse params rnd = Some ev ->
  decryptInviteResponse
    {| event := ev; inviterEphemeralPrivateKey := inviterEphemeralPriv;
       inviterPrivateKey := inviterPriv; d_sharedSecret := sharedSecret params |}
  = Some {| r_inviteePublicKey := inviteePublicKey params;
            r_sessionKey := Some (JStr (inviteeSessionPublicKey params));
            r_deviceId := option_map JStr (deviceId params) |}.
Proof.
  intros Hinvitee Hinviter Heph Henc.
  unfold encryptInviteResponse in Henc. unfold decryptInviteResponse. simpl.
  destruct (hexToBytes P (sharedSecret params)) as [ss|] eqn:Hss; [simpl in *|discriminate].
  destruct (getConversationKey P (inviteePrivateKey params) (inviterPublicKey params))
    as [dhKey|] eqn:Hdh; [simpl in Henc|discriminate].
  destruct (nip44_encrypt P _ dhKey (nonce1 rnd)) as [dhEncrypted|] eqn:E1;
    [simpl in Henc|discriminate].
  destruct (nip44_encrypt P dhEncrypted ss (nonce2 rnd)) as [innerContent|] eqn:E2;
    [simpl in Henc|discriminate].
  destruct (getConversationKey P (randomSenderKey rnd) (inviterEphemeralPublicKey params))
    as [envKey|] eqn:Henv; [simpl in Henc|discriminate].
  destruct (nip44_encrypt P _ envKey (nonce3 rnd)) as [envContent|] eqn:E3;
    [simpl in Henc|discriminate].
  injection Henc as <-. simpl.
  rewrite (conversation_symmetric L), <- Heph, Henv. simpl.
  rewrite (nip44_roundtrip L _ _ _ E3). simpl.
  rewrite (JSON_roundtrip L). simpl.
  rewrite (nip44_roundtrip L _ _ _ E2). simpl.
  rewrite Hinvitee, (conversation_symmetric L), <- Hinviter, Hdh. simpl.
  rewrite (nip44_roundtrip L _ _ _ E1). simpl.
  rewrite (JSON_roundtrip L). simpl.
  destruct (deviceId params); reflexivity.
Qed.

End Codec.

(** *** A model of the primitives

    Enough to run the code: the public key spells the private key, the
    conversation key is the bytewise exclusive or, a ciphertext is the
    plaintext behind its key, and JSON text is length-framed. *)

Module Sample.

Fixpoint ones (n : nat) : string :=
  match n with
  | O => EmptyString
  | S n' => String "1"%char (ones n')
  end.

Definition frame (s : string) : string := ones (String.length s) ++ String "0"%char s.

Fixpoint take (n : nat) (s : string) : option (string * string) :=
  match n, s with
  | O, _ => Some (EmptyString, s)
  | S n', String c r =>
    match take n' r with
    | Some (a, b) => Some (String c a, b)
    | None => None
    end
  | S _, EmptyString => None
  end.

Fixpoint unframe_from (n : nat) (s : string) : option (string * string) :=
  match s with
  | String c r =>
    if Ascii.eqb c "1"%char then unframe_from (S n) r
    else if Ascii.eqb c "0"%char then take n r
    else None
  | EmptyString => None
  end.

Definition unframe (s : string) : option (string * string) := unframe_from 0 s.

Definition encodeValue (v : jvalue) : string :=
  match v with
  | JStr s => String "s"%char (frame s)
  | JNum n => String "n"%char (frame (DecimalString.NilEmpty.string_of_int (Z.to_int n)))
  end.

Definition decodeValue (s : string) : option (jvalue * string) :=
  match s with
  | String c r =>
    if Ascii.eqb c "s"%char then
      match unframe r with Some (a, rest) => Some (JStr a, rest) | None => None end
    else if Ascii.eqb c "n"%char then
      match unframe r with
      | Some (a, rest) =>
        match DecimalString.NilEmpty.int_of_string a with
        | Some d => Some (JNum (Z.of_int d), rest)
        | None => None
        end
      | None => None
      end
    else None
  | EmptyString => None
  end.

Fixpoint encodeFields (fs : list (string * jvalue)) : string :=
  match fs with
  | [] => "."
  | (k, v) :: rest => String ","%char (frame k ++ encodeValue v ++ encodeFields rest)
  end.

Fixpoint decodeFields (fuel : nat) (s : string) : option (list (string * jvalue)) :=
  match fuel with
  | O => None
  | S fuel' =>
    match s with
    | String c r =>
      if Ascii.eqb c "."%char then (if String.eqb r "" then Some [] else None)
      else if Ascii.eqb c ","%char then
        match unframe r with
        | Some (k, r1) =>
          match decodeValue r1 with
          | Some (v, r2) =>
            match decodeFields fuel' r2 with
            | Some fs => Some ((k, v) :: fs)
            | None => None
            end
          | None => None
          end
        | None => None
        end
      else None
    | EmptyString => None
    end
  end.

Definition stringify (j : json) : string :=
  match j with
  | JObject fs => String "o"%char (encodeFields fs)
  | JPrimitive v => String "p"%char (encodeValue v)
  | JNull => "z"
  end.

Definition parse (s : string) : option json :=
  match s with
  | String c r =>
    if Ascii.eqb c "o"%char then option_map JObject (decodeFields (S (String.length r)) r)
    else if Ascii.eqb c "p"%char then
      match decodeValue r with
      | Some (v, rest) => if String.eqb rest "" then Some (JPrimitive v) else None
      | None => None
      end
    else if Ascii.eqb c "z"%char then (if String.eqb r "" then Some JNull else None)
    else None
  | EmptyString => None
  end.

Definition xorByte (a b : Byte.byte) : Byte.byte :=
  match Byte.of_N (N.lxor (Byte.to_N a) (Byte.to_N b)) with
  | Some c => c
  | None => Byte.x00
  end.

Fixpoint xorBytes (a b : Bytes) : Bytes :=
  match a, b with
  | x :: a', y :: b' => xorByte x y :: xorBytes a' b'
  | _, _ => []
  end.

Fixpoint stripPrefix (p s : string) : option string :=
  match p, s with
  | EmptyString, _ => Some s
  | String a p', String b s' => if Ascii.eqb a b then stripPrefix p' s' else None
  | String _ _, EmptyString => None
  end.

Definition keyText (k : Bytes) : string := frame (string_of_list_byte k).

Definition primitives : Primitives :=
  {| getPublicKey := string_of_list_byte;
     getConversationKey := fun a B => Some (xorBytes a (list_byte_of_string B));
     nip44_encrypt := fun m k n => Some (keyText k ++ m)%string;
     nip44_decrypt := fun c k => stripPrefix (keyText k) c;
     hexToBytes := fun s => Some (list_byte_of_string s);
     JSON_stringify := stringify;
     JSON_parse := parse;
     getEventHash := fun e => ("hash-of-" ++ content e)%string;
     schnorrSign := fun k h => ("sig-on-" ++ h)%string;
     INVITE_RESPONSE_KIND := 1059 |}.

Lemma sapp_assoc (a b c : string) : ((a ++ b) ++ c = a ++ (b ++ c))%string.
Proof. induction a as [|x a IH]; simpl; [reflexivity | now rewrite IH]. Qed.

Lemma sapp_nil_r (a : string) : (a ++ "" = a)%string.
Proof. induction a as [|x a IH]; simpl; [reflexivity | now rewrite IH]. Qed.

Lemma sapp_length (a b : string) :
  String.length (a ++ b) = String.length a + String.length b.
Proof. induction a as [|x a IH]; simpl; [reflexivity | now rewrite IH]. Qed.

Lemma take_app (a b : string) : take (String.length a) (a ++ b) = Some (a, b).
Proof. induction a as [|x a IH]; simpl; [reflexivity | now rewrite IH]. Qed.

Lemma unframe_from_ones n k r :
  unframe_from n (ones k ++ String "0"%char r) = take (n + k) r.
Proof.
  revert n. induction k as [|k IH]; intros n; simpl.
  - now rewrite Nat.add_0_r.
  - rewrite IH. f_equal. lia.
Qed.

Lemma unframe_frame a b : unframe (frame a ++ b) = Some (a, b).
Proof.
  unfold unframe, frame. rewrite sapp_assoc. simpl.
  rewrite unframe_from_ones. simpl. apply take_app.
Qed.

Lemma decodeValue_encode v r : decodeValue (encodeValue v ++ r) = Some (v, r).
Proof.
  destruct v as [s0|n]; simpl; rewrite unframe_frame.
  - reflexivity.
  - rewrite DecimalString.NilEmpty.isi, DecimalZ.of_to. reflexivity.
Qed.

Lemma decodeFields_encode fs : forall fuel,
  length fs < fuel -> decodeFields fuel (encodeFields fs) = Some fs.
Proof.
  induction fs as [|[k v] fs IH]; intros fuel Hlt.
  - destruct fuel; [lia|]. reflexivity.
  - destruct fuel; [simpl in Hlt; lia|].
    change (decodeFields (S fuel) (encodeFields ((k, v) :: fs)))
      with (match unframe (frame k ++ encodeValue v ++ encodeFields fs) with
            | Some (k0, r1) =>
              match decodeValue r1 with
              | Some (v0, r2) =>
                match decodeFields fuel r2 with
                | Some fs0 => Some ((k0, v0) :: fs0)
                | None => None
                end
              | None => None
              end
            | None => None
            end).
    rewrite unframe_frame. cbv beta iota.
    rewrite decodeValue_encode. cbv beta iota.
    rewrite IH by (simpl in Hlt; lia). reflexivity.
Qed.

Lemma encodeFields_length fs : length fs < S (String.length (encodeFields fs)).
Proof.
  induction fs as [|[k v] fs IH]; simpl; [lia|].
  rewrite !sapp_length. lia.
Qed.

Lemma parse_stringify j : parse (stringify j) = Some j.
Proof.
  destruct j as [fs|v|]; cbn -[decodeFields].
  - now rewrite decodeFields_encode by apply encodeFields_length.
  - rewrite <- (sapp_nil_r (encodeValue v)), decodeValue_encode. reflexivity.
  - reflexivity.
Qed.

Lemma xorBytes_comm a : forall b, xorBytes a b = xorBytes b a.
Proof.
  induction a as [|x a IH]; intros [|y b]; simpl; try reflexivity.
  unfold xorByte. now rewrite N.lxor_comm, IH.
Qed.

Lemma stripPrefix_app p m : stripPrefix p (p ++ m) = Some m.
Proof.
  induction p as [|x p IH]; simpl; [reflexivity|].
  now rewrite Ascii.eqb_refl.
Qed.

Lemma sample_laws : Laws primitives.
Proof.
  constructor; simpl.
  - intros a b. now rewrite !list_byte_of_string_of_list_byte, xorBytes_comm.
  - intros m k n c [= <-]. apply stripPrefix_app.
  - apply parse_stringify.
Qed.

(** A response of invitee key [x01 x02] to the invite of inviter key
    [x03 x04] with ephemeral key [x05 x06]. *)
Definition inviteePriv : Bytes := [Byte.x01; Byte.x02].
Definition inviterPriv : Bytes := [Byte.x03; Byte.x04].
Definition inviterEphemeralPriv : Bytes := [Byte.x05; Byte.x06].
Definition sessionPriv : Bytes := [Byte.x07; Byte.x08].

Definition responseParams (dev : option string) : EncryptInviteResponseParams :=
  {| inviteeSessionPublicKey := getPublicKey primitives sessionPriv;
     inviteePublicKey := getPublicKey primitives inviteePriv;
     inviteePrivateKey := inviteePriv;
     inviterPublicKey := getPublicKey primitives inviterPriv;
     inviterEphemeralPublicKey := getPublicKey primitives inviterEphemeralPriv;
     sharedSecret := "0a0b";
     deviceId := dev |}.

Definition entropy : Entropy :=
  {| now_ms := 1700000000123; randomNow := 1699990000;
     randomSenderKey := [Byte.x09; Byte.x0a];
     nonce1 := [Byte.x11]; nonce2 := [Byte.x12]; nonce3 := [Byte.x13] |}.

Definition responseEvent (dev : option string) : Event :=
  match encryptInviteResponse primitives (responseParams dev) entropy with
  | Some e => e
  | None => {| id := None; pubkey := ""; created_at := 0; kind := 0; tags := [];
               content := ""; sig := None |}
  end.

End Sample.

Lemma decrypt_encrypt_invite_response_witness :
  encryptInviteResponse Sample.primitives (Sample.responseParams (Some "test-device-123"))
    Sample.entropy = Some (Sample.responseEvent (Some "test-device-123")) /\
  decryptInviteResponse Sample.primitives
    {| event := Sample.responseEvent (Some "test-device-123");
       inviterEphemeralPrivateKey := Sample.inviterEphemeralPriv;
       inviterPrivateKey := Sample.inviterPriv; d_sharedSecret := "0a0b" |}
  = Some {| r_inviteePublicKey := getPublicKey Sample.primitives Sample.inviteePriv;
            r_sessionKey := Some (JStr (getPublicKey Sample.primitives Sample.sessionPriv));
            r_deviceId := Some (JStr "test-device-123") |}.
Proof.
  split; [reflexivity|].
  apply (@decrypt_encrypt_invite_response Sample.primitives Sample.sample_laws
           (Sample.responseParams (Some "test-device-123")) Sample.entropy
           Sample.inviterEphemeralPriv Sample.inviterPriv); reflexivity.
Defined.

End InviteUtils.

(** ** Invite.ts: [listen] *)

Module Invite.

Definition Bytes := InviteUtils.Bytes.

(** [decryptor: Uint8Array | DecryptFunction].  A decrypt function gets the
    ciphertext and the invitee's pubkey; it is taken to reject ([None]) a
    pubkey that is not a string. *)
Inductive Decryptor :=
| KeyDecryptor (key : Bytes)
| FnDecryptor (decrypt : string -> string -> option string).

Record Invite := {
  inviterEphemeralPublicKey : string;
  sharedSecret : string;
  inviter : string;
  inviterEphemeralPrivateKey : option Bytes;
  deviceId : option string;
  maxUses : option Z;
  usedBy : list string;
  createdAt : Z
}.

Definition push_usedBy (i : Invite) (inviteeIdentity : string) : Invite :=
  {| inviterEphemeralPublicKey := inviterEphemeralPublicKey i;
     sharedSecret := sharedSecret i; inviter := inviter i;
     inviterEphemeralPrivateKey := inviterEphemeralPrivateKey i;
     deviceId := deviceId i; maxUses := maxUses i;
     usedBy := usedBy i ++ [inviteeIdentity]; createdAt := createdAt i |}.

(** [this.maxUses && this.usedBy.length >= this.maxUses]: a [maxUses] that
    is [undefined] or [0] is falsy. *)
Definition usedUp (i : Invite) : bool :=
  match maxUses i with
  | None => false
  | Some m => negb (m =? 0)%Z && (Z.of_nat (length (usedBy i)) >=? m)%Z
  end.

Section Listen.

Variable P : InviteUtils.Primitives.

(** [Session.init(nostrSubscribe, theirEphemeralPublicKey, ourPrivateKey,
    isInitiator, sharedSecret, name)], of Session.ts, as a parameter: the
    session it returns, or [None] when it throws. *)
Variable Session : Type.
Variable Session_init :
  option InviteUtils.jvalue -> Bytes -> bool -> Bytes -> option string -> option Session.

(** inviteUtils.ts, [createSessionFromAccept] with [ourKeyPair] given. *)
Definition createSessionFromAccept (theirEphemeralPublicKey : option InviteUtils.jvalue)
  (sharedSecret : string) (isInitiator : bool) (ourPrivateKey : Bytes)
  (sessionName : option string) : option Session :=
  match InviteUtils.hexToBytes P sharedSecret with
  | Some sharedSecretBytes =>
    Session_init theirEphemeralPublicKey ourPrivateKey isInitiator sharedSecretBytes sessionName
  | None => None
  end.

(** What a handler holds when it is suspended at its [await]: the event
    and what the decryption resolved to. *)
Record Pending := {
  p_event : Event;
  p_identity : string;
  p_sessionKey : option InviteUtils.jvalue;
  p_deviceId : option InviteUtils.jvalue
}.

(** One call of [onSession(session, identity, deviceId)], with the event
    it answers. *)
Record OnSessionCall := {
  c_event : Event;
  c_session : Session;
  c_identity : string;
  c_deviceId : option InviteUtils.jvalue
}.

(** The invite, the handlers in flight and the calls of [onSession] so
    far. *)
Record World := {
  invite : Invite;
  pending : list Pending;
  calls : list OnSessionCall
}.

(** The part of the handler before [push]: both branches of
    [typeof decryptor === 'function'].  [None] is an exception, swallowed by
    the handler's [catch]. *)
Definition decryptResponse (i : Invite) (priv : Bytes) (decryptor : Decryptor) (ev : Event)
  : option (string * option InviteUtils.jvalue * option InviteUtils.jvalue) :=
  match decryptor with
  | KeyDecryptor key =>
    match InviteUtils.decryptInviteResponse P
            {| InviteUtils.event := ev;
               InviteUtils.inviterEphemeralPrivateKey := priv;
               InviteUtils.inviterPrivateKey := key;
               InviteUtils.d_sharedSecret := sharedSecret i |} with
    | Some r => Some (InviteUtils.r_inviteePublicKey r, InviteUtils.r_sessionKey r,
                      InviteUtils.r_deviceId r)
    | None => None
    end
  | FnDecryptor decrypt =>
    InviteUtils.bind (InviteUtils.getConversationKey P priv (pubkey ev)) (fun envelopeKey =>
    InviteUtils.bind (InviteUtils.nip44_decrypt P (content ev) envelopeKey) (fun decrypted =>
    InviteUtils.bind (InviteUtils.JSON_parse P decrypted) (fun innerEvent =>
    InviteUtils.bind (InviteUtils.hexToBytes P (sharedSecret i)) (fun sharedSecretBytes =>
    InviteUtils.bind (InviteUtils.prop "pubkey" innerEvent) (fun innerPubkey =>
    InviteUtils.bind (InviteUtils.prop "content" innerEvent) (fun innerContent =>
    InviteUtils.bind (InviteUtils.asString innerContent) (fun innerContentStr =>
    InviteUtils.bind (InviteUtils.nip44_decrypt P innerContentStr sharedSecretBytes)
      (fun dhEncrypted =>
    InviteUtils.bind (InviteUtils.asString innerPubkey) (fun inviteeIdentity =>
    InviteUtils.bind (decrypt dhEncrypted inviteeIdentity) (fun decryptedPayload =>
    match InviteUtils.bind (InviteUtils.JSON_parse P decryptedPayload)
            (fun parsed =>
               InviteUtils.bind (InviteUtils.prop "sessionKey" parsed) (fun sk =>
               InviteUtils.bind (InviteUtils.prop "deviceId" parsed) (fun dev =>
               Some (sk, dev)))) with
    | Some (sk, dev) => Some (inviteeIdentity, sk, dev)
    | None => Some (inviteeIdentity, Some (InviteUtils.JStr decryptedPayload), None)
    end))))))))))
  end.

(** The subscription delivers [ev]: the handler runs up to its [await]. *)
Definition deliver (decryptor : Decryptor) (w : World) (ev : Event) : World :=
  if usedUp (invite w) then w
  else
    match inviterEphemeralPrivateKey (invite w) with
    | None => w
    | Some priv =>
      match decryptResponse (invite w) priv decryptor ev with
      | Some (inviteeIdentity, sk, dev) =>
        {| invite := invite w;
           pending := pending w ++ [{| p_event := ev; p_identity := inviteeIdentity;
                                       p_sessionKey := sk; p_deviceId := dev |}];
           calls := calls w |}
      | None => w
      end
    end.

Fixpoint remove_nth {A} (n : nat) (l : list A) : list A :=
  match n, l with
  | O, _ :: r => r
  | S n', x :: r => x :: remove_nth n' r
  | _, [] => []
  end.

(** The handler numbered [n] among those in flight resumes after its
    [await]: [usedBy.push], [createSessionFromAccept], [onSession]. *)
Definition resume (w : World) (n : nat) : World :=
  match nth_error (pending w) n with
  | None => w
  | Some p =>
    let i := push_usedBy (invite w) (p_identity p) in
    let rest := remove_nth n (pending w) in
    match inviterEphemeralPrivateKey (invite w) with
    | None => {| invite := i; pending := rest; calls := calls w |}
    | Some priv =>
      match createSessionFromAccept (p_sessionKey p) (sharedSecret (invite w)) false priv
              (id (p_event p)) with
      | Some session =>
        {| invite := i; pending := rest;
           calls := calls w ++ [{| c_event := p_event p; c_session := session;
                                   c_identity := p_identity p;
                                   c_deviceId := p_deviceId p |}] |}
      | None => {| invite := i; pending := rest; calls := calls w |}
      end
    end
  end.

Inductive Step :=
| Deliver (ev : Event)
| Resume (n : nat).

Definition step (decryptor : Decryptor) (w : World) (s : Step) : World :=
  match s with
  | Deliver ev => deliver decryptor w ev
  | Resume n => resume w n
  end.

Definition run (decryptor : Decryptor) (steps : list Step) (w : World) : World :=
  fold_left (step decryptor) steps w.

(** [listen]: throws without the ephemeral private key, else subscribes. *)
Definition listen (i : Invite) : option World :=
  match inviterEphemeralPrivateKey i with
  | None => None
  | Some _ => Some {| invite := i; pending := []; calls := [] |}
  end.

Lemma deliver_usedUp decryptor w ev :
  usedUp (invite w) = true -> deliver decryptor w ev = w.
Proof. intros U. unfold deliver. now rewrite U. Qed.

Lemma usedUp_push i x : usedUp i = true -> usedUp (push_usedBy i x) = true.
Proof.
  unfold usedUp, push_usedBy. simpl. destruct (maxUses i) as [m|]; [|discriminate].
  rewrite !andb_true_iff, length_app. simpl. intros [H1 H2]. split; [assumption|].
  apply Z.geb_le. apply Z.geb_le in H2. lia.
Qed.

Lemma invite_resume w n :
  invite (resume w n) = invite w \/
  exists p, invite (resume w n) = push_usedBy (invite w) (p_identity p).
Proof.
  unfold resume. destruct (nth_error (pending w) n) as [p|]; [|now left].
  right. exists p.
  destruct (inviterEphemeralPrivateKey (invite w)); [|reflexivity].
  destruct (createSessionFromAccept _ _ _ _ _); reflexivity.
Qed.

Lemma resume_usedUp w n : usedUp (invite w) = true -> usedUp (invite (resume w n)) = true.
Proof.
  intros U. destruct (invite_resume w n) as [->|[p ->]]; [assumption | now apply usedUp_push].
Qed.

Lemma In_remove_nth {A} (x : A) n l : In x (remove_nth n l) -> In x l.
Proof.
  revert n. induction l as [|y l IH]; intros [|n]; simpl; try tauto.
  intros [E|Hin]; [now left | right; eauto].
Qed.

Lemma resume_pending w n p : In p (pending (resume w n)) -> In p (pending w).
Proof.
  unfold resume. destruct (nth_error (pending w) n) as [q|]; [|tauto].
  assert (forall W, pending W = remove_nth n (pending w) -> In p (pending W) -> In p (pending w))
    as H by (intros W -> Hin; eapply In_remove_nth; eauto).
  destruct (inviterEphemeralPrivateKey (invite w)); [|apply H; reflexivity].
  destruct (createSessionFromAccept _ _ _ _ _); apply H; reflexivity.
Qed.

Lemma resume_calls w n c :
  In c (calls (resume w n)) ->
  In c (calls w) \/ In (c_event c) (map p_event (pending w)).
Proof.
  unfold resume. destruct (nth_error (pending w) n) as [q|] eqn:N; [|now left].
  destruct (inviterEphemeralPrivateKey (invite w)); [|now left].
  destruct (createSessionFromAccept _ _ _ _ _); [|now left].
  simpl. rewrite in_app_iff. intros [Hin|[<-|[]]]; [now left|].
  right. simpl. apply in_map. eapply nth_error_In; eauto.
Qed.

Lemma step_usedUp decryptor w s :
  usedUp (invite w) = true ->
  usedUp (invite (step decryptor w s)) = true /\
  (forall p, In p (pending (step decryptor w s)) -> In p (pending w)) /\
  (forall c, In c (calls (step decryptor w s)) ->
     In c (calls w) \/ In (c_event c) (map p_event (pending w))).
Proof.
  intros U. destruct s as [ev|n]; simpl.
  - rewrite (deliver_usedUp _ _ _ U). auto.
  - split; [now apply resume_usedUp|]. split; [apply resume_pending | apply resume_calls].
Qed.

Lemma run_usedUp decryptor steps : forall w,
  usedUp (invite w) = true ->
  usedUp (invite (run decryptor steps w)) = true /\
  (forall p, In p (pending (run decryptor steps w)) -> In p (pending w)) /\
  (forall c, In c (calls (run decryptor steps w)) ->
     In c (calls w) \/ In (c_event c) (map p_event (pending w))).
Proof.
  induction steps as [|s steps IH]; intros w U; simpl; [auto|].
  destruct (step_usedUp decryptor w s U) as (U1 & P1 & C1).
  destruct (IH _ U1) as (U2 & P2 & C2).
  split; [assumption|]. split; [auto|].
  intros c Hin. destruct (C2 c Hin) as [H|H]; [auto|].
  right. apply in_map_iff in H. destruct H as [p [E Hp]]. rewrite <- E.
  apply in_map. auto.
Qed.

Lemma run_idle decryptor steps : forall w,
  usedUp (invite w) = true -> pending w = [] -> run decryptor steps w = w.
Proof.
  induction steps as [|s steps IH]; intros w U E; simpl; [reflexivity|].
  assert (step decryptor w s = w) as ->; [|now apply IH].
  destruct s as [ev|n]; simpl; [now apply deliver_usedUp|].
  unfold resume. rewrite E. now destruct n.
Qed.

(** C7, amended.  Once [usedBy] holds at least [maxUses] entries, for a
    [maxUses] that is set and not 0: a response that the subscription
    delivers leaves the invite, the handlers in flight and the calls of
    [onSession] as they are (nothing is raised); this stays so whatever is
    delivered or resumed later; every later call of [onSession] answers an
    event whose handler was already in flight; and with no handler in
    flight there is no call at all. *)
Theorem used_up_invite_ignores_responses decryptor (w : World) (steps : list Step) :
  usedUp (invite w) = true ->
  (forall ev, deliver decryptor w ev = w) /\
  usedUp (invite (run decryptor steps w)) = true /\
  (forall c, In c (calls (run decryptor steps w)) ->
     In c (calls w) \/ In (c_event c) (map p_event (pending w))) /\
  (pending w = [] -> run decryptor steps w = w).
Proof.
  intros U. split; [intros ev; now apply deliver_usedUp|].
  destruct (run_usedUp decryptor steps w U) as (U' & _ & C).
  split; [assumption|]. split; [assumption|]. now apply run_idle.
Qed.

End Listen.

(** *** Scenarios, on the sample primitives *)

Definition sampleInit (their : option InviteUtils.jvalue) (ourPriv : Bytes)
  (isInitiator : bool) (secret : Bytes) (sessionName : option string) : option string :=
  match their with
  | Some (InviteUtils.JStr k) => Some ("session with " ++ k)%string
  | _ => None
  end.

Definition sampleInvite (limit : option Z) (used : list string) : Invite :=
  {| inviterEphemeralPublicKey :=
       InviteUtils.getPublicKey InviteUtils.Sample.primitives
         InviteUtils.Sample.inviterEphemeralPriv;
     sharedSecret := "0a0b";
     inviter := InviteUtils.getPublicKey InviteUtils.Sample.primitives
                  InviteUtils.Sample.inviterPriv;
     inviterEphemeralPrivateKey := Some InviteUtils.Sample.inviterEphemeralPriv;
     deviceId := None; maxUses := limit; usedBy := used; createdAt := 1700000000 |}.

Definition listening (limit : option Z) (used : list string) : World string :=
  {| invite := sampleInvite limit used; pending := []; calls := [] |}.

Definition response1 : Event := InviteUtils.Sample.responseEvent (Some "device-1").
Definition response2 : Event := InviteUtils.Sample.responseEvent (Some "device-2").

Definition sampleRun (steps : list Step) (w : World string) : World string :=
  run InviteUtils.Sample.primitives sampleInit
    (KeyDecryptor InviteUtils.Sample.inviterPriv) steps w.

(** C7, as stated, fails for [maxUses = 0]: [usedBy], empty, holds
    [maxUses] entries from the start, and a response still reaches
    [onSession]. *)
Lemma maxUses_zero_counterexample :
  maxUses (sampleInvite (Some 0%Z) []) = Some 0%Z /\
  (Z.of_nat (length (usedBy (sampleInvite (Some 0%Z) []))) >= 0)%Z /\
  map (fun c => c_event c)
      (calls (sampleRun [Deliver response1; Resume 0] (listening (Some 0%Z) [])))
  = [response1].
Proof. split; [reflexivity|]. split; [simpl; lia | reflexivity]. Qed.

Lemma used_up_invite_ignores_responses_witness :
  deliver InviteUtils.Sample.primitives (KeyDecryptor InviteUtils.Sample.inviterPriv)
    (listening (Some 1%Z) ["invitee-0"]) response1 = listening (Some 1%Z) ["invitee-0"] /\
  sampleRun [Deliver response1; Resume 0; Deliver response2] (listening (Some 1%Z) ["invitee-0"])
  = listening (Some 1%Z) ["invitee-0"].
Proof.
  pose proof (@used_up_invite_ignores_responses InviteUtils.Sample.primitives string sampleInit
                (KeyDecryptor InviteUtils.Sample.inviterPriv)
                (listening (Some 1%Z) ["invitee-0"])
                [Deliver response1; Resume 0; Deliver response2] eq_refl) as (H1 & _ & _ & H4).
  split; [apply H1 | apply H4; reflexivity].
Defined.

(** Below the limit the response goes through, once. *)
Lemma response_below_limit :
  map (fun c => c_event c)
      (calls (sampleRun [Deliver response1; Resume 0; Deliver response2; Resume 0]
                (listening (Some 1%Z) [])))
  = [response1].
Proof. reflexivity. Qed.

(** Two responses delivered back to back, before either handler resumes
    from its [await], both pass the check. *)
Lemma responses_in_flight :
  map (fun c => c_event c)
      (calls (sampleRun [Deliver response1; Deliver response2; Resume 0; Resume 0]
                (listening (Some 1%Z) [])))
  = [response1; response2].
Proof. reflexivity. Qed.

End Invite.

(** ** Session.ts

    Session.ts is not among the sources; what follows is written from the
    specification of the session (data model, ratchet primitives, send,
    receive, skipped-key cache bound). *)

Module Session.

Definition Bytes := InviteUtils.Bytes.

(** Modelled from the spec: a ratchet key pair, the public half being the
    header key of the events sent under it (Session.ts is missing). *)
Record KeyPair := {
  publicKey : string;
  privateKey : Bytes
}.

(** Modelled from the spec: the header an event carries (Session.ts is
    missing).  The spec names the message number of an event, the
    [previousSendingChainMessageCount] carried on rotation and the hint of
    the next header public key. *)
Record Header := {
  number : nat;
  previousChainLength : nat;
  nextPublicKey : string
}.

(** Modelled from the spec: the unsigned inner event
    [{pubkey, content, kind, tags, created_at}] (Session.ts is missing). *)
Record Rumor := {
  r_pubkey : string;
  r_content : string;
  r_kind : Z;
  r_tags : list (list string);
  r_created_at : Z
}.

(** Modelled from the spec: one entry of [skippedKeys],
    [{ headerKeys: [32B, 32B], messageKeys: map<u32, 32B> }] (Session.ts is
    missing). *)
Record SkippedEntry := {
  headerKeys : list Bytes;
  messageKeys : JsMap.t nat Bytes
}.

(** Modelled from the spec: [SessionState], section 3 (Session.ts is
    missing).  [skippedKeys] keeps its entries in insertion order, oldest
    first. *)
Record SessionState := {
  rootKey : Bytes;
  sendingChainKey : option Bytes;
  receivingChainKey : option Bytes;
  sendingChainMessageNumber : nat;
  receivingChainMessageNumber : nat;
  previousSendingChainMessageCount : nat;
  ourCurrentRatchetKey : option KeyPair;
  ourNextRatchetKey : option KeyPair;
  theirCurrentRatchetPublic : option string;
  theirNextRatchetPublic : option string;
  skippedKeys : JsMap.t string SkippedEntry
}.

(** Modelled from the spec: the ratchet primitives of section 4.1 and the
    collaborators of section 1 (Session.ts is missing): [kdf1], [kdf2],
    [kdf3], the constant of the chain step, the codec of the header, the
    serialization of the inner event, the two event kinds, and the cap on
    the keys cached in a session, whose value the spec leaves open.  ECDH,
    the AEAD and signing are those of [InviteUtils.Primitives]. *)
Record Primitives := {
  base : InviteUtils.Primitives;
  kdf1 : Bytes -> Bytes -> Bytes;
  kdf2 : Bytes -> Bytes -> Bytes * Bytes;
  kdf3 : Bytes -> Bytes -> Bytes * Bytes * Bytes;
  chainConst : Bytes;
  encodeHeader : Header -> string;
  decodeHeader : string -> option Header;
  serializeRumor : Rumor -> string;
  parseRumor : string -> option Rumor;
  MESSAGE_KIND : Z;
  CHAT_MESSAGE_KIND : Z;
  AGGREGATE_CAP : nat
}.

(** Modelled from the spec: [MAX_SKIP = 1000], the bound of one entry of
    [skippedKeys] (Session.ts is missing). *)
Definition MAX_SKIP : nat := 1000.

(** The collaborators are assumed correct: what is encoded decodes, and
    the cap of the session is not below the bound of one entry. *)
Record Laws (P : Primitives) : Prop := {
  base_laws : InviteUtils.Laws (base P);
  header_roundtrip : forall h, decodeHeader P (encodeHeader P h) = Some h;
  rumor_roundtrip : forall r, parseRumor P (serializeRumor P r) = Some r;
  cap_covers_entry : MAX_SKIP <= AGGREGATE_CAP P
}.

(** Modelled from the spec: the values one call of [send] draws
    (Session.ts is missing): two fresh secret keys for the key pairs it
    generates, the clock, the jittered clock and the nonce of the AEAD. *)
Record Entropy := {
  fresh1 : Bytes;
  fresh2 : Bytes;
  now : Z;
  jitteredNow : Z;
  nonce : Bytes
}.

Notation "x <- o ;; k" := (InviteUtils.bind o (fun x => k))
  (at level 61, o at next level, right associativity).

(** Modelled from the spec: "[event.pubkey] equals
    [theirCurrentRatchetPublic]" for a key that may be absent (Session.ts is
    missing). *)
Definition opt_is (o : option string) (s : string) : bool :=
  match o with Some x => String.eqb x s | None => false end.

Section Model.

Variable P : Primitives.

(** Modelled from the spec: the key pair of a secret key (Session.ts is
    missing). *)
Definition keyPairOf (priv : Bytes) : KeyPair :=
  {| publicKey := InviteUtils.getPublicKey (base P) priv; privateKey := priv |}.

(** Modelled from the spec: "DH: ECDH producing a 32-byte shared key (the
    conversation key primitive is used)" (Session.ts is missing). *)
Definition DH (priv : Bytes) (pub : string) : option Bytes :=
  InviteUtils.getConversationKey (base P) priv pub.

(** *** The skipped-key cache *)

(** Modelled from the spec: the number of message keys an entry of
    [skippedKeys] holds, and the number the session holds (Session.ts is
    missing). *)
Definition entrySize (e : SkippedEntry) : nat := JsMap.size (messageKeys e).

Definition totalKeys (sk : JsMap.t string SkippedEntry) : nat :=
  list_sum (map (fun p => entrySize (snd p)) sk).

(** Modelled from the spec: the entry [skippedKeys[peer]], empty when the
    cache has none for the peer yet, and an entry with its message keys
    replaced (Session.ts is missing). *)
Definition emptyEntry : SkippedEntry := {| headerKeys := []; messageKeys := JsMap.empty |}.

Definition entryOf (sk : JsMap.t string SkippedEntry) (peer : string) : SkippedEntry :=
  match JsMap.get peer sk with Some e => e | None => emptyEntry end.

Definition withMessageKeys (e : SkippedEntry) (m : JsMap.t nat Bytes) : SkippedEntry :=
  {| headerKeys := headerKeys e; messageKeys := m |}.

(** Modelled from the spec: "on overflow, the oldest ratchet-public entry
    (FIFO on insertion) is evicted wholesale" (Session.ts is missing).
    Overflow is the session holding more than [AGGREGATE_CAP] keys; entries
    go, oldest first, until it holds no more than that. *)
Fixpoint evictOverflow (sk : JsMap.t string SkippedEntry) : JsMap.t string SkippedEntry :=
  match sk with
  | [] => []
  | oldest :: rest => if Nat.ltb (AGGREGATE_CAP P) (totalKeys sk) then evictOverflow rest else sk
  end.

(** Modelled from the spec: "chain step: [chainKey, messageKey =
    kdf2(chainKey, const)]", [count] times from message number [n], each
    message key going into the cache (Session.ts is missing). *)
Fixpoint skipKeys (count : nat) (ck : Bytes) (n : nat) (m : JsMap.t nat Bytes)
  : Bytes * JsMap.t nat Bytes :=
  match count with
  | O => (ck, m)
  | S c =>
    let (ck', mk) := kdf2 P ck (chainConst P) in
    skipKeys c ck' (S n) (JsMap.set n mk m)
  end.

(** Modelled from the spec: the state with its receiving chain, its
    receiving counter and its cache replaced (Session.ts is missing). *)
Definition set_receiving (st : SessionState) (ck : option Bytes) (n : nat)
  (sk : JsMap.t string SkippedEntry) : SessionState :=
  {| rootKey := rootKey st; sendingChainKey := sendingChainKey st;
     receivingChainKey := ck;
     sendingChainMessageNumber := sendingChainMessageNumber st;
     receivingChainMessageNumber := n;
     previousSendingChainMessageCount := previousSendingChainMessageCount st;
     ourCurrentRatchetKey := ourCurrentRatchetKey st;
     ourNextRatchetKey := ourNextRatchetKey st;
     theirCurrentRatchetPublic := theirCurrentRatchetPublic st;
     theirNextRatchetPublic := theirNextRatchetPublic st;
     skippedKeys := sk |}.

(** Modelled from the spec: "derive and cache skipped keys up to
    [messageNumber-1] into [skippedKeys[peer]]", under the bound: an entry
    holds at most [MAX_SKIP] keys and an attempt that would go beyond
    returns null (Session.ts is missing). *)
Definition cacheSkipped (st : SessionState) (peer : string) (until : nat)
  : option SessionState :=
  if Nat.leb until (receivingChainMessageNumber st) then Some st
  else
    ck <- receivingChainKey st ;;
    let needed := until - receivingChainMessageNumber st in
    let entry := entryOf (skippedKeys st) peer in
    if Nat.ltb MAX_SKIP (entrySize entry + needed) then None
    else
      let (ck', m) := skipKeys needed ck (receivingChainMessageNumber st) (messageKeys entry) in
      Some (set_receiving st (Some ck') until
              (evictOverflow (JsMap.set peer (withMessageKeys entry m) (skippedKeys st)))).

(** Modelled from the spec: decrypt the content under the message key and
    parse the inner event; a content the AEAD rejects or a payload that does
    not parse gives null (Session.ts is missing). *)
Definition openRumor (ciphertext : string) (mk : Bytes) : option Rumor :=
  plaintext <- InviteUtils.nip44_decrypt (base P) ciphertext mk ;;
  parseRumor P plaintext.

(** Modelled from the spec: receive on the current receiving chain: skip
    to the message number, derive its key, decrypt, advance the counter
    (Session.ts is missing). *)
Definition chainDecrypt (st : SessionState) (h : Header) (ev : Event)
  : option (Rumor * SessionState) :=
  st1 <- cacheSkipped st (pubkey ev) (number h) ;;
  ck <- receivingChainKey st1 ;;
  let (ck', mk) := kdf2 P ck (chainConst P) in
  inner <- openRumor (content ev) mk ;;
  Some (inner, set_receiving st1 (Some ck') (S (number h)) (skippedKeys st1)).

(** Modelled from the spec: "matches a key in [skippedKeys]: decrypt with
    that stored message key, then evict it" (Session.ts is missing). *)
Definition skippedDecrypt (st : SessionState) (h : Header) (ev : Event)
  : option (Rumor * SessionState) :=
  entry <- JsMap.get (pubkey ev) (skippedKeys st) ;;
  mk <- JsMap.get (number h) (messageKeys entry) ;;
  inner <- openRumor (content ev) mk ;;
  Some (inner,
        set_receiving st (receivingChainKey st) (receivingChainMessageNumber st)
          (JsMap.set (pubkey ev)
             (withMessageKeys entry (JsMap.delete (number h) (messageKeys entry)))
             (skippedKeys st))).

(** Modelled from the spec: the state after the rotation of the receiver's
    DH ratchet step, counters reset (Session.ts is missing). *)
Definition set_ratchet (st : SessionState) (root : Bytes) (recvCk sendCk : Bytes)
  (their : string) : SessionState :=
  {| rootKey := root; sendingChainKey := Some sendCk; receivingChainKey := Some recvCk;
     sendingChainMessageNumber := 0;
     receivingChainMessageNumber := 0;
     previousSendingChainMessageCount := sendingChainMessageNumber st;
     ourCurrentRatchetKey := ourCurrentRatchetKey st;
     ourNextRatchetKey := ourNextRatchetKey st;
     theirCurrentRatchetPublic := Some their;
     theirNextRatchetPublic := Some their;
     skippedKeys := skippedKeys st |}.

(** Modelled from the spec: the DH ratchet step of the receiver
    (Session.ts is missing): finalize the skipped keys of the old chain up
    to the sender's previous chain length, rotate
    [theirCurrentRatchetPublic := theirNextRatchetPublic := event.pubkey],
    derive root and receiving chain from [DH(ourCurrentRatchetPrivate,
    event.pubkey)], reset the counters, derive the sending chain from
    [DH(ourNextRatchetPrivate, event.pubkey)], then decrypt. *)
Definition ratchetDecrypt (st : SessionState) (h : Header) (ev : Event)
  : option (Rumor * SessionState) :=
  st1 <- match theirCurrentRatchetPublic st, receivingChainKey st with
         | Some old, Some _ => cacheSkipped st old (previousChainLength h)
         | _, _ => Some st
         end ;;
  ourCurrent <- ourCurrentRatchetKey st1 ;;
  dh1 <- DH (privateKey ourCurrent) (pubkey ev) ;;
  let '(root1, recvCk, _) := kdf3 P (rootKey st1) dh1 in
  ourNext <- ourNextRatchetKey st1 ;;
  dh2 <- DH (privateKey ourNext) (pubkey ev) ;;
  let '(root2, sendCk, _) := kdf3 P root1 dh2 in
  chainDecrypt (set_ratchet st1 root2 recvCk sendCk (pubkey ev)) h ev.

(** Modelled from the spec: the header of an event, the value of its
    ["header"] tag, decoded; null when the tag is missing or does not
    decode (Session.ts is missing). *)
Definition headerOf (ev : Event) : option Header :=
  tag <- find (fun t => match t with t0 :: _ => String.eqb t0 "header" | [] => false end)
           (tags ev) ;;
  text <- nth_error tag 1 ;;
  decodeHeader P text.

(** Modelled from the spec: the dispatch of [decryptEvent] by
    [event.pubkey] (Session.ts is missing): their current ratchet key (a
    message number already passed is served from the skipped keys only),
    their next ratchet key, a key of [skippedKeys], else no match. *)
Definition tryDecrypt (st : SessionState) (ev : Event) : option (Rumor * SessionState) :=
  if opt_is (theirCurrentRatchetPublic st) (pubkey ev) then
    h <- headerOf ev ;;
    if Nat.ltb (number h) (receivingChainMessageNumber st) then skippedDecrypt st h ev
    else chainDecrypt st h ev
  else if opt_is (theirNextRatchetPublic st) (pubkey ev) then
    h <- headerOf ev ;; ratchetDecrypt st h ev
  else if JsMap.has (pubkey ev) (skippedKeys st) then
    h <- headerOf ev ;; skippedDecrypt st h ev
  else None.

(** Modelled from the spec: [decryptEvent(event) -> innerEvent | null]
    (Session.ts is missing), as [decryptEventWithState]: the inner event
    and the updated state; on any failure null and the state as it was. *)
Definition decryptEvent (st : SessionState) (ev : Event) : option Rumor * SessionState :=
  match tryDecrypt st ev with
  | Some (inner, st') => (Some inner, st')
  | None => (None, st)
  end.

(** *** Send *)

(** Modelled from the spec: step 1 of [send], the DH ratchet step of the
    sender (Session.ts is missing). *)
Definition ratchetForSend (st : SessionState) (rnd : Entropy) : option SessionState :=
  their <- theirNextRatchetPublic st ;;
  let next := match ourNextRatchetKey st with
              | Some k => k
              | None => keyPairOf (fresh1 rnd)
              end in
  dh <- DH (privateKey next) their ;;
  let '(root, sendCk, _) := kdf3 P (rootKey st) dh in
  Some {| rootKey := root; sendingChainKey := Some sendCk;
          receivingChainKey := receivingChainKey st;
          sendingChainMessageNumber := 0;
          receivingChainMessageNumber := receivingChainMessageNumber st;
          previousSendingChainMessageCount := sendingChainMessageNumber st;
          ourCurrentRatchetKey := Some next;
          ourNextRatchetKey := Some (keyPairOf (fresh2 rnd));
          theirCurrentRatchetPublic := theirCurrentRatchetPublic st;
          theirNextRatchetPublic := theirNextRatchetPublic st;
          skippedKeys := skippedKeys st |}.

(** Modelled from the spec: the state with its sending chain and its
    sending counter replaced (Session.ts is missing). *)
Definition set_sending (st : SessionState) (ck : Bytes) (n : nat) : SessionState :=
  {| rootKey := rootKey st; sendingChainKey := Some ck;
     receivingChainKey := receivingChainKey st;
     sendingChainMessageNumber := n;
     receivingChainMessageNumber := receivingChainMessageNumber st;
     previousSendingChainMessageCount := previousSendingChainMessageCount st;
     ourCurrentRatchetKey := ourCurrentRatchetKey st;
     ourNextRatchetKey := ourNextRatchetKey st;
     theirCurrentRatchetPublic := theirCurrentRatchetPublic st;
     theirNextRatchetPublic := theirNextRatchetPublic st;
     skippedKeys := skippedKeys st |}.

(** Modelled from the spec: [send(plaintext) -> {event, innerEvent}],
    steps 1 to 6 (Session.ts is missing). *)
Definition send (ourIdentityPub : string) (st : SessionState) (rnd : Entropy)
  (plaintext : string) : option (SessionState * Event * Rumor) :=
  st1 <- match sendingChainKey st with
         | Some _ => Some st
         | None => ratchetForSend st rnd
         end ;;
  ck <- sendingChainKey st1 ;;
  let (ck', mk) := kdf2 P ck (chainConst P) in
  let inner := {| r_pubkey := ourIdentityPub; r_content := plaintext;
                  r_kind := CHAT_MESSAGE_KIND P; r_tags := [];
                  r_created_at := now rnd |} in
  ciphertext <- InviteUtils.nip44_encrypt (base P) (serializeRumor P inner) mk (nonce rnd) ;;
  current <- ourCurrentRatchetKey st1 ;;
  let header := {| number := sendingChainMessageNumber st1;
                   previousChainLength := previousSendingChainMessageCount st1;
                   nextPublicKey := match ourNextRatchetKey st1 with
                                    | Some k => publicKey k
                                    | None => ""
                                    end |} in
  let event := InviteUtils.finalizeEvent (base P) (MESSAGE_KIND P) ciphertext (jitteredNow rnd)
                 [["header"; encodeHeader P header]] (privateKey current) in
  Some (set_sending st1 ck' (S (sendingChainMessageNumber st1)), event, inner).

(** *** The cache stays within its bounds *)




Lemma evictOverflow_within sk : totalKeys sk <= AGGREGATE_CAP P -> evictOverflow sk = sk.
Proof.
  intros H. destruct sk as [|o r]; [reflexivity|]. cbn [evictOverflow].
  assert (Nat.ltb (AGGREGATE_CAP P) (totalKeys (o :: r)) = false) as ->
    by (apply Nat.ltb_ge; exact H).
  reflexivity.
Qed.






Lemma skipKeys_size count : forall ck n m,
  JsMap.size (snd (skipKeys count ck n m)) <= JsMap.size m + count.
Proof.
  induction count as [|c IH]; intros ck n m; simpl; [lia|].
  destruct (kdf2 P ck (chainConst P)) as [ck' mk].
  specialize (IH ck' (S n) (JsMap.set n mk m)).
  pose proof (JsMap.size_set_le n mk m). lia.
Qed.









(** *** Failures leave the state alone *)

Lemma chainDecrypt_sealed st h ev :
  (forall mk, InviteUtils.nip44_decrypt (base P) (content ev) mk = None) ->
  chainDecrypt st h ev = None.
Proof.
  intros F. unfold chainDecrypt.
  destruct (cacheSkipped _ _ _) as [st1|]; [simpl|reflexivity].
  destruct (receivingChainKey st1); [simpl|reflexivity].
  destruct (kdf2 P _ _) as [ck' mk]. unfold openRumor. now rewrite F.
Qed.

Lemma skippedDecrypt_sealed st h ev :
  (forall mk, InviteUtils.nip44_decrypt (base P) (content ev) mk = None) ->
  skippedDecrypt st h ev = None.
Proof.
  intros F. unfold skippedDecrypt.
  destruct (JsMap.get (pubkey ev) _) as [entry|]; [simpl|reflexivity].
  destruct (JsMap.get (number h) _); [simpl|reflexivity].
  unfold openRumor. now rewrite F.
Qed.

Lemma ratchetDecrypt_sealed st h ev :
  (forall mk, InviteUtils.nip44_decrypt (base P) (content ev) mk = None) ->
  ratchetDecrypt st h ev = None.
Proof.
  intros F. unfold ratchetDecrypt.
  destruct (match theirCurrentRatchetPublic st, receivingChainKey st with
            | Some old, Some _ => cacheSkipped st old (previousChainLength h)
            | _, _ => Some st
            end) as [st1|]; [simpl|reflexivity].
  destruct (ourCurrentRatchetKey st1); [simpl|reflexivity].
  destruct (DH _ _); [simpl|reflexivity].
  destruct (kdf3 P _ _) as [[root1 recvCk] hk1].
  destruct (ourNextRatchetKey st1); [simpl|reflexivity].
  destruct (DH _ _); [simpl|reflexivity].
  destruct (kdf3 P _ _) as [[root2 sendCk] hk2].
  now apply chainDecrypt_sealed.
Qed.

(** C3.  An event whose pubkey is neither [theirCurrentRatchetPublic], nor
    [theirNextRatchetPublic], nor a key of [skippedKeys]: [decryptEvent]
    returns null and the state it returns is the state it got.  So does an
    event whose header does not decode, and an event whose content no key
    opens (the AEAD rejects it); and whenever [decryptEvent] returns null,
    the state is the one it got. *)
Theorem decryptEvent_null_keeps_state (st : SessionState) (ev : Event) :
  (opt_is (theirCurrentRatchetPublic st) (pubkey ev) = false ->
   opt_is (theirNextRatchetPublic st) (pubkey ev) = false ->
   JsMap.has (pubkey ev) (skippedKeys st) = false ->
   decryptEvent st ev = (None, st)) /\
  (headerOf ev = None -> decryptEvent st ev = (None, st)) /\
  ((forall mk, InviteUtils.nip44_decrypt (base P) (content ev) mk = None) ->
   decryptEvent st ev = (None, st)) /\
  (fst (decryptEvent st ev) = None -> snd (decryptEvent st ev) = st).
Proof.
  unfold decryptEvent. split; [|split; [|split]].
  - intros H1 H2 H3. unfold tryDecrypt. now rewrite H1, H2, H3.
  - intros H. unfold tryDecrypt. rewrite H.
    destruct (opt_is _ _); [reflexivity|].
    destruct (opt_is _ _); [reflexivity|].
    destruct (JsMap.has _ _); reflexivity.
  - intros F. unfold tryDecrypt.
    destruct (opt_is _ _).
    { destruct (headerOf ev) as [h|]; [simpl|reflexivity].
      destruct (Nat.ltb _ _); [now rewrite skippedDecrypt_sealed | now rewrite chainDecrypt_sealed]. }
    destruct (opt_is _ _).
    { destruct (headerOf ev) as [h|]; [simpl|reflexivity]. now rewrite ratchetDecrypt_sealed. }
    destruct (JsMap.has _ _); [|reflexivity].
    destruct (headerOf ev) as [h|]; [simpl|reflexivity]. now rewrite skippedDecrypt_sealed.
  - destruct (tryDecrypt st ev) as [[inner st']|]; [discriminate | reflexivity].
Qed.


(** *** One sending chain, delivered in any order *)

(** The chain keys and message keys of a chain that starts at [ck]. *)
Fixpoint chainAt (ck : Bytes) (i : nat) : Bytes :=
  match i with
  | O => ck
  | S i' => fst (kdf2 P (chainAt ck i') (chainConst P))
  end.

Definition msgKeyAt (ck : Bytes) (i : nat) : Bytes :=
  snd (kdf2 P (chainAt ck i) (chainConst P)).

Lemma kdf2_chainAt ck i :
  kdf2 P (chainAt ck i) (chainConst P) = (chainAt ck (S i), msgKeyAt ck i).
Proof. unfold msgKeyAt. simpl. now destruct (kdf2 P (chainAt ck i) (chainConst P)). Qed.

(** [send], message after message. *)
Fixpoint sendAll (ourId : string) (st : SessionState) (inputs : list (Entropy * string))
  : option (SessionState * list Event) :=
  match inputs with
  | [] => Some (st, [])
  | (rnd, text) :: rest =>
    match send ourId st rnd text with
    | Some (st1, ev, _) =>
      match sendAll ourId st1 rest with
      | Some (st2, evs) => Some (st2, ev :: evs)
      | None => None
      end
    | None => None
    end
  end.

(** [decryptEvent], event after event: what each call returns. *)
Fixpoint decryptAll (st : SessionState) (evs : list Event) : list (option Rumor) :=
  match evs with
  | [] => []
  | ev :: rest =>
    let (res, st1) := decryptEvent st ev in
    res :: decryptAll st1 rest
  end.

(** The elements of [l] in the order [perm] of their indices. *)
Definition inOrder {A} (l : list A) (perm : list nat) : list A :=
  flat_map (fun i => match nth_error l i with Some x => [x] | None => [] end) perm.

(** A's sending chain is B's receiving chain: same chain key, same message
    number, B expects A's current ratchet key, and B's cache is empty. *)
Definition synced (sA sB : SessionState) : Prop :=
  exists ck kp,
    sendingChainKey sA = Some ck /\ receivingChainKey sB = Some ck /\
    sendingChainMessageNumber sA = receivingChainMessageNumber sB /\
    ourCurrentRatchetKey sA = Some kp /\
    theirCurrentRatchetPublic sB = Some (InviteUtils.getPublicKey (base P) (privateKey kp)) /\
    skippedKeys sB = JsMap.empty.

Lemma skipKeys_spec ck count : forall a n m,
  fst (skipKeys count (chainAt ck a) n m) = chainAt ck (a + count) /\
  (JsMap.wf m -> JsMap.wf (snd (skipKeys count (chainAt ck a) n m))) /\
  forall j, JsMap.get j (snd (skipKeys count (chainAt ck a) n m))
            = if Nat.leb n j && Nat.ltb j (n + count)
              then Some (msgKeyAt ck (a + (j - n)))
              else JsMap.get j m.
Proof.
  induction count as [|c IH]; intros a n m.
  - simpl. rewrite Nat.add_0_r. split; [reflexivity|]. split; [tauto|].
    intros j. destruct (Nat.leb n j) eqn:E1; simpl; [|reflexivity].
    assert (Nat.ltb j (n + 0) = false) as ->; [|reflexivity].
    apply Nat.ltb_ge. apply Nat.leb_le in E1. lia.
  - cbn [skipKeys]. rewrite kdf2_chainAt.
    destruct (IH (S a) (S n) (JsMap.set n (msgKeyAt ck a) m)) as (H1 & H2 & H3).
    split; [rewrite H1; f_equal; lia|]. split.
    + intros W. apply H2. now apply JsMap.wf_set.
    + intros j. rewrite H3.
      destruct (Nat.leb (S n) j) eqn:E1.
      * apply Nat.leb_le in E1.
        assert (Nat.leb n j = true) as -> by (apply Nat.leb_le; lia).
        replace (Nat.ltb j (n + S c)) with (Nat.ltb j (S n + c)) by (f_equal; lia).
        simpl. destruct (Nat.ltb j (S (n + c))) eqn:E2.
        -- f_equal. f_equal. lia.
        -- apply JsMap.get_set_ne. lia.
      * apply Nat.leb_gt in E1. simpl.
        destruct (Nat.eqb j n) eqn:E3.
        -- apply Nat.eqb_eq in E3. subst j.
           rewrite JsMap.get_set_eq, Nat.leb_refl.
           assert (Nat.ltb n (n + S c) = true) as -> by (apply Nat.ltb_lt; lia).
           simpl. rewrite Nat.sub_diag, Nat.add_0_r. reflexivity.
        -- apply Nat.eqb_neq in E3.
           rewrite JsMap.get_set_ne by lia.
           assert (Nat.leb n j = false) as -> by (apply Nat.leb_gt; lia).
           reflexivity.
Qed.

(** Is the key of message number [j] in the cache, when the chain that
    started at [n0] stands at [n0 + m] and the messages [done] came? *)
Definition cachedAt (n0 m : nat) (done : list nat) (j : nat) : bool :=
  Nat.leb n0 j && Nat.ltb j (n0 + m) && negb (existsb (Nat.eqb (j - n0)) done).

Definition recv_inv (ck : Bytes) (n0 : nat) (pk : string) (done : list nat) (m : nat)
  (sB : SessionState) : Prop :=
  receivingChainKey sB = Some (chainAt ck m) /\
  receivingChainMessageNumber sB = n0 + m /\
  theirCurrentRatchetPublic sB = Some pk /\
  (forall i, In i done -> i < m) /\
  (skippedKeys sB = [] \/ exists e, skippedKeys sB = [(pk, e)]) /\
  JsMap.wf (messageKeys (entryOf (skippedKeys sB) pk)) /\
  forall j, JsMap.get j (messageKeys (entryOf (skippedKeys sB) pk))
            = if cachedAt n0 m done j then Some (msgKeyAt ck (j - n0)) else None.

Lemma recv_inv_size ck n0 pk done m sB :
  recv_inv ck n0 pk done m sB -> entrySize (entryOf (skippedKeys sB) pk) <= m.
Proof.
  intros (_ & _ & _ & _ & _ & W & G). unfold entrySize. rewrite JsMap.size_keys.
  rewrite <- (length_seq m n0). apply NoDup_incl_length; [exact W|].
  intros j Hj. apply JsMap.In_keys_get in Hj. destruct Hj as [v Hv].
  rewrite G in Hv. unfold cachedAt in Hv.
  destruct (Nat.leb n0 j) eqn:E1; [|discriminate].
  destruct (Nat.ltb j (n0 + m)) eqn:E2; [|discriminate].
  apply Nat.leb_le in E1. apply Nat.ltb_lt in E2. apply in_seq. lia.
Qed.

Hypothesis L : Laws P.

Lemma existsb_above (done : list nat) m x :
  (forall i, In i done -> i < m) -> m <= x -> existsb (Nat.eqb x) done = false.
Proof.
  intros D Hx. destruct (existsb (Nat.eqb x) done) eqn:E; [|reflexivity].
  apply existsb_exists in E. destruct E as [i [Hin Hi]]. apply Nat.eqb_eq in Hi.
  subst i. specialize (D _ Hin). lia.
Qed.

Lemma entryOf_single pk e : entryOf [(pk, e)] pk = e.
Proof.
  unfold entryOf. simpl.
  change (@eqb string EqDec_string pk pk) with (String.eqb pk pk).
  now rewrite String.eqb_refl.
Qed.

Lemma set_single pk e' (sk : JsMap.t string SkippedEntry) :
  sk = [] \/ (exists e, sk = [(pk, e)]) -> JsMap.set pk e' sk = [(pk, e')].
Proof.
  intros [->|[e ->]]; simpl; [reflexivity|].
  change (@eqb string EqDec_string pk pk) with (String.eqb pk pk).
  now rewrite String.eqb_refl.
Qed.

Lemma cacheSkipped_inv ck n0 pk done m sB i :
  recv_inv ck n0 pk done m sB -> m <= i -> i <= MAX_SKIP ->
  exists st1, cacheSkipped sB pk (n0 + i) = Some st1 /\ recv_inv ck n0 pk done i st1.
Proof.
  intros I Hmi Hi. pose proof (recv_inv_size I) as Hsize.
  destruct I as (Hck & Hn & Hpk & Hdone & Hsk & W & G).
  unfold cacheSkipped. rewrite Hn.
  destruct (Nat.leb (n0 + i) (n0 + m)) eqn:E.
  { apply Nat.leb_le in E. assert (i = m) by lia. subst i.
    exists sB. split; [reflexivity|]. repeat split; assumption. }
  apply Nat.leb_gt in E. rewrite Hck. simpl.
  replace (n0 + i - (n0 + m)) with (i - m) by lia.
  assert (Nat.ltb MAX_SKIP (entrySize (entryOf (skippedKeys sB) pk) + (i - m)) = false) as ->
    by (apply Nat.ltb_ge; lia).
  destruct (skipKeys_spec ck (i - m) m (n0 + m) (messageKeys (entryOf (skippedKeys sB) pk)))
    as (S1 & S2 & S3).
  pose proof (skipKeys_size (i - m) (chainAt ck m) (n0 + m)
                (messageKeys (entryOf (skippedKeys sB) pk))) as S4.
  destruct (skipKeys (i - m) (chainAt ck m) (n0 + m)
              (messageKeys (entryOf (skippedKeys sB) pk))) as [ck' mks].
  simpl in S1, S2, S3, S4.
  rewrite (set_single _ Hsk).
  rewrite evictOverflow_within.
  2:{ unfold totalKeys, entrySize. simpl. unfold entrySize in Hsize.
      pose proof (cap_covers_entry L). lia. }
  eexists. split; [reflexivity|].
  unfold recv_inv. cbn [receivingChainKey receivingChainMessageNumber
                         theirCurrentRatchetPublic skippedKeys set_receiving].
  rewrite entryOf_single. cbn [messageKeys withMessageKeys].
  split; [rewrite S1; do 2 f_equal; lia|].
  split; [reflexivity|]. split; [assumption|].
  split; [intros d Hd; specialize (Hdone d Hd); lia|].
  split; [right; eexists; reflexivity|].
  split; [auto|].
  intros j. rewrite S3, G. unfold cachedAt.
  destruct (Nat.leb (n0 + m) j) eqn:E1.
  - apply Nat.leb_le in E1.
    replace (n0 + m + (i - m)) with (n0 + i) by lia.
    assert (Nat.leb n0 j = true) as -> by (apply Nat.leb_le; lia).
    assert (Nat.ltb j (n0 + m) = false) as -> by (apply Nat.ltb_ge; lia).
    simpl. destruct (Nat.ltb j (n0 + i)) eqn:E2; [|reflexivity].
    rewrite (existsb_above _ Hdone) by lia. simpl. do 2 f_equal. lia.
  - apply Nat.leb_gt in E1. simpl.
    destruct (Nat.leb n0 j) eqn:E0; [|reflexivity]. simpl.
    assert (Nat.ltb j (n0 + m) = true) as -> by (apply Nat.ltb_lt; lia).
    assert (Nat.ltb j (n0 + i) = true) as -> by (apply Nat.ltb_lt; lia).
    reflexivity.
Qed.

(** What A's [i]-th event of the chain is to B: it bears A's ratchet key
    and the message number [n0 + i], and the [i]-th message key opens it to
    an inner event with the text sent. *)
Definition sent_ok (ck : Bytes) (n0 : nat) (pk : string) (i : nat) (ev : Event)
  (text : string) : Prop :=
  pubkey ev = pk /\
  (exists h, headerOf ev = Some h /\ number h = n0 + i) /\
  exists inner, openRumor (content ev) (msgKeyAt ck i) = Some inner /\ r_content inner = text.

Lemma deliver_step ck n0 pk done m sB i ev text :
  recv_inv ck n0 pk done m sB -> ~ In i done -> i <= MAX_SKIP ->
  sent_ok ck n0 pk i ev text ->
  exists inner sB',
    decryptEvent sB ev = (Some inner, sB') /\ r_content inner = text /\
    recv_inv ck n0 pk (i :: done) (Nat.max m (S i)) sB'.
Proof.
  intros I Hnew Hi (Hpub & (h & Hh & Hnum) & (inner & Hopen & Htext)).
  unfold decryptEvent, tryDecrypt.
  pose proof I as (Hck & Hn & Hpk & Hdone & Hsk & W & G).
  rewrite Hpk, Hpub. unfold opt_is. rewrite String.eqb_refl, Hh. simpl.
  rewrite Hnum, Hn.
  destruct (Nat.ltb (n0 + i) (n0 + m)) eqn:E.
  - (* an earlier message: its key is in the cache *)
    apply Nat.ltb_lt in E. assert (Him : i < m) by lia.
    assert (Hget : JsMap.get (n0 + i) (messageKeys (entryOf (skippedKeys sB) pk))
                   = Some (msgKeyAt ck i)).
    { rewrite G. unfold cachedAt.
      assert (Nat.leb n0 (n0 + i) = true) as -> by (apply Nat.leb_le; lia).
      assert (Nat.ltb (n0 + i) (n0 + m) = true) as -> by (apply Nat.ltb_lt; lia).
      replace (n0 + i - n0) with i by lia.
      assert (existsb (Nat.eqb i) done = false) as ->.
      { destruct (existsb (Nat.eqb i) done) eqn:X; [|reflexivity].
        apply existsb_exists in X. destruct X as [d [Hd Hid]].
        apply Nat.eqb_eq in Hid. subst d. contradiction. }
      reflexivity. }
    destruct Hsk as [Hempty|[e He]].
    { rewrite Hempty in Hget. discriminate. }
    unfold skippedDecrypt. rewrite Hpub, He. simpl.
    change (@eqb string EqDec_string pk pk) with (String.eqb pk pk).
    rewrite String.eqb_refl. simpl.
    rewrite He, entryOf_single in Hget, W, G.
    rewrite Hnum, Hget. simpl. rewrite Hopen. simpl.
    do 2 eexists. split; [reflexivity|]. split; [exact Htext|].
    replace (Nat.max m (S i)) with m by lia.
    unfold recv_inv. cbn [receivingChainKey receivingChainMessageNumber
                           theirCurrentRatchetPublic skippedKeys set_receiving].
    rewrite entryOf_single. cbn [messageKeys withMessageKeys].
    split; [assumption|]. split; [assumption|]. split; [assumption|].
    split; [intros d [<-|Hd]; [assumption | auto]|].
    split; [right; eexists; reflexivity|].
    split; [now apply JsMap.wf_delete|].
    intros j. destruct (Nat.eqb (n0 + i) j) eqn:Ej.
    + apply Nat.eqb_eq in Ej. subst j. rewrite JsMap.get_delete_eq.
      unfold cachedAt. simpl. replace (n0 + i - n0) with i by lia.
      rewrite Nat.eqb_refl. simpl. now rewrite andb_false_r.
    + apply Nat.eqb_neq in Ej. rewrite JsMap.get_delete_ne by assumption.
      rewrite G. unfold cachedAt. simpl.
      destruct (Nat.leb n0 j) eqn:E0; [|reflexivity].
      apply Nat.leb_le in E0.
      assert (Nat.eqb (j - n0) i = false) as -> by (apply Nat.eqb_neq; lia).
      reflexivity.
  - (* the chain moves on to this message *)
    apply Nat.ltb_ge in E. assert (Hmi : m <= i) by lia.
    destruct (cacheSkipped_inv I Hmi Hi) as (st1 & Hc & I1).
    unfold chainDecrypt. rewrite Hpub, Hnum, Hc. simpl.
    destruct I1 as (Hck1 & Hn1 & Hpk1 & Hdone1 & Hsk1 & W1 & G1).
    rewrite Hck1. simpl. rewrite kdf2_chainAt, Hopen. simpl.
    do 2 eexists. split; [reflexivity|]. split; [exact Htext|].
    replace (Nat.max m (S i)) with (S i) by lia.
    unfold recv_inv. cbn [receivingChainKey receivingChainMessageNumber
                           theirCurrentRatchetPublic skippedKeys set_receiving].
    split; [reflexivity|]. split; [lia|]. split; [assumption|].
    split; [intros d [<-|Hd]; [lia | specialize (Hdone1 d Hd); lia]|].
    split; [assumption|]. split; [assumption|].
    intros j. rewrite G1. unfold cachedAt. simpl.
    destruct (Nat.leb n0 j) eqn:E0; [|reflexivity]. apply Nat.leb_le in E0. simpl.
    destruct (Nat.eqb (j - n0) i) eqn:Ej.
    + apply Nat.eqb_eq in Ej.
      assert (Nat.ltb j (n0 + i) = false) as -> by (apply Nat.ltb_ge; lia).
      simpl. now rewrite andb_false_r.
    + apply Nat.eqb_neq in Ej. simpl.
      destruct (Nat.ltb j (n0 + i)) eqn:E2.
      * apply Nat.ltb_lt in E2.
        assert (Nat.ltb j (n0 + S i) = true) as -> by (apply Nat.ltb_lt; lia). reflexivity.
      * apply Nat.ltb_ge in E2.
        assert (Nat.ltb j (n0 + S i) = false) as -> by (apply Nat.ltb_ge; lia). reflexivity.
Qed.

Lemma send_sent ourId ck n0 a kp sA rnd text sA1 ev inner :
  sendingChainKey sA = Some (chainAt ck a) ->
  sendingChainMessageNumber sA = n0 + a ->
  ourCurrentRatchetKey sA = Some kp ->
  send ourId sA rnd text = Some (sA1, ev, inner) ->
  sent_ok ck n0 (InviteUtils.getPublicKey (base P) (privateKey kp)) a ev text /\
  sendingChainKey sA1 = Some (chainAt ck (S a)) /\
  sendingChainMessageNumber sA1 = n0 + S a /\
  ourCurrentRatchetKey sA1 = Some kp.
Proof.
  intros Hck Hn Hcur. unfold send. rewrite Hck. simpl. rewrite Hck. simpl.
  rewrite kdf2_chainAt.
  destruct (InviteUtils.nip44_encrypt (base P) _ (msgKeyAt ck a) (nonce rnd))
    as [ciphertext|] eqn:Henc; [simpl|discriminate].
  rewrite Hcur. simpl. intros [= <- <- <-].
  split; [|split; [reflexivity|split; [simpl; lia | exact Hcur]]].
  split; [reflexivity|]. split.
  - eexists. split.
    + unfold headerOf. simpl. apply (header_roundtrip L).
    + simpl. exact Hn.
  - eexists. split.
    + unfold openRumor. simpl.
      rewrite (InviteUtils.nip44_roundtrip (base_laws L) _ _ _ Henc). simpl.
      apply (rumor_roundtrip L).
    + reflexivity.
Qed.

Lemma sendAll_sent ourId ck n0 kp inputs : forall a sA sA' events,
  sendingChainKey sA = Some (chainAt ck a) ->
  sendingChainMessageNumber sA = n0 + a ->
  ourCurrentRatchetKey sA = Some kp ->
  sendAll ourId sA inputs = Some (sA', events) ->
  length events = length inputs /\
  forall i ev, nth_error events i = Some ev ->
    exists text, nth_error (map snd inputs) i = Some text /\
      sent_ok ck n0 (InviteUtils.getPublicKey (base P) (privateKey kp)) (a + i) ev text.
Proof.
  induction inputs as [|[rnd text] inputs IH]; intros a sA sA' events Hck Hn Hcur; simpl.
  - intros [= <- <-]. split; [reflexivity|]. intros [|i] ev; discriminate.
  - destruct (send ourId sA rnd text) as [[[sA1 ev0] inner]|] eqn:Hs; [|discriminate].
    destruct (sendAll ourId sA1 inputs) as [[sA2 evs]|] eqn:R; [|discriminate].
    intros [= <- <-].
    destruct (@send_sent ourId ck n0 a kp sA rnd text sA1 ev0 inner Hck Hn Hcur Hs)
      as (Hok & Hck1 & Hn1 & Hcur1).
    destruct (IH (S a) sA1 sA2 evs Hck1 Hn1 Hcur1 R) as (Hlen & Hall).
    split; [simpl; now rewrite Hlen|].
    intros [|i] ev; simpl.
    + intros [= <-]. exists text. split; [reflexivity|]. now rewrite Nat.add_0_r.
    + intros Hnth. destruct (Hall i ev Hnth) as (t & Ht & Hsent).
      exists t. split; [assumption|]. now replace (a + S i) with (S a + i) by lia.
Qed.

Lemma deliver_all ck n0 pk n events texts perm : forall done m sB,
  recv_inv ck n0 pk done m sB ->
  NoDup perm ->
  (forall i, In i perm -> ~ In i done /\ i < n) ->
  n <= S MAX_SKIP ->
  length events = n ->
  (forall i ev, nth_error events i = Some ev ->
     exists text, nth_error texts i = Some text /\ sent_ok ck n0 pk i ev text) ->
  map (option_map r_content) (decryptAll sB (inOrder events perm))
  = map Some (inOrder texts perm).
Proof.
  induction perm as [|i perm IH]; intros done m sB I ND Hperm Hn Hlen Hall; [reflexivity|].
  destruct (Hperm i (or_introl eq_refl)) as [Hnew Hi].
  destruct (nth_error events i) as [ev|] eqn:Hev.
  2:{ apply nth_error_None in Hev. lia. }
  destruct (Hall i ev Hev) as (text & Htext & Hok).
  assert (Hi' : i <= MAX_SKIP) by lia.
  destruct (deliver_step I Hnew Hi' Hok) as (inner & sB' & Hdec & Hcontent & I').
  unfold inOrder. simpl. rewrite Hev, Htext. simpl. rewrite Hdec. simpl.
  rewrite Hcontent. f_equal.
  apply NoDup_cons_iff in ND. destruct ND as [Hnotin ND'].
  apply (IH (i :: done) (Nat.max m (S i)) sB' I' ND'); [|assumption..].
  intros j Hj. destruct (Hperm j (or_intror Hj)) as [Hjd Hjn].
  split; [|assumption]. intros [E|Hd]; [subst j; contradiction | contradiction].
Qed.

Lemma inOrder_length {A} (l : list A) perm :
  (forall i, In i perm -> i < length l) -> length (inOrder l perm) = length perm.
Proof.
  induction perm as [|i perm IH]; intros H; [reflexivity|].
  unfold inOrder. simpl. rewrite length_app.
  destruct (nth_error l i) eqn:E.
  - simpl. f_equal. apply IH. intros j Hj. apply H. now right.
  - apply nth_error_None in E. specialize (H i (or_introl eq_refl)). lia.
Qed.

(** Delivery out of order, within the bound of the cache.  A and B in
    step on one chain, B's cache empty.  A sends at most [MAX_SKIP + 1]
    messages; B gets the events in any order, each once.  Every call of
    [decryptEvent] returns an inner event, and their contents are the texts
    sent, in the order of delivery. *)
Theorem out_of_order_within_bound (ourId : string) (sA sB sA' : SessionState)
  (inputs : list (Entropy * string)) (events : list Event) (perm : list nat) :
  synced sA sB ->
  length inputs <= S MAX_SKIP ->
  sendAll ourId sA inputs = Some (sA', events) ->
  Permutation perm (seq 0 (length inputs)) ->
  map (option_map r_content) (decryptAll sB (inOrder events perm))
  = map Some (inOrder (map snd inputs) perm) /\
  length (inOrder events perm) = length inputs.
Proof.
  intros (ck & kp & HckA & HckB & Hnum & Hcur & Htheir & Hempty) Hn Hsend Hperm.
  destruct (@sendAll_sent ourId ck (sendingChainMessageNumber sA) kp inputs 0 sA sA' events)
    as (Hlen & Hall); try assumption; [lia|].
  assert (Hin : forall i, In i perm -> i < length inputs).
  { intros i Hi. apply (Permutation_in _ Hperm) in Hi. apply in_seq in Hi. lia. }
  split.
  - apply (@deliver_all ck (sendingChainMessageNumber sA)
             (InviteUtils.getPublicKey (base P) (privateKey kp)) (length inputs)
             events (map snd inputs) perm [] 0 sB); try assumption.
    + unfold recv_inv. rewrite Hempty. simpl.
      split; [assumption|]. split; [lia|]. split; [assumption|].
      split; [intros i []|]. split; [now left|]. split; [constructor|].
      intros j. unfold cachedAt.
      destruct (Nat.leb (sendingChainMessageNumber sA) j) eqn:E; [|reflexivity].
      apply Nat.leb_le in E.
      assert (Nat.ltb j (sendingChainMessageNumber sA + 0) = false) as ->
        by (apply Nat.ltb_ge; lia).
      reflexivity.
    + apply (Permutation_NoDup (Permutation_sym Hperm)), seq_NoDup.
    + intros i Hi. split; [tauto | auto].
  - rewrite inOrder_length by (rewrite Hlen; exact Hin).
    rewrite (Permutation_length Hperm). apply length_seq.
Qed.

End Model.

(** *** A model of the primitives

    The chain step counts: the next chain key is the chain key plus one
    (bytes, little end first), the message key is the chain key behind a
    mark.  Headers and inner events are written as JSON objects of the
    sample codec, the tags as nested objects. *)

Module Sample.

Definition succByte (b : Byte.byte) : Byte.byte :=
  match Byte.of_N (Byte.to_N b + 1) with
  | Some c => c
  | None => Byte.x00
  end.

Fixpoint incr (k : Bytes) : Bytes :=
  match k with
  | [] => [Byte.x01]
  | b :: r => if Byte.eqb b Byte.xff then Byte.x00 :: incr r else succByte b :: r
  end.

Definition toy_encodeHeader (h : Header) : string :=
  InviteUtils.Sample.stringify
    (InviteUtils.JObject
       [("number", InviteUtils.JNum (Z.of_nat (number h)));
        ("previousChainLength", InviteUtils.JNum (Z.of_nat (previousChainLength h)));
        ("nextPublicKey", InviteUtils.JStr (nextPublicKey h))]).

Definition toy_decodeHeader (s : string) : option Header :=
  match InviteUtils.Sample.parse s with
  | Some (InviteUtils.JObject
            [(_, InviteUtils.JNum n); (_, InviteUtils.JNum p); (_, InviteUtils.JStr k)]) =>
    Some {| number := Z.to_nat n; previousChainLength := Z.to_nat p; nextPublicKey := k |}
  | _ => None
  end.

Definition encodeStrings (l : list string) : string :=
  InviteUtils.Sample.stringify
    (InviteUtils.JObject (map (fun x => ("", InviteUtils.JStr x)) l)).

Fixpoint stringsOf (fs : list (string * InviteUtils.jvalue)) : option (list string) :=
  match fs with
  | [] => Some []
  | (_, InviteUtils.JStr x) :: rest =>
    match stringsOf rest with Some l => Some (x :: l) | None => None end
  | _ => None
  end.

Definition decodeStrings (s : string) : option (list string) :=
  match InviteUtils.Sample.parse s with
  | Some (InviteUtils.JObject fs) => stringsOf fs
  | _ => None
  end.

Fixpoint decodeEach (l : list string) : option (list (list string)) :=
  match l with
  | [] => Some []
  | x :: rest =>
    match decodeStrings x, decodeEach rest with
    | Some t, Some ts => Some (t :: ts)
    | _, _ => None
    end
  end.

Definition encodeTags (t : list (list string)) : string :=
  encodeStrings (map encodeStrings t).

Definition decodeTags (s : string) : option (list (list string)) :=
  match decodeStrings s with
  | Some l => decodeEach l
  | None => None
  end.

Definition toy_serializeRumor (r : Rumor) : string :=
  InviteUtils.Sample.stringify
    (InviteUtils.JObject
       [("pubkey", InviteUtils.JStr (r_pubkey r));
        ("content", InviteUtils.JStr (r_content r));
        ("kind", InviteUtils.JNum (r_kind r));
        ("created_at", InviteUtils.JNum (r_created_at r));
        ("tags", InviteUtils.JStr (encodeTags (r_tags r)))]).

Definition toy_parseRumor (s : string) : option Rumor :=
  match InviteUtils.Sample.parse s with
  | Some (InviteUtils.JObject
            [(_, InviteUtils.JStr p); (_, InviteUtils.JStr c); (_, InviteUtils.JNum k);
             (_, InviteUtils.JNum t); (_, InviteUtils.JStr tg)]) =>
    match decodeTags tg with
    | Some tgs => Some {| r_pubkey := p; r_content := c; r_kind := k; r_tags := tgs;
                          r_created_at := t |}
    | None => None
    end
  | _ => None
  end.

Definition primitives : Primitives :=
  {| base := InviteUtils.Sample.primitives;
     kdf1 := fun input salt => input ++ salt;
     kdf2 := fun ck c => (incr ck, Byte.x6d :: ck);
     kdf3 := fun root dh => (Byte.x01 :: root ++ dh, Byte.x02 :: root ++ dh,
                             Byte.x03 :: root ++ dh);
     chainConst := [Byte.x01];
     encodeHeader := toy_encodeHeader;
     decodeHeader := toy_decodeHeader;
     serializeRumor := toy_serializeRumor;
     parseRumor := toy_parseRumor;
     MESSAGE_KIND := 1060;
     CHAT_MESSAGE_KIND := 14;
     AGGREGATE_CAP := 2000 |}.

Lemma decodeStrings_encode l : decodeStrings (encodeStrings l) = Some l.
Proof.
  unfold decodeStrings, encodeStrings. rewrite InviteUtils.Sample.parse_stringify.
  induction l as [|x l IH]; simpl; [reflexivity | now rewrite IH].
Qed.

Lemma decodeTags_encode t : decodeTags (encodeTags t) = Some t.
Proof.
  unfold decodeTags, encodeTags. rewrite decodeStrings_encode.
  induction t as [|x t IH]; simpl; [reflexivity|].
  now rewrite decodeStrings_encode, IH.
Qed.

Lemma ratchet_laws : Laws primitives.
Proof.
  constructor.
  - exact InviteUtils.Sample.sample_laws.
  - intros [n p k]. cbn [decodeHeader encodeHeader primitives]. unfold toy_decodeHeader, toy_encodeHeader.
    rewrite InviteUtils.Sample.parse_stringify. cbn [number previousChainLength nextPublicKey].
    now rewrite !Nat2Z.id.
  - intros [p c k tg t]. cbn [parseRumor serializeRumor primitives].
    unfold toy_parseRumor, toy_serializeRumor.
    rewrite InviteUtils.Sample.parse_stringify. cbn [r_pubkey r_content r_kind r_tags r_created_at].
    now rewrite decodeTags_encode.
  - unfold MAX_SKIP. simpl. lia.
Qed.

(** Alice and Bob in step on a chain that starts at key [x2a]. *)
Definition aliceRatchet : KeyPair := keyPairOf primitives [Byte.x0a].

Definition alice : SessionState :=
  {| rootKey := [Byte.x00]; sendingChainKey := Some [Byte.x2a]; receivingChainKey := None;
     sendingChainMessageNumber := 0; receivingChainMessageNumber := 0;
     previousSendingChainMessageCount := 0;
     ourCurrentRatchetKey := Some aliceRatchet;
     ourNextRatchetKey := Some (keyPairOf primitives [Byte.x0b]);
     theirCurrentRatchetPublic := None; theirNextRatchetPublic := None;
     skippedKeys := JsMap.empty |}.

Definition bob : SessionState :=
  {| rootKey := [Byte.x00]; sendingChainKey := None; receivingChainKey := Some [Byte.x2a];
     sendingChainMessageNumber := 0; receivingChainMessageNumber := 0;
     previousSendingChainMessageCount := 0;
     ourCurrentRatchetKey := None; ourNextRatchetKey := None;
     theirCurrentRatchetPublic := Some (publicKey aliceRatchet);
     theirNextRatchetPublic := None;
     skippedKeys := JsMap.empty |}.

Definition entropy : Entropy :=
  {| fresh1 := [Byte.x0c]; fresh2 := [Byte.x0d]; now := 1700000000;
     jitteredNow := 1699950000; nonce := [Byte.x11] |}.

Definition sendTexts (texts : list string) : option (SessionState * list Event) :=
  sendAll primitives "alice" alice (map (fun t => (entropy, t)) texts).

Definition eventsOf (texts : list string) : list Event :=
  match sendTexts texts with Some (_, evs) => evs | None => [] end.

Definition stateAfter (texts : list string) : SessionState :=
  match sendTexts texts with Some (st, _) => st | None => alice end.

Definition three : list string := ["one"; "two"; "three"].

(** 1002 messages, and the delivery order that starts with the last. *)
Definition many : list string := repeat "m" 1002.
Definition lastFirst : list nat := 1001 :: seq 0 1001.

Definition strangerEvent : Event :=
  {| id := Some "e"; pubkey := "stranger"; created_at := 0; kind := 1060;
     tags := []; content := "noise"; sig := Some "s" |}.

End Sample.

Lemma synced_alice_bob : synced Sample.primitives Sample.alice Sample.bob.
Proof.
  exists [Byte.x2a], Sample.aliceRatchet. repeat split; reflexivity.
Qed.

(** Beyond the bound of the cache, which section 4.2 sets and this model
    follows, a message can be lost.  Alice sends 1002 messages; the last one
    is delivered first.  Opening it would take 1001 skipped keys: Bob's
    [decryptEvent] returns null. *)
Lemma out_of_order_counterexample :
  synced Sample.primitives Sample.alice Sample.bob /\
  Sample.sendTexts Sample.many
    = Some (Sample.stateAfter Sample.many, Sample.eventsOf Sample.many) /\
  length (Sample.eventsOf Sample.many) = 1002 /\
  Permutation Sample.lastFirst (seq 0 1002) /\
  hd_error (decryptAll Sample.primitives Sample.bob
              (inOrder (Sample.eventsOf Sample.many) Sample.lastFirst)) = Some None.
Proof.
  split; [exact synced_alice_bob|].
  split; [vm_compute; reflexivity|].
  split; [vm_compute; reflexivity|].
  split.
  - unfold Sample.lastFirst. change 1002 with (S 1001). rewrite seq_S.
    apply Permutation_cons_append.
  - vm_compute. reflexivity.
Qed.

Lemma out_of_order_within_bound_witness :
  map (option_map r_content)
      (decryptAll Sample.primitives Sample.bob (inOrder (Sample.eventsOf Sample.three) [2; 0; 1]))
  = [Some "three"; Some "one"; Some "two"].
Proof.
  refine (proj1 (@out_of_order_within_bound Sample.primitives Sample.ratchet_laws "alice"
                   Sample.alice Sample.bob (Sample.stateAfter Sample.three)
                   (map (fun t => (Sample.entropy, t)) Sample.three)
                   (Sample.eventsOf Sample.three) [2; 0; 1] synced_alice_bob _ _ _)).
  - unfold MAX_SKIP. simpl. lia.
  - reflexivity.
  - apply (@Permutation_cons_app _ [0; 1] [0; 1] [] 2). apply Permutation_refl.
Defined.

Lemma decryptEvent_null_keeps_state_witness :
  decryptEvent Sample.primitives Sample.bob Sample.strangerEvent = (None, Sample.bob).
Proof.
  apply (proj1 (decryptEvent_null_keeps_state Sample.primitives Sample.bob
                  Sample.strangerEvent)); reflexivity.
Defined.




End Session.

(** ** InviteList.ts: lookups, removal and the fields [merge] computes *)

Module InviteListOps.

Import InviteList.

(** *** [Map] facts used below *)

Lemma values_set_new {V} k (v : V) (m : JsMap.t string V) :
  JsMap.get k m = None -> JsMap.values (JsMap.set k v m) = JsMap.values m ++ [v].
Proof.
  induction m as [|[k0 v0] m IH]; simpl; [reflexivity|].
  destruct (String.eqb k k0); [discriminate|]. intros G. simpl. now rewrite IH.
Qed.

Lemma keys_set_present {V} k (v : V) (m : JsMap.t string V) :
  JsMap.get k m <> None -> JsMap.keys (JsMap.set k v m) = JsMap.keys m.
Proof.
  intros G. apply JsMap.keys_set_in.
  destruct (JsMap.get k m) eqn:E; [|congruence]. eapply JsMap.get_Some_keys; eauto.
Qed.

(** *** [addDevice], [getDevice], [removeDevice] *)

(** X1.  [addDevice] of a device whose id is not in [removed]: [getDevice]
    of that id returns the device, every other id reads as before and
    [removed] is untouched.  An entry already under that id is replaced
    where it stands (the ids keep their order); a new id goes last. *)
Theorem addDevice_then_getDevice (l : InviteList) (d : DeviceEntry) :
  isRemoved l (deviceId d) = false ->
  getDevice (addDevice l d) (deviceId d) = Some d /\
  (forall id, id <> deviceId d -> getDevice (addDevice l d) id = getDevice l id) /\
  removed (addDevice l d) = removed l /\
  (getDevice l (deviceId d) <> None ->
     JsMap.keys (devices (addDevice l d)) = JsMap.keys (devices l)) /\
  (getDevice l (deviceId d) = None ->
     getAllDevices (addDevice l d) = getAllDevices l ++ [d]).
Proof.
  intros R. unfold addDevice, getDevice, getAllDevices. rewrite R. simpl.
  split; [apply JsMap.get_set_eq|].
  split; [intros id N; apply JsMap.get_set_ne; congruence|].
  split; [reflexivity|].
  split; [apply keys_set_present | apply values_set_new].
Qed.

Lemma addDevice_then_getDevice_witness :
  getDevice (addDevice listA phone_renamed) "phone" = Some phone_renamed /\
  getAllDevices (addDevice listA laptop) = [phone; laptop].
Proof.
  destruct (@addDevice_then_getDevice listA phone_renamed eq_refl) as (H1 & _).
  destruct (@addDevice_then_getDevice listA laptop eq_refl) as (_ & _ & _ & _ & H5).
  split; [exact H1 | exact (H5 eq_refl)].
Defined.

(** X2.  [removeDevice] of an id that is not among the devices changes
    nothing: no entry goes to [removed], so the id can still be added
    later.  Removing twice is removing once, whatever the clock says the
    second time. *)
Theorem removeDevice_unknown_or_twice (now_ms later_ms : Z) (l : InviteList) (id : string) :
  (getDevice l id = None ->
     removeDevice now_ms l id = l /\
     forall d, deviceId d = id -> isRemoved l id = false ->
       getDevice (addDevice (removeDevice now_ms l id) d) id = Some d) /\
  removeDevice later_ms (removeDevice now_ms l id) id = removeDevice now_ms l id.
Proof.
  split.
  - intros G. unfold getDevice in G.
    assert (E : removeDevice now_ms l id = l).
    { unfold removeDevice, JsMap.has. now rewrite G. }
    split; [exact E|]. intros d Hd R. rewrite E. unfold addDevice, getDevice.
    rewrite Hd, R. simpl. apply JsMap.get_set_eq.
  - unfold removeDevice at 2. destruct (negb (JsMap.has id (devices l))) eqn:H.
    + unfold removeDevice. now rewrite H.
    + unfold removeDevice at 1. simpl. unfold JsMap.has.
      rewrite JsMap.get_delete_eq. simpl. unfold removeDevice. now rewrite H.
Qed.

Lemma removeDevice_unknown_or_twice_witness :
  removeDevice 200000 listA "laptop" = listA /\
  getDevice (addDevice (removeDevice 200000 listA "laptop") laptop) "laptop" = Some laptop.
Proof.
  destruct (removeDevice_unknown_or_twice 200000 0 listA "laptop") as [H _].
  destruct (H eq_refl) as [H1 H2]. split; [exact H1|]. apply H2; reflexivity.
Defined.

(** *** [merge] *)

Lemma keepFold_keys rm es acc id :
  In id (JsMap.keys (fold_left (keepStep rm) es acc)) ->
  In id (JsMap.keys acc) \/ JsMap.has id rm = false.
Proof.
  revert acc. induction es as [|e es IH]; simpl; intros acc Hin; [now left|].
  destruct (IH _ Hin) as [H|H]; [|now right].
  unfold keepStep in H. destruct (JsMap.has (deviceId (fst e)) rm) eqn:R; [now left|].
  apply JsMap.In_keys_set in H. destruct H as [->|H]; [now right | now left].
Qed.

(** X3.  Whatever the two lists hold (also lists that break the
    invariant, as [fromEvent] can return): in [a.merge(b)] no removed id is
    among the devices, every device sits under its own id, once, and no id
    is listed twice in [removed]. *)
Theorem merge_restores_invariant (a b : InviteList) :
  removed_absent (merge a b) /\
  wf (merge a b) /\
  NoDup (removedIds (merge a b)).
Proof.
  assert (K : removedIds (merge a b)
              = JsMap.keys (removedMapOf (removed a ++ removed b))).
  { unfold removedIds, merge. simpl. apply keyed_ids_keys, removedMapOf_keyed. }
  split; [|split].
  - intros id Hin. rewrite K in Hin. apply JsMap.has_true in Hin.
    apply JsMap.get_None_keys. intros Hk. unfold merge in Hk. simpl in Hk.
    apply keepFold_keys in Hk. destruct Hk as [[]|Hk]. congruence.
  - apply merge_wf.
  - rewrite K. apply (proj1 (removedMapOf_keyed (removed a ++ removed b))).
Qed.

(** The entry [removedStep] leaves under an id. *)
Lemma removedStep_get m r id :
  JsMap.get id (removedStep m r)
  = if String.eqb id (removedId r)
    then match JsMap.get id m with
         | None => Some r
         | Some e => if JsNumber.gt (timestamp r) (timestamp e) then Some r else Some e
         end
    else JsMap.get id m.
Proof.
  unfold removedStep. destruct (String.eqb id (removedId r)) eqn:E.
  - apply String.eqb_eq in E. subst id.
    destruct (JsMap.get (removedId r) m) as [e|] eqn:G.
    + destruct (JsNumber.gt (timestamp r) (timestamp e)); [apply JsMap.get_set_eq | exact G].
    + apply JsMap.get_set_eq.
  - apply String.eqb_neq in E.
    destruct (JsMap.get (removedId r) m) as [e|].
    + destruct (JsNumber.gt (timestamp r) (timestamp e)); [|reflexivity].
      apply JsMap.get_set_ne. congruence.
    + apply JsMap.get_set_ne. congruence.
Qed.

(** [>] on the numbers: a strict order on the integers, and false next
    to [NaN]. *)
Lemma gt_irrefl x : JsNumber.gt x x = false.
Proof. destruct x as [z|]; simpl; [|reflexivity]. rewrite Z.gtb_ltb. apply Z.ltb_irrefl. Qed.

Lemma gt_trans x y z :
  JsNumber.gt x y = true -> JsNumber.gt y z = true -> JsNumber.gt x z = true.
Proof.
  destruct x, y, z; simpl; try discriminate. rewrite !Z.gtb_ltb, !Z.ltb_lt. lia.
Qed.

Lemma gt_asym x y : JsNumber.gt x y = true -> JsNumber.gt y x = false.
Proof.
  destruct x, y; simpl; try discriminate.
  rewrite !Z.gtb_ltb, Z.ltb_lt, Z.ltb_ge. lia.
Qed.

Lemma gt_below r e e1 :
  JsNumber.gt r e1 = false -> JsNumber.gt e e1 = true -> JsNumber.gt r e = false.
Proof.
  destruct r, e, e1; simpl; try discriminate; try reflexivity.
  rewrite !Z.gtb_ltb, Z.ltb_lt, !Z.ltb_ge. lia.
Qed.

Lemma gt_le x y :
  x <> JsNumber.NaN -> y <> JsNumber.NaN ->
  JsNumber.gt x y = false -> JsNumber.le x y = true.
Proof.
  destruct x, y; simpl; try congruence. intros _ _.
  rewrite Z.gtb_ltb, Z.ltb_ge, Z.leb_le. lia.
Qed.

(** After the first loop of [merge] the entry under an id is the entry
    that was there, or a greater one among the entries met; none of the
    entries met is greater than it. *)
Lemma removedFold_latest rs : forall m id e,
  JsMap.get id (fold_left removedStep rs m) = Some e ->
  (JsMap.get id m = Some e \/ (In e rs /\ removedId e = id)) /\
  (forall e0, JsMap.get id m = Some e0 ->
     e = e0 \/ JsNumber.gt (timestamp e) (timestamp e0) = true) /\
  (forall r, In r rs -> removedId r = id -> JsNumber.gt (timestamp r) (timestamp e) = false).
Proof.
  induction rs as [|r rs IH]; simpl; intros m id e G.
  - split; [now left|]. split; [|intros r []].
    intros e0 G0. rewrite G in G0. injection G0 as ->. now left.
  - destruct (IH _ _ _ G) as (H1 & H2 & H3).
    rewrite removedStep_get in H1, H2.
    destruct (String.eqb id (removedId r)) eqn:E.
    + apply String.eqb_eq in E.
      assert (Own : e = r \/ JsNumber.gt (timestamp e) (timestamp r) = true ->
                    JsNumber.gt (timestamp r) (timestamp e) = false).
      { intros [->|C]; [apply gt_irrefl | now apply gt_asym]. }
      destruct (JsMap.get id m) as [e1|] eqn:G1.
      * destruct (JsNumber.gt (timestamp r) (timestamp e1)) eqn:C.
        -- specialize (H2 _ eq_refl).
           split; [destruct H1 as [[= <-]|[H1 H1']]; right; split; auto|].
           split.
           ++ intros e0 [= <-]. right.
              destruct H2 as [->|H2]; [assumption | exact (gt_trans _ _ _ H2 C)].
           ++ intros r' [<-|Hin] Hid; [exact (Own H2) | auto].
        -- specialize (H2 _ eq_refl).
           split; [destruct H1 as [H1|[H1 H1']]; [now left | right; split; auto]|].
           split; [intros e0 [= <-]; assumption|].
           intros r' [<-|Hin] Hid; [|auto].
           destruct H2 as [->|H2]; [assumption | exact (gt_below _ _ _ C H2)].
      * specialize (H2 _ eq_refl).
        split; [destruct H1 as [[= <-]|[H1 H1']]; right; split; auto|].
        split; [discriminate|].
        intros r' [<-|Hin] Hid; [exact (Own H2) | auto].
    + apply String.eqb_neq in E.
      split; [destruct H1 as [H1|[H1 H1']]; [now left | right; split; auto]|].
      split; [assumption|].
      intros r' [<-|Hin] Hid; [congruence | auto].
Qed.

(** An entry whose timestamp is [NaN] is never replaced. *)
Lemma removedFold_NaN rs : forall m id e,
  JsMap.get id m = Some e -> timestamp e = JsNumber.NaN ->
  JsMap.get id (fold_left removedStep rs m) = Some e.
Proof.
  induction rs as [|r rs IH]; simpl; intros m id e G T; [assumption|].
  apply IH; [|assumption]. rewrite removedStep_get.
  destruct (String.eqb id (removedId r)); [|assumption].
  rewrite G, T. now destruct (timestamp r).
Qed.

(** X4.  Every entry of the merged [removed] is an entry of one of the two
    lists, and no entry of theirs for the same device has a greater
    timestamp; every device removed in one of the lists is removed in the
    merged one.  When no timestamp is [NaN], the merged entry is at least as
    late as every entry for its device.  But an entry with the timestamp
    [NaN] (which [fromEvent] makes of a tag that is no numeral) that comes
    first for its device, the entries of [this] before those of [other], is
    the one kept, whatever the timestamps of the others. *)
Theorem merge_removed_latest (a b : InviteList) :
  (forall r, In r (removed (merge a b)) ->
     In r (removed a ++ removed b) /\
     forall r', In r' (removed a ++ removed b) -> removedId r' = removedId r ->
       JsNumber.gt (timestamp r') (timestamp r) = false) /\
  (forall r', In r' (removed a ++ removed b) ->
     exists r, In r (removed (merge a b)) /\ removedId r = removedId r') /\
  ((forall r, In r (removed a ++ removed b) -> timestamp r <> JsNumber.NaN) ->
   forall r r', In r (removed (merge a b)) -> In r' (removed a ++ removed b) ->
     removedId r' = removedId r -> JsNumber.le (timestamp r') (timestamp r) = true) /\
  (forall before r after, removed a ++ removed b = before ++ r :: after ->
     ~ In (removedId r) (map removedId before) -> timestamp r = JsNumber.NaN ->
     In r (removed (merge a b))).
Proof.
  pose proof (removedMapOf_keyed (removed a ++ removed b)) as K.
  assert (Met : forall r, In r (removed (merge a b)) ->
            In r (removed a ++ removed b) /\
            forall r', In r' (removed a ++ removed b) -> removedId r' = removedId r ->
              JsNumber.gt (timestamp r') (timestamp r) = false).
  { intros r Hin. unfold merge in Hin. simpl in Hin.
    apply (keyed_values_get r K) in Hin.
    destruct (removedFold_latest _ _ _ Hin) as ([H1|[H1 _]] & _ & H3); [discriminate|].
    split; [assumption | exact H3]. }
  split; [exact Met|]. split; [|split].
  - intros r' Hin.
    assert (Hk : In (removedId r') (JsMap.keys (removedMapOf (removed a ++ removed b)))).
    { apply JsMap.has_true, removedMapOf_has. now apply in_map. }
    destruct (JsMap.In_keys_get _ _ Hk) as [r G]. exists r.
    destruct (removedFold_latest _ _ _ G) as ([H1|[_ H1]] & _ & _); [discriminate|].
    split; [|assumption].
    unfold merge. simpl. apply (keyed_values_get r K). now rewrite H1.
  - intros N r r' Hin Hin' Hid. destruct (Met r Hin) as [Hr Hgt].
    apply gt_le; auto.
  - intros before r after E Hnot T. unfold merge. simpl.
    assert (G : JsMap.get (removedId r) (fold_left removedStep before JsMap.empty) = None).
    { apply JsMap.get_None_keys. intros Hk. apply removedFold_keys in Hk.
      destruct Hk as [[]|Hk]. contradiction. }
    apply (keyed_values_get r K). unfold removedMapOf. rewrite E, fold_left_app.
    cbn [fold_left]. apply removedFold_NaN; [|assumption].
    now rewrite removedStep_get, String.eqb_refl, G.
Qed.

(** The phone removed again, later, from another copy of the list; and a
    list read from an event whose [removed] tag holds no numeral. *)
Definition removedLater : InviteList := removeDevice 300000 listA "phone".

Definition removedSomeTime : InviteList :=
  {| owner := "owner"; devices := [];
     removed := [{| removedId := "phone"; timestamp := JsNumber.NaN |}];
     mainDeviceId := None; version := JsNumber.Num 1; createdAt := 100 |}.

Lemma merge_removed_latest_witness :
  (forall r', In r' (removed listC ++ removed removedLater) -> removedId r' = "phone" ->
     JsNumber.le (timestamp r') (JsNumber.Num 300) = true) /\
  removed (merge removedSomeTime removedLater)
  = [{| removedId := "phone"; timestamp := JsNumber.NaN |}].
Proof.
  split.
  - assert (H : In {| removedId := "phone"; timestamp := JsNumber.Num 300 |}
                   (removed (merge listC removedLater))) by (vm_compute; now left).
    intros r' Hin Hid.
    refine (proj1 (proj2 (proj2 (@merge_removed_latest listC removedLater))) _ _ r' H Hin Hid).
    intros r [E|[E|[]]]; subst r; discriminate.
  - pose proof (proj2 (proj2 (proj2 (@merge_removed_latest removedSomeTime removedLater)))
                  [] {| removedId := "phone"; timestamp := JsNumber.NaN |}
                  (removed removedLater) eq_refl (fun H => H) eq_refl) as H.
    destruct (removed (merge removedSomeTime removedLater)) as [|r [|r2 rest]] eqn:E;
      try discriminate E.
    destruct H as [<-|[]]. reflexivity.
Defined.

Lemma merge_activeIds a b id :
  wf a -> wf b ->
  (In id (activeIds (merge a b))
   <-> (In id (activeIds a) \/ In id (activeIds b)) /\
       ~ In id (removedIds a) /\ ~ In id (removedIds b)).
Proof.
  intros Wa Wb.
  rewrite (activeIds_get _ (merge_wf a b)), (activeIds_get _ Wa), (activeIds_get _ Wb).
  rewrite (merge_get _ Wa Wb).
  destruct (JsMap.has id (removedMapOf (removed a ++ removed b))) eqn:R.
  - apply removedMapOf_has in R. rewrite map_app, in_app_iff in R.
    unfold removedIds. tauto.
  - assert (N : ~ In id (map removedId (removed a ++ removed b))).
    { intros Hin. apply removedMapOf_has in Hin. congruence. }
    rewrite map_app, in_app_iff in N. unfold removedIds.
    destruct (JsMap.get id (devices a)), (JsMap.get id (devices b));
      try destruct (createdAt b >? createdAt a)%Z;
      intuition congruence.
Qed.

(** X5.  A device id is active in [a.merge(b)] exactly when it is active
    in [a] or in [b] and removed in neither: a removal wins whatever the
    timestamps say.  Hence merging three lists gives the same active ids
    and the same removed ids in either grouping. *)
Theorem merge_active_ids (a b c : InviteList) :
  wf a -> wf b -> wf c ->
  (forall id, In id (activeIds (merge a b))
     <-> (In id (activeIds a) \/ In id (activeIds b)) /\
         ~ In id (removedIds a) /\ ~ In id (removedIds b)) /\
  same_set (activeIds (merge (merge a b) c)) (activeIds (merge a (merge b c))) /\
  same_set (removedIds (merge (merge a b) c)) (removedIds (merge a (merge b c))).
Proof.
  intros Wa Wb Wc.
  split; [intros id; now apply merge_activeIds|]. split.
  - intros id.
    rewrite (merge_activeIds id (merge_wf a b) Wc), (merge_activeIds id Wa (merge_wf b c)).
    rewrite (merge_activeIds id Wa Wb), (merge_activeIds id Wb Wc).
    rewrite !merge_removedIds. tauto.
  - intros id. rewrite !merge_removedIds. tauto.
Qed.

Lemma merge_active_ids_witness :
  In "laptop" (activeIds (merge listA listC)) /\
  ~ In "phone" (activeIds (merge listA listC)).
Proof.
  destruct (@merge_active_ids listA listC listA wf_listA wf_listC wf_listA) as (H & _).
  split.
  - apply H. split; [right; simpl; now left|].
    split; [intros [] | simpl; intros [E|[]]; discriminate].
  - intros Hin. apply H in Hin. destruct Hin as (_ & _ & N). apply N. simpl. now left.
Defined.

End InviteListOps.

(** ** InviteList.ts: [getEvent] and [fromEvent] *)

Module InviteListEvent.

Import InviteList.

(** The event as it comes back from a signer or a relay: the unsigned
    event with its [id] and [sig]. *)
Definition signedWith (i s : string) (e : Event) : Event :=
  {| id := Some i; pubkey := pubkey e; created_at := created_at e; kind := kind e;
     tags := tags e; content := content e; sig := Some s |}.

(** [ephemeralPublicKey && sharedSecret && deviceId && label] *)
Definition complete (d : DeviceEntry) : bool :=
  truthy (ephemeralPublicKey d) && truthy (sharedSecret d) && truthy (deviceId d)
  && truthy (label d).

Definition withoutPrivateKey (d : DeviceEntry) : DeviceEntry :=
  {| ephemeralPublicKey := ephemeralPublicKey d; sharedSecret := sharedSecret d;
     deviceId := deviceId d; label := label d; ephemeralPrivateKey := None |}.

(** What a list keeps of itself through its event: the devices with no
    empty field, their private keys left out; the removed entries with an
    id; a main device id that is not empty. *)
Definition readBack (l : InviteList) : InviteList :=
  {| owner := owner l;
     devices := map (fun p => (fst p, withoutPrivateKey (snd p)))
                    (filter (fun p => complete (snd p)) (devices l));
     removed := filter (fun r => truthy (removedId r)) (removed l);
     mainDeviceId := if truthy_opt (mainDeviceId l) then mainDeviceId l else None;
     version := version l;
     createdAt := createdAt l |}.

(** Nothing is lost but the private keys. *)
Definition publishable (l : InviteList) : bool :=
  forallb (fun p => complete (snd p)) (devices l)
  && forallb (fun r => truthy (removedId r)) (removed l)
  && match mainDeviceId l with Some m => truthy m | None => true end.

Definition withoutPrivateKeys (l : InviteList) : InviteList :=
  set_devices l (map (fun p => (fst p, withoutPrivateKey (snd p))) (devices l)).

(** *** What [fromEvent] returns *)

Lemma truthy_ne s : truthy s = true <-> s <> "".
Proof.
  unfold truthy. rewrite negb_true_iff. apply String.eqb_neq.
Qed.

Section Parsed.

(** [verifyEvent] of nostr-tools and [Number(string)]. *)
Variable verifyEvent : Event -> bool.
Variable Number : string -> JsNumber.t.

Definition public (l : InviteList) : Prop :=
  (forall k d, In (k, d) (devices l) -> ephemeralPrivateKey d = None /\ complete d = true) /\
  (forall r, In r (removed l) -> removedId r <> "") /\
  mainDeviceId l <> Some "".

Lemma parseTag_public l tag : public l -> public (parseTag Number l tag).
Proof.
  intros (Hd & Hr & Hm). unfold parseTag.
  destruct tag as [|t0 rest]; [exact (conj Hd (conj Hr Hm))|].
  destruct (String.eqb t0 "device" && _).
  { destruct rest as [|e [|s0 [|d [|lb r]]]]; try exact (conj Hd (conj Hr Hm)).
    destruct (truthy e && truthy s0 && truthy d && truthy lb) eqn:C;
      [|exact (conj Hd (conj Hr Hm))].
    split; [|split; assumption]. simpl. intros k v Hin.
    apply JsMap.In_set in Hin. destruct Hin as [E|Hin]; [|now apply (Hd k)].
    injection E as -> ->. split; [reflexivity | exact C]. }
  destruct (String.eqb t0 "removed" && _).
  { destruct rest as [|d [|ts r]]; try exact (conj Hd (conj Hr Hm)).
    destruct (truthy d && truthy ts) eqn:C; [|exact (conj Hd (conj Hr Hm))].
    split; [assumption|]. split; [|assumption]. simpl. intros r0 Hin.
    apply in_app_iff in Hin. destruct Hin as [Hin|[<-|[]]]; [auto|]. simpl.
    apply andb_true_iff in C. now apply truthy_ne. }
  destruct (String.eqb t0 "main-device" && _) eqn:C.
  { split; [assumption|]. split; [assumption|].
    apply andb_true_iff in C. destruct C as [_ C]. simpl in *.
    destruct rest as [|m rest']; [discriminate|].
    simpl in *. apply truthy_ne in C. congruence. }
  destruct (String.eqb t0 "version" && _); exact (conj Hd (conj Hr Hm)).
Qed.

Lemma parseTag_owner l tag :
  owner (parseTag Number l tag) = owner l /\
  createdAt (parseTag Number l tag) = createdAt l.
Proof.
  unfold parseTag. destruct tag as [|t0 rest]; [tauto|].
  destruct (String.eqb t0 "device" && _).
  { destruct rest as [|e [|s0 [|d [|lb r]]]]; try tauto.
    destruct (truthy e && truthy s0 && truthy d && truthy lb); simpl; tauto. }
  destruct (String.eqb t0 "removed" && _).
  { destruct rest as [|d [|ts r]]; try tauto.
    destruct (truthy d && truthy ts); simpl; tauto. }
  destruct (String.eqb t0 "main-device" && _); [simpl; tauto|].
  destruct (String.eqb t0 "version" && _); simpl; tauto.
Qed.

Lemma parseTags_public tgs : forall l,
  public l ->
  public (fold_left (parseTag Number) tgs l) /\
  owner (fold_left (parseTag Number) tgs l) = owner l /\
  createdAt (fold_left (parseTag Number) tgs l) = createdAt l.
Proof.
  induction tgs as [|tag tgs IH]; simpl; intros l Hp; [tauto|].
  destruct (IH _ (parseTag_public tag Hp)) as (H1 & H2 & H3).
  destruct (parseTag_owner l tag) as [H4 H5].
  split; [assumption|]. split; congruence.
Qed.

Lemma fromEvent_parsed (ev : Event) (l : InviteList) :
  fromEvent verifyEvent Number ev = inr l ->
  public l /\ owner l = pubkey ev /\ createdAt l = created_at ev.
Proof.
  intros F. unfold fromEvent in F. destruct (negb (truthy_opt (sig ev))); [discriminate|].
  destruct (negb (verifyEvent ev)); [discriminate|]. injection F as <-.
  apply parseTags_public.
  split; [intros k d []|]. split; [intros r []|]. discriminate.
Qed.

(** X6.  A list that [fromEvent] returns is made of the event's public
    data only: its owner is the pubkey of the event and its [createdAt] the
    event's [created_at]; no device carries a private key or an empty key,
    secret, id or label (tags with an empty field are skipped); no removed
    entry has an empty id; every device sits under its own id. *)
Theorem fromEvent_reads_public_data (ev : Event) (l : InviteList) :
  fromEvent verifyEvent Number ev = inr l ->
  owner l = pubkey ev /\
  createdAt l = created_at ev /\
  wf l /\
  (forall d, In d (getAllDevices l) ->
     ephemeralPrivateKey d = None /\ ephemeralPublicKey d <> "" /\ sharedSecret d <> "" /\
     deviceId d <> "" /\ label d <> "") /\
  (forall r, In r (removed l) -> removedId r <> "") /\
  mainDeviceId l <> Some "".
Proof.
  intros F. pose proof (fromEvent_wf _ _ _ F) as W.
  destruct (fromEvent_parsed _ F) as ((Hd & Hr & Hm) & Ho & Hc).
  split; [exact Ho|]. split; [exact Hc|]. split; [exact W|].
  split; [|split; assumption].
  intros d Hin. unfold getAllDevices, JsMap.values in Hin. apply in_map_iff in Hin.
  destruct Hin as [[k d'] [E Hin]]. simpl in E. subst d'.
  destruct (Hd _ _ Hin) as [Hp Hc']. unfold complete in Hc'.
  rewrite !andb_true_iff, !truthy_ne in Hc'. tauto.
Qed.

End Parsed.

Section GetEvent.

(** [INVITE_LIST_KIND] of types.ts, [verifyEvent] of nostr-tools, and the
    conversions [Number(string)] and [String(number)]. *)
Variable INVITE_LIST_KIND : Z.
Variable verifyEvent : Event -> bool.
Variable Number : string -> JsNumber.t.
Variable toString : JsNumber.t -> string.

Definition deviceTag (d : DeviceEntry) : list string :=
  ["device"; ephemeralPublicKey d; sharedSecret d; deviceId d; label d].

Definition removedTag (r : RemovedEntry) : list string :=
  ["removed"; removedId r; toString (timestamp r)].

Definition mainDeviceTag (l : InviteList) : list (list string) :=
  match mainDeviceId l with
  | Some m => if truthy m then [["main-device"; m]] else []
  | None => []
  end.

Definition getEvent (l : InviteList) : Event :=
  {| id := None;
     pubkey := owner l;
     created_at := createdAt l;
     kind := INVITE_LIST_KIND;
     tags := [["d"; "double-ratchet/invite-list"]]
             ++ map deviceTag (JsMap.values (devices l))
             ++ map removedTag (removed l)
             ++ mainDeviceTag l
             ++ [["version"; toString (version l)]];
     content := "";
     sig := None |}.

(** *** The round trip *)

Hypothesis Number_toString : forall z, Number (toString z) = z.
Hypothesis toString_truthy : forall z, toString z <> "".

Definition keepDevice (m : JsMap.t string DeviceEntry) (d : DeviceEntry)
  : JsMap.t string DeviceEntry :=
  if complete d then JsMap.set (deviceId d) (withoutPrivateKey d) m else m.

Lemma set_devices_same l : set_devices l (devices l) = l.
Proof. now destruct l. Qed.

Lemma set_removed_same l : set_removed l (removed l) = l.
Proof. now destruct l. Qed.

Lemma parse_deviceTag l d :
  parseTag Number l (deviceTag d) = set_devices l (keepDevice (devices l) d).
Proof.
  unfold keepDevice, complete. simpl.
  destruct (truthy (ephemeralPublicKey d) && truthy (sharedSecret d) && truthy (deviceId d)
            && truthy (label d)); [reflexivity | now rewrite set_devices_same].
Qed.

Lemma parse_deviceTags ds : forall l,
  fold_left (parseTag Number) (map deviceTag ds) l
  = set_devices l (fold_left keepDevice ds (devices l)).
Proof.
  induction ds as [|d ds IH]; intros l; [simpl; now rewrite set_devices_same|].
  change (fold_left (parseTag Number) (map deviceTag (d :: ds)) l)
    with (fold_left (parseTag Number) (map deviceTag ds) (parseTag Number l (deviceTag d))).
  rewrite IH, parse_deviceTag. reflexivity.
Qed.

Lemma set_new_last {V} k (v : V) (m : JsMap.t string V) :
  JsMap.get k m = None -> JsMap.set k v m = m ++ [(k, v)].
Proof.
  induction m as [|[k0 v0] m IH]; simpl; [reflexivity|].
  destruct (String.eqb k k0); [discriminate|]. intros G. now rewrite IH.
Qed.

Lemma keepDevices_keyed (m : JsMap.t string DeviceEntry) : forall acc,
  keyed deviceId m ->
  (forall k, In k (JsMap.keys m) -> JsMap.get k acc = None) ->
  fold_left keepDevice (JsMap.values m) acc
  = acc ++ map (fun p => (fst p, withoutPrivateKey (snd p)))
               (filter (fun p => complete (snd p)) m).
Proof.
  induction m as [|[k d] m IH]; intros acc K Hfresh; simpl; [now rewrite app_nil_r|].
  destruct (keyed_tail K) as (Hk & K' & Hnone). simpl in Hk.
  unfold keepDevice at 2. destruct (complete d) eqn:C.
  - rewrite IH; [|assumption|].
    + rewrite Hk, set_new_last by (apply Hfresh; now left).
      simpl. now rewrite <- app_assoc.
    + intros k0 Hin. rewrite Hk.
      destruct (String.eqb k k0) eqn:E.
      * apply String.eqb_eq in E. subst k0. apply JsMap.get_None_keys in Hnone. contradiction.
      * apply String.eqb_neq in E. rewrite JsMap.get_set_ne by assumption.
        apply Hfresh. now right.
  - apply IH; [assumption|]. intros k0 Hin. apply Hfresh. now right.
Qed.

Lemma parse_removedTags rs : forall l,
  fold_left (parseTag Number) (map removedTag rs) l
  = set_removed l (removed l ++ filter (fun r => truthy (removedId r)) rs).
Proof.
  induction rs as [|r rs IH]; simpl; intros l.
  - now rewrite app_nil_r, set_removed_same.
  - rewrite IH.
    assert (T : truthy (toString (timestamp r)) = true) by apply truthy_ne, toString_truthy.
    rewrite T, andb_true_r, Number_toString.
    destruct (truthy (removedId r)); simpl; [|reflexivity].
    rewrite <- app_assoc. simpl. now destruct r.
Qed.

Lemma parse_mainDeviceTag l0 l :
  fold_left (parseTag Number) (mainDeviceTag l0) l
  = if truthy_opt (mainDeviceId l0) then set_mainDeviceId l (mainDeviceId l0) else l.
Proof.
  unfold mainDeviceTag. destruct (mainDeviceId l0) as [m|]; simpl; [|reflexivity].
  destruct (truthy m) eqn:T; simpl; [|reflexivity]. now rewrite T.
Qed.

(** X7.  Publishing a list and reading it back: [fromEvent] on the signed
    [getEvent] of a list returns the list without the private keys of its
    devices; a device with an empty key, secret, id or label, a removed
    entry with an empty id and an empty main device id do not come back.
    When there is no such entry, the private keys are all that is lost. *)
Theorem fromEvent_getEvent (l : InviteList) (i s : string) :
  wf l ->
  s <> "" ->
  verifyEvent (signedWith i s (getEvent l)) = true ->
  fromEvent verifyEvent Number (signedWith i s (getEvent l)) = inr (readBack l) /\
  (publishable l = true -> readBack l = withoutPrivateKeys l).
Proof.
  intros W Hs Hv. split.
  - unfold fromEvent. rewrite Hv. simpl.
    apply truthy_ne in Hs. rewrite Hs. simpl. f_equal.
    rewrite !fold_left_app, parse_deviceTags, parse_removedTags, parse_mainDeviceTag.
    simpl. rewrite (@keepDevices_keyed (devices l) JsMap.empty W) by (intros; reflexivity).
    unfold JsMap.empty. rewrite app_nil_l.
    assert (T : truthy (toString (version l)) = true) by apply truthy_ne, toString_truthy.
    unfold readBack. destruct (truthy_opt (mainDeviceId l)); simpl;
      rewrite T, Number_toString; reflexivity.
  - unfold publishable. rewrite !andb_true_iff. intros [[Hd Hr] Hm].
    unfold readBack, withoutPrivateKeys, set_devices. f_equal.
    + f_equal. rewrite forallb_forall in Hd.
      clear - Hd. induction (devices l) as [|p m IH]; simpl; [reflexivity|].
      rewrite (Hd p) by now left. rewrite IH; [reflexivity|].
      intros x Hin. apply Hd. now right.
    + rewrite forallb_forall in Hr.
      clear - Hr. induction (removed l) as [|r rs IH]; simpl; [reflexivity|].
      rewrite (Hr r) by now left. rewrite IH; [reflexivity|].
      intros x Hin. apply Hr. now right.
    + destruct (mainDeviceId l) as [m|]; simpl; [now rewrite Hm | reflexivity].
Qed.

End GetEvent.

(** *** On decimal numerals *)

Definition decimalOf (n : JsNumber.t) : string :=
  match n with
  | JsNumber.Num z => DecimalString.NilEmpty.string_of_int (Z.to_int z)
  | JsNumber.NaN => "NaN"
  end.

Definition numberOf (s : string) : JsNumber.t :=
  match DecimalString.NilEmpty.int_of_string s with
  | Some d => JsNumber.Num (Z.of_int d)
  | None => JsNumber.NaN
  end.

Lemma numberOf_decimalOf n : numberOf (decimalOf n) = n.
Proof.
  destruct n as [z|]; [|reflexivity].
  unfold numberOf, decimalOf. rewrite DecimalString.NilEmpty.isi. f_equal. apply DecimalZ.of_to.
Qed.

Lemma decimalOf_truthy n : decimalOf n <> "".
Proof.
  intros E. pose proof (numberOf_decimalOf n) as N. rewrite E in N.
  change (numberOf "") with (JsNumber.Num 0) in N. subst n. discriminate.
Qed.

(** A list with a device that holds its private key, a device without a
    label and a removed entry. *)
Definition tablet : DeviceEntry :=
  {| ephemeralPublicKey := "eph-tablet"; sharedSecret := "0a0b";
     deviceId := "tablet"; label := "Tablet";
     ephemeralPrivateKey := Some [Byte.x05; Byte.x06] |}.

Definition unnamed : DeviceEntry :=
  {| ephemeralPublicKey := "eph-x"; sharedSecret := "0c0d";
     deviceId := "x"; label := ""; ephemeralPrivateKey := None |}.

Definition listE : InviteList :=
  set_mainDeviceId
    (removeDevice 300000 (addDevice (addDevice (addDevice (create 100000 "owner") tablet)
                                       unnamed) phone) "phone")
    (Some "tablet").

Lemma fromEvent_reads_public_data_witness :
  owner parsedList = "owner" /\
  (forall d, In d (getAllDevices parsedList) -> ephemeralPrivateKey d = None).
Proof.
  destruct (@fromEvent_reads_public_data sampleVerify sampleNumber listEvent parsedList eq_refl)
    as (Ho & _ & _ & Hd & _).
  split; [exact Ho|]. intros d Hin. exact (proj1 (Hd d Hin)).
Defined.

Lemma fromEvent_getEvent_witness :
  fromEvent sampleVerify numberOf (signedWith "e2" "sig-of-owner" (getEvent 10078 decimalOf listE))
  = inr {| owner := "owner";
           devices := [("tablet", withoutPrivateKey tablet)];
           removed := [{| removedId := "phone"; timestamp := JsNumber.Num 300 |}];
           mainDeviceId := Some "tablet"; version := JsNumber.Num 1; createdAt := 100 |} /\
  readBack listC = withoutPrivateKeys listC.
Proof.
  split.
  - refine (proj1 (@fromEvent_getEvent 10078 sampleVerify numberOf decimalOf
                     numberOf_decimalOf decimalOf_truthy listE "e2" "sig-of-owner" _ _ _)).
    + unfold listE, wf. simpl. split.
      * repeat constructor; simpl; intuition discriminate.
      * intros k v [E|[E|[]]]; now inversion E.
    + discriminate.
    + reflexivity.
  - refine (proj2 (@fromEvent_getEvent 10078 sampleVerify numberOf decimalOf
                     numberOf_decimalOf decimalOf_truthy listC "e3" "sig-of-owner"
                     wf_listC _ _) _).
    + discriminate.
    + reflexivity.
    + reflexivity.
Defined.

End InviteListEvent.

(** ** InviteList.ts: [accept] and [listen] *)

Module InviteListHandshake.

Import InviteList.

Definition Bytes := InviteUtils.Bytes.

Record AcceptParams := {
  a_deviceId : string;
  a_inviteePublicKey : string;
  a_inviteePrivateKey : Bytes;
  a_inviteeDeviceId : option string
}.

(** The two errors the class throws itself, and an exception out of a
    call it makes. *)
Inductive Failure :=
| DeviceNotFound
| NoPrivateKey
| Thrown.

Section Handshake.

Variable P : InviteUtils.Primitives.

(** [Session.init] of Session.ts, as in [Invite.listen]. *)
Variable Session : Type.
Variable Session_init :
  option InviteUtils.jvalue -> Bytes -> bool -> Bytes -> option string -> option Session.

(** [accept(params)], called by the invitee.  [sessionKey] is the secret
    key that [generateEphemeralKeypair] draws for the session, [rnd] what
    [encryptInviteResponse] draws. *)
Definition accept (l : InviteList) (params : AcceptParams) (sessionKey : Bytes)
  (rnd : InviteUtils.Entropy) : Failure + (Session * Event) :=
  match getDevice l (a_deviceId params) with
  | None => inl DeviceNotFound
  | Some device =>
    match Invite.createSessionFromAccept P Session_init
            (Some (InviteUtils.JStr (ephemeralPublicKey device)))
            (sharedSecret device) true sessionKey None with
    | None => inl Thrown
    | Some session =>
      match InviteUtils.encryptInviteResponse P
              {| InviteUtils.inviteeSessionPublicKey := InviteUtils.getPublicKey P sessionKey;
                 InviteUtils.inviteePublicKey := a_inviteePublicKey params;
                 InviteUtils.inviteePrivateKey := a_inviteePrivateKey params;
                 InviteUtils.inviterPublicKey := owner l;
                 InviteUtils.inviterEphemeralPublicKey := ephemeralPublicKey device;
                 InviteUtils.sharedSecret := sharedSecret device;
                 InviteUtils.deviceId := a_inviteeDeviceId params |} rnd with
      | None => inl Thrown
      | Some event => inr (session, event)
      end
    end
  end.

(** The handler that [listen] subscribes: the call of [onSession] it
    makes for an event, or none when anything throws (the handler's [catch]
    swallows it). *)
Definition handle (device : DeviceEntry) (priv ownerPrivateKey : Bytes) (ev : Event)
  : option (Invite.OnSessionCall Session) :=
  match InviteUtils.decryptInviteResponse P
          {| InviteUtils.event := ev;
             InviteUtils.inviterEphemeralPrivateKey := priv;
             InviteUtils.inviterPrivateKey := ownerPrivateKey;
             InviteUtils.d_sharedSecret := sharedSecret device |} with
  | None => None
  | Some result =>
    match Invite.createSessionFromAccept P Session_init
            (InviteUtils.r_sessionKey result) (sharedSecret device) false priv (id ev) with
    | None => None
    | Some session =>
      Some {| Invite.c_event := ev; Invite.c_session := session;
              Invite.c_identity := InviteUtils.r_inviteePublicKey result;
              Invite.c_deviceId := InviteUtils.r_deviceId result |}
    end
  end.

(** [listen(params)], called by the owner: the subscribed handler, or the
    error thrown. *)
Definition listen (l : InviteList) (deviceId : string) (ownerPrivateKey : Bytes)
  : Failure + (Event -> option (Invite.OnSessionCall Session)) :=
  match getDevice l deviceId with
  | None => inl DeviceNotFound
  | Some device =>
    match ephemeralPrivateKey device with
    | None => inl NoPrivateKey
    | Some priv => inr (handle device priv ownerPrivateKey)
    end
  end.

(** An invite response opens under the keys it was made for. *)
Lemma response_opens (L : InviteUtils.Laws P)
  (params : InviteUtils.EncryptInviteResponseParams) (rnd : InviteUtils.Entropy)
  (inviterEphemeralPriv inviterPriv : Bytes) (ev : Event) :
  InviteUtils.inviteePublicKey params
    = InviteUtils.getPublicKey P (InviteUtils.inviteePrivateKey params) ->
  InviteUtils.inviterPublicKey params = InviteUtils.getPublicKey P inviterPriv ->
  InviteUtils.inviterEphemeralPublicKey params
    = InviteUtils.getPublicKey P inviterEphemeralPriv ->
  InviteUtils.encryptInviteResponse P params rnd = Some ev ->
  InviteUtils.decryptInviteResponse P
    {| InviteUtils.event := ev;
       InviteUtils.inviterEphemeralPrivateKey := inviterEphemeralPriv;
       InviteUtils.inviterPrivateKey := inviterPriv;
       InviteUtils.d_sharedSecret := InviteUtils.sharedSecret params |}
  = Some {| InviteUtils.r_inviteePublicKey := InviteUtils.inviteePublicKey params;
            InviteUtils.r_sessionKey :=
              Some (InviteUtils.JStr (InviteUtils.inviteeSessionPublicKey params));
            InviteUtils.r_deviceId :=
              option_map InviteUtils.JStr (InviteUtils.deviceId params) |}.
Proof.
  intros Hinvitee Hinviter Heph Henc.
  unfold InviteUtils.encryptInviteResponse in Henc.
  unfold InviteUtils.decryptInviteResponse. simpl.
  destruct (InviteUtils.hexToBytes P (InviteUtils.sharedSecret params)) as [ss|];
    [simpl in *|discriminate].
  destruct (InviteUtils.getConversationKey P (InviteUtils.inviteePrivateKey params) _)
    as [dhKey|] eqn:Hdh; [simpl in Henc|discriminate].
  destruct (InviteUtils.nip44_encrypt P _ dhKey _) as [dhEncrypted|] eqn:E1;
    [simpl in Henc|discriminate].
  destruct (InviteUtils.nip44_encrypt P dhEncrypted ss _) as [innerContent|] eqn:E2;
    [simpl in Henc|discriminate].
  destruct (InviteUtils.getConversationKey P (InviteUtils.randomSenderKey rnd) _)
    as [envKey|] eqn:Henv; [simpl in Henc|discriminate].
  destruct (InviteUtils.nip44_encrypt P _ envKey _) as [envContent|] eqn:E3;
    [simpl in Henc|discriminate].
  injection Henc as <-. simpl.
  rewrite (InviteUtils.conversation_symmetric L), <- Heph, Henv. simpl.
  rewrite (InviteUtils.nip44_roundtrip L _ _ _ E3). simpl.
  rewrite (InviteUtils.JSON_roundtrip L). simpl.
  rewrite (InviteUtils.nip44_roundtrip L _ _ _ E2). simpl.
  rewrite Hinvitee, (InviteUtils.conversation_symmetric L), <- Hinviter, Hdh. simpl.
  rewrite (InviteUtils.nip44_roundtrip L _ _ _ E1). simpl.
  rewrite (InviteUtils.JSON_roundtrip L). simpl.
  destruct (InviteUtils.deviceId params); reflexivity.
Qed.

(** What an invite response shows on its outside. *)
Lemma response_envelope params rnd ev :
  InviteUtils.encryptInviteResponse P params rnd = Some ev ->
  kind ev = InviteUtils.INVITE_RESPONSE_KIND P /\
  pubkey ev = InviteUtils.getPublicKey P (InviteUtils.randomSenderKey rnd) /\
  tags ev = [["p"; InviteUtils.inviterEphemeralPublicKey params]].
Proof.
  unfold InviteUtils.encryptInviteResponse. intros H.
  destruct (InviteUtils.hexToBytes P _); [simpl in H|discriminate].
  destruct (InviteUtils.getConversationKey P (InviteUtils.inviteePrivateKey params) _);
    [simpl in H|discriminate].
  destruct (InviteUtils.nip44_encrypt P _ _ (InviteUtils.nonce1 rnd)); [simpl in H|discriminate].
  destruct (InviteUtils.nip44_encrypt P _ _ (InviteUtils.nonce2 rnd)); [simpl in H|discriminate].
  destruct (InviteUtils.getConversationKey P (InviteUtils.randomSenderKey rnd) _);
    [simpl in H|discriminate].
  destruct (InviteUtils.nip44_encrypt P _ _ (InviteUtils.nonce3 rnd)); [simpl in H|discriminate].
  injection H as <-. simpl. auto.
Qed.

(** X8.  The handshake through an invite list.  The invitee accepts the
    invite of a device whose owner holds the matching private keys; the
    event it gets is of the invite-response kind, is sent under the
    throwaway sender key and carries the one tag [p] with the device's
    ephemeral key, which is what [listen] subscribes to.  Handed to the
    handler of [listen], it makes one call of [onSession] with the
    invitee's public key and device id, for the session that [Session.init]
    builds on the owner's side from the invitee's session key, the device's
    private key and the same secret, named after the event. *)
Theorem accept_then_listen (L : InviteUtils.Laws P)
  (l : InviteList) (params : AcceptParams) (sessionKey : Bytes) (rnd : InviteUtils.Entropy)
  (device : DeviceEntry) (devicePriv ownerPriv secret : Bytes)
  (session : Session) (ev : Event) :
  getDevice l (a_deviceId params) = Some device ->
  ephemeralPrivateKey device = Some devicePriv ->
  ephemeralPublicKey device = InviteUtils.getPublicKey P devicePriv ->
  owner l = InviteUtils.getPublicKey P ownerPriv ->
  a_inviteePublicKey params = InviteUtils.getPublicKey P (a_inviteePrivateKey params) ->
  InviteUtils.hexToBytes P (sharedSecret device) = Some secret ->
  accept l params sessionKey rnd = inr (session, ev) ->
  Session_init (Some (InviteUtils.JStr (ephemeralPublicKey device))) sessionKey true secret None
    = Some session /\
  kind ev = InviteUtils.INVITE_RESPONSE_KIND P /\
  pubkey ev = InviteUtils.getPublicKey P (InviteUtils.randomSenderKey rnd) /\
  tags ev = [["p"; ephemeralPublicKey device]] /\
  exists handler,
    listen l (a_deviceId params) ownerPriv = inr handler /\
    handler ev
    = option_map
        (fun s => {| Invite.c_event := ev; Invite.c_session := s;
                     Invite.c_identity := a_inviteePublicKey params;
                     Invite.c_deviceId :=
                       option_map InviteUtils.JStr (a_inviteeDeviceId params) |})
        (Session_init (Some (InviteUtils.JStr (InviteUtils.getPublicKey P sessionKey)))
           devicePriv false secret (id ev)).
Proof.
  intros Hdev Hpriv Hpub Howner Hinvitee Hhex Hacc.
  unfold accept in Hacc. rewrite Hdev in Hacc.
  unfold Invite.createSessionFromAccept in Hacc. rewrite Hhex in Hacc.
  destruct (Session_init _ sessionKey true secret None) as [s0|] eqn:Hinit; [|discriminate].
  match type of Hacc with
  | match InviteUtils.encryptInviteResponse P ?p rnd with _ => _ end = _ =>
    destruct (InviteUtils.encryptInviteResponse P p rnd) as [e|] eqn:Henc; [|discriminate];
    pose proof (response_envelope _ _ Henc) as (Hk & Hp & Ht);
    pose proof (@response_opens L p rnd devicePriv ownerPriv e Hinvitee Howner Hpub Henc) as Hdec
  end.
  injection Hacc as -> ->. simpl in *.
  split; [reflexivity|]. split; [exact Hk|]. split; [exact Hp|]. split; [exact Ht|].
  unfold listen. rewrite Hdev, Hpriv. eexists. split; [reflexivity|].
  unfold handle. rewrite Hdec. simpl.
  unfold Invite.createSessionFromAccept. rewrite Hhex.
  destruct (Session_init _ devicePriv false secret (id ev)); reflexivity.
Qed.

(** X9.  When [accept] and [listen] throw.  A device that is not in the
    list, and a device that has just been removed, is "not found" for
    both.  A device without its private key cannot listen; so no device of
    a list read from an event can: [listen] throws for every device id. *)
Theorem listen_needs_the_private_key (l : InviteList) (deviceId : string)
  (params : AcceptParams) (sessionKey ownerPriv : Bytes) (rnd : InviteUtils.Entropy) :
  (getDevice l (a_deviceId params) = None ->
     accept l params sessionKey rnd = inl DeviceNotFound) /\
  (getDevice l deviceId = None -> listen l deviceId ownerPriv = inl DeviceNotFound) /\
  (forall now_ms,
     accept (removeDevice now_ms l (a_deviceId params)) params sessionKey rnd
       = inl DeviceNotFound /\
     listen (removeDevice now_ms l deviceId) deviceId ownerPriv = inl DeviceNotFound) /\
  (forall device, getDevice l deviceId = Some device -> ephemeralPrivateKey device = None ->
     listen l deviceId ownerPriv = inl NoPrivateKey) /\
  (forall verifyEvent Number ev, fromEvent verifyEvent Number ev = inr l ->
     listen l deviceId ownerPriv = inl DeviceNotFound \/
     listen l deviceId ownerPriv = inl NoPrivateKey).
Proof.
  assert (Gone : forall now_ms id, getDevice (removeDevice now_ms l id) id = None).
  { intros now_ms id0. unfold getDevice, removeDevice.
    destruct (JsMap.has id0 (devices l)) eqn:H; simpl.
    - apply JsMap.get_delete_eq.
    - now apply JsMap.has_false. }
  split; [intros G; unfold accept; now rewrite G|].
  split; [intros G; unfold listen; now rewrite G|].
  split.
  { intros now_ms. unfold accept, listen. now rewrite !Gone. }
  split; [intros device G N; unfold listen; now rewrite G, N|].
  intros ver num ev F. unfold listen.
  destruct (getDevice l deviceId) as [device|] eqn:G; [right | now left].
  destruct (InviteListEvent.fromEvent_parsed _ _ _ F) as ((Hd & _) & _).
  unfold getDevice in G. apply JsMap.get_Some_In in G.
  now rewrite (proj1 (Hd _ _ G)).
Qed.

End Handshake.

(** *** The handshake on the sample primitives *)

Definition ownerList : InviteList :=
  addDevice (create 100000 (InviteUtils.getPublicKey InviteUtils.Sample.primitives
                              InviteUtils.Sample.inviterPriv))
    {| ephemeralPublicKey := InviteUtils.getPublicKey InviteUtils.Sample.primitives
                               InviteUtils.Sample.inviterEphemeralPriv;
       sharedSecret := "0a0b"; deviceId := "tablet"; label := "Tablet";
       ephemeralPrivateKey := Some InviteUtils.Sample.inviterEphemeralPriv |}.

Definition inviteeParams : AcceptParams :=
  {| a_deviceId := "tablet";
     a_inviteePublicKey := InviteUtils.getPublicKey InviteUtils.Sample.primitives
                             InviteUtils.Sample.inviteePriv;
     a_inviteePrivateKey := InviteUtils.Sample.inviteePriv;
     a_inviteeDeviceId := Some "invitee-phone" |}.

Definition accepted : Failure + (string * Event) :=
  accept InviteUtils.Sample.primitives Invite.sampleInit ownerList inviteeParams
    InviteUtils.Sample.sessionPriv InviteUtils.Sample.entropy.

Definition acceptedEvent : Event :=
  match accepted with
  | inr (_, e) => e
  | inl _ => InviteList.listEvent
  end.

Lemma accept_then_listen_witness :
  exists handler,
    listen InviteUtils.Sample.primitives Invite.sampleInit ownerList "tablet"
      InviteUtils.Sample.inviterPriv = inr handler /\
    option_map (fun c => (Invite.c_identity c, Invite.c_deviceId c)) (handler acceptedEvent)
    = Some (InviteUtils.getPublicKey InviteUtils.Sample.primitives
              InviteUtils.Sample.inviteePriv,
            Some (InviteUtils.JStr "invitee-phone")).
Proof.
  destruct (accepted) as [f|[s e]] eqn:A; [discriminate A|].
  assert (Ee : acceptedEvent = e) by (unfold acceptedEvent; now rewrite A).
  unfold accepted in A.
  destruct (@accept_then_listen InviteUtils.Sample.primitives string Invite.sampleInit
              InviteUtils.Sample.sample_laws ownerList inviteeParams
              InviteUtils.Sample.sessionPriv InviteUtils.Sample.entropy
              {| ephemeralPublicKey := InviteUtils.getPublicKey InviteUtils.Sample.primitives
                                         InviteUtils.Sample.inviterEphemeralPriv;
                 sharedSecret := "0a0b"; deviceId := "tablet"; label := "Tablet";
                 ephemeralPrivateKey := Some InviteUtils.Sample.inviterEphemeralPriv |}
              InviteUtils.Sample.inviterEphemeralPriv InviteUtils.Sample.inviterPriv
              (list_byte_of_string "0a0b") s e
              eq_refl eq_refl eq_refl eq_refl eq_refl eq_refl A)
    as (_ & _ & _ & _ & handler & Hl & Hh).
  exists handler. split; [exact Hl|]. rewrite Ee, Hh. reflexivity.
Defined.

Lemma listen_needs_the_private_key_witness :
  listen InviteUtils.Sample.primitives Invite.sampleInit InviteList.parsedList "phone"
    InviteUtils.Sample.inviterPriv = inl NoPrivateKey /\
  listen InviteUtils.Sample.primitives Invite.sampleInit
    (removeDevice 200000 ownerList "tablet") "tablet" InviteUtils.Sample.inviterPriv
  = inl DeviceNotFound.
Proof.
  destruct (@listen_needs_the_private_key InviteUtils.Sample.primitives string
              Invite.sampleInit InviteList.parsedList "phone" inviteeParams
              InviteUtils.Sample.sessionPriv InviteUtils.Sample.inviterPriv
              InviteUtils.Sample.entropy) as (_ & _ & _ & H & _).
  destruct (@listen_needs_the_private_key InviteUtils.Sample.primitives string
              Invite.sampleInit ownerList "tablet" inviteeParams
              InviteUtils.Sample.sessionPriv InviteUtils.Sample.inviterPriv
              InviteUtils.Sample.entropy) as (_ & _ & H3 & _).
  split; [apply (H InviteList.phone); reflexivity | apply (H3 200000%Z)].
Defined.

End InviteListHandshake.

(** ** Invite.ts: [getEvent], [getDeletionEvent], [fromEvent], [fromUser] *)

Module InviteEvent.

Import Invite.

(** [s.split(sep)] for a separator of one character. *)
Fixpoint split (sep : ascii) (s : string) : list string :=
  match s with
  | EmptyString => [EmptyString]
  | String c r =>
    if Ascii.eqb c sep then EmptyString :: split sep r
    else match split sep r with
         | h :: t => String c h :: t
         | [] => [String c EmptyString]
         end
  end.

(** Whether a character occurs in a string. *)
Fixpoint occurs (c : ascii) (s : string) : bool :=
  match s with
  | EmptyString => false
  | String x r => Ascii.eqb x c || occurs c r
  end.

(** [tags.find(([key]) => key === name)?.[1]] *)
Definition tagValue (name : string) (tgs : list (list string)) : option string :=
  match find (fun t => match t with k :: _ => String.eqb k name | [] => false end) tgs with
  | Some t => nth_error t 1
  | None => None
  end.

(** [const now = () => Math.round(Date.now() / 1000)], [now_ms] being
    [Date.now()], a whole number of milliseconds. *)
Definition now (now_ms : Z) : Z := (now_ms + 500) / 1000.

(** [deviceTag?.split('/')?.[2]] *)
Definition deviceIdOf (deviceTag : option string) : option string :=
  match deviceTag with
  | Some t => nth_error (split "/" t) 2
  | None => None
  end.

Inductive FromEventError :=
| NotSigned
| InvalidSignature
| MissingKeys.

Section Events.

(** [INVITE_EVENT_KIND] of types.ts and [verifyEvent] of nostr-tools. *)
Variable INVITE_EVENT_KIND : Z.
Variable verifyEvent : Event -> bool.

(** [getEvent()]: throws ([None]) without a device id. *)
Definition getEvent (i : Invite) : option Event :=
  match deviceId i with
  | Some d =>
    if truthy d then
      Some {| id := None; pubkey := inviter i; created_at := createdAt i;
              kind := INVITE_EVENT_KIND;
              tags := [ ["ephemeralKey"; inviterEphemeralPublicKey i];
                        ["sharedSecret"; sharedSecret i];
                        ["d"; ("double-ratchet/invites/" ++ d)%string];
                        ["l"; "double-ratchet/invites"] ];
              content := ""; sig := None |}
    else None
  | None => None
  end.

(** [getDeletionEvent()], at time [now_ms]. *)
Definition getDeletionEvent (now_ms : Z) (i : Invite) : option Event :=
  match deviceId i with
  | Some d =>
    if truthy d then
      Some {| id := None; pubkey := inviter i; created_at := now_ms / 1000;
              kind := INVITE_EVENT_KIND;
              tags := [ ["ephemeralKey"; inviterEphemeralPublicKey i];
                        ["sharedSecret"; sharedSecret i];
                        ["d"; ("double-ratchet/invites/" ++ d)%string] ];
              content := ""; sig := None |}
    else None
  | None => None
  end.

(** [Invite.fromEvent(event)], at time [now_ms] (the constructor stamps
    [createdAt] with [now()]).  [tags] is always an array here, so the
    "missing tags" error cannot arise. *)
Definition fromEvent (now_ms : Z) (event : Event) : FromEventError + Invite :=
  if negb (truthy_opt (sig event)) then inl NotSigned
  else if negb (verifyEvent event) then inl InvalidSignature
  else
    let inviterEphemeralPublicKey := tagValue "ephemeralKey" (tags event) in
    let sharedSecret := tagValue "sharedSecret" (tags event) in
    let deviceTag := tagValue "d" (tags event) in
    let deviceId := deviceIdOf deviceTag in
    match inviterEphemeralPublicKey, sharedSecret with
    | Some e, Some s =>
      if truthy e && truthy s then
        inr {| inviterEphemeralPublicKey := e; sharedSecret := s; inviter := pubkey event;
               inviterEphemeralPrivateKey := None; deviceId := deviceId;
               maxUses := None; usedBy := []; createdAt := now now_ms |}
      else inl MissingKeys
    | _, _ => inl MissingKeys
    end.

(** *** [fromUser] *)

(** The state of the subscription that [fromUser] opens: the ids seen and
    the calls of [onInvite] so far, each with the event it answers. *)
Record Watch := {
  seenIds : list (option string);
  invites : list (Event * Invite)
}.

Definition same_id (a b : option string) : bool :=
  match a, b with
  | Some x, Some y => String.eqb x y
  | None, None => true
  | _, _ => false
  end.

(** [seenIds.has(event.id)] *)
Definition seen (w : Watch) (i : option string) : bool := existsb (same_id i) (seenIds w).

(** The handler, for an event that arrives at time [now_ms].  An event of
    another pubkey and an event whose id was seen are dropped; the id is
    recorded before the event is parsed; what [fromEvent] throws is
    swallowed. *)
Definition onEvent (user : string) (w : Watch) (arrival : Z * Event) : Watch :=
  let (now_ms, event) := arrival in
  if negb (String.eqb (pubkey event) user) then w
  else if seen w (id event) then w
  else
    match fromEvent now_ms event with
    | inr invite => {| seenIds := seenIds w ++ [id event];
                       invites := invites w ++ [(event, invite)] |}
    | inl _ => {| seenIds := seenIds w ++ [id event]; invites := invites w |}
    end.

Definition fromUser (user : string) (arrivals : list (Z * Event)) : Watch :=
  fold_left (onEvent user) arrivals {| seenIds := []; invites := [] |}.

(** *** Strings cut at a separator *)

Lemma split_cons sep s : exists h t, split sep s = h :: t.
Proof.
  induction s as [|c r IH]; simpl; [eauto|].
  destruct (Ascii.eqb c sep); [eauto|].
  destruct IH as (h & t & ->). eauto.
Qed.

Lemma split_prefix sep p r :
  occurs sep p = false -> split sep (p ++ String sep r)%string = p :: split sep r.
Proof.
  induction p as [|c p IH]; simpl.
  - intros _. now rewrite Ascii.eqb_refl.
  - intros H. apply orb_false_iff in H. destruct H as [H1 H2].
    rewrite H1, (IH H2). reflexivity.
Qed.

Lemma split_whole sep s : occurs sep s = false -> split sep s = [s].
Proof.
  induction s as [|c r IH]; simpl; [reflexivity|].
  intros H. apply orb_false_iff in H. destruct H as [H1 H2].
  now rewrite H1, (IH H2).
Qed.

Lemma deviceId_of_tag d :
  deviceIdOf (Some ("double-ratchet/invites/" ++ d)%string) = Some (hd "" (split "/" d)).
Proof.
  unfold deviceIdOf.
  change ("double-ratchet/invites/" ++ d)%string
    with ("double-ratchet" ++ String "/" ("invites" ++ String "/" d))%string.
  rewrite split_prefix by reflexivity. rewrite split_prefix by reflexivity.
  simpl. destruct (split_cons "/" d) as (h & t & ->). reflexivity.
Qed.

(** What [fromEvent] makes of the signed event of an invite. *)
Definition readBack (now_ms : Z) (i : Invite) (d : string) : Invite :=
  {| inviterEphemeralPublicKey := inviterEphemeralPublicKey i;
     sharedSecret := sharedSecret i;
     inviter := inviter i;
     inviterEphemeralPrivateKey := None;
     deviceId := Some (hd "" (split "/" d));
     maxUses := None;
     usedBy := [];
     createdAt := now now_ms |}.

(** X10.  Publishing an invite and reading it back.  [getEvent] throws
    without a device id.  With one, [fromEvent] on the signed event returns
    the ephemeral key, the secret and the inviter; the private key, the use
    limit, [usedBy] and [createdAt] are not in the event, so the invite read
    back has no limit and is stamped with the time of reading.  The device
    id comes back cut at its first slash: whole when it holds none. *)
Theorem invite_event_round_trip (i : Invite) (now_ms : Z) (idStr sigStr : string) :
  ((deviceId i = None \/ deviceId i = Some "") -> getEvent i = None) /\
  (forall d, deviceId i = Some d -> d <> "" ->
     inviterEphemeralPublicKey i <> "" -> sharedSecret i <> "" -> sigStr <> "" ->
     exists e, getEvent i = Some e /\
       (verifyEvent (InviteListEvent.signedWith idStr sigStr e) = true ->
        fromEvent now_ms (InviteListEvent.signedWith idStr sigStr e)
          = inr (readBack now_ms i d)) /\
       (occurs "/" d = false -> hd "" (split "/" d) = d)).
Proof.
  split.
  - intros [E|E]; unfold getEvent; now rewrite E.
  - intros d Hd Hne He Hs Hsig. unfold getEvent. rewrite Hd.
    apply InviteListEvent.truthy_ne in Hne. rewrite Hne.
    eexists. split; [reflexivity|]. split.
    + intros Hv. unfold fromEvent. rewrite Hv. cbn -[deviceIdOf now truthy String.append].
      apply InviteListEvent.truthy_ne in Hsig, He, Hs. rewrite Hsig, He, Hs.
      cbn -[deviceIdOf now truthy String.append]. rewrite deviceId_of_tag. reflexivity.
    + intros H. now rewrite split_whole.
Qed.

(** X11.  The tombstone of an invite.  [getDeletionEvent] has the kind,
    the pubkey and the [d] tag of the invite's event, an empty content and
    no [l] tag; it still carries the ephemeral key and the shared secret, so
    that [fromEvent], given the signed tombstone, returns the same invite as
    for the invite's own event. *)
Theorem deletion_event_keeps_the_keys (i : Invite) (now_ms read_ms : Z) (d idStr sigStr : string) :
  deviceId i = Some d -> d <> "" ->
  exists e t,
    getEvent i = Some e /\ getDeletionEvent now_ms i = Some t /\
    kind t = kind e /\ pubkey t = pubkey e /\ content t = "" /\
    created_at t = (now_ms / 1000)%Z /\
    tagValue "d" (tags t) = tagValue "d" (tags e) /\
    tagValue "l" (tags e) = Some "double-ratchet/invites" /\
    tagValue "l" (tags t) = None /\
    tagValue "ephemeralKey" (tags t) = Some (inviterEphemeralPublicKey i) /\
    tagValue "sharedSecret" (tags t) = Some (sharedSecret i) /\
    (inviterEphemeralPublicKey i <> "" -> sharedSecret i <> "" -> sigStr <> "" ->
     verifyEvent (InviteListEvent.signedWith idStr sigStr t) = true ->
     fromEvent read_ms (InviteListEvent.signedWith idStr sigStr t)
       = inr (readBack read_ms i d)).
Proof.
  intros Hd Hne. unfold getEvent, getDeletionEvent. rewrite Hd.
  apply InviteListEvent.truthy_ne in Hne. rewrite Hne.
  eexists. eexists. split; [reflexivity|]. split; [reflexivity|].
  repeat (split; [reflexivity|]).
  intros He Hs Hsig Hv. unfold fromEvent. rewrite Hv. cbn -[deviceIdOf now truthy String.append].
  apply InviteListEvent.truthy_ne in Hsig, He, Hs. rewrite Hsig, He, Hs.
  cbn -[deviceIdOf now truthy String.append]. rewrite deviceId_of_tag. reflexivity.
Qed.

(** *** One call per event id *)

Lemma same_id_eq a b : same_id a b = true <-> a = b.
Proof.
  destruct a as [x|], b as [y|]; simpl; try (split; [discriminate | congruence]).
  - rewrite String.eqb_eq. split; congruence.
  - tauto.
Qed.

Lemma seen_In w i : seen w i = true <-> In i (seenIds w).
Proof.
  unfold seen. rewrite existsb_exists. split.
  - intros [x [Hin E]]. apply same_id_eq in E. now subst.
  - intros Hin. exists i. split; [assumption | now apply same_id_eq].
Qed.

(** The ids seen are those of the calls and of the events that did not
    parse; they are seen once. *)
Definition watch_inv (user : string) (arrivals : list (Z * Event)) (w : Watch) : Prop :=
  NoDup (seenIds w) /\
  (forall ev inv, In (ev, inv) (invites w) ->
     In (id ev) (seenIds w) /\ pubkey ev = user /\
     exists now_ms, In (now_ms, ev) arrivals /\ fromEvent now_ms ev = inr inv) /\
  NoDup (map (fun c => id (fst c)) (invites w)).

Lemma onEvent_inv user arrivals w a :
  In a arrivals -> watch_inv user arrivals w -> watch_inv user arrivals (onEvent user w a).
Proof.
  intros Ha (N & C & D). destruct a as [now_ms ev]. unfold onEvent.
  destruct (String.eqb (pubkey ev) user) eqn:E; simpl; [|exact (conj N (conj C D))].
  apply String.eqb_eq in E.
  destruct (seen w (id ev)) eqn:S; [exact (conj N (conj C D))|].
  assert (Hnew : ~ In (id ev) (seenIds w)).
  { intros Hin. apply seen_In in Hin. congruence. }
  assert (N' : NoDup (seenIds w ++ [id ev])).
  { apply NoDup_app; [assumption | repeat constructor; intros [] |].
    intros x Hx [<-|[]]. contradiction. }
  destruct (fromEvent now_ms ev) as [err|inv] eqn:F; split; simpl; try assumption.
  - split; [|assumption]. intros ev0 inv0 Hin. destruct (C _ _ Hin) as (H1 & H2 & H3).
    split; [apply in_app_iff; now left|]. split; assumption.
  - split.
    + intros ev0 inv0 Hin. apply in_app_iff in Hin. destruct Hin as [Hin|[[= <- <-]|[]]].
      * destruct (C _ _ Hin) as (H1 & H2 & H3).
        split; [apply in_app_iff; now left|]. split; assumption.
      * split; [apply in_app_iff; right; now left|]. split; [assumption|]. eauto.
    + rewrite map_app. simpl. apply NoDup_app; [assumption | repeat constructor; intros [] |].
      intros x Hx [<-|[]]. apply Hnew. apply in_map_iff in Hx.
      destruct Hx as [[ev0 inv0] [Ex Hin]]. simpl in Ex. rewrite <- Ex.
      exact (proj1 (C _ _ Hin)).
Qed.

Lemma watch_run_inv user arrivals evs : forall w,
  (forall a, In a evs -> In a arrivals) ->
  watch_inv user arrivals w -> watch_inv user arrivals (fold_left (onEvent user) evs w).
Proof.
  induction evs as [|a evs IH]; simpl; intros w Hsub I; [assumption|].
  apply IH; [intros; apply Hsub; now right|].
  apply onEvent_inv; [apply Hsub; now left | assumption].
Qed.

Lemma onEvent_seen user w a i :
  In i (seenIds w) -> In i (seenIds (onEvent user w a)).
Proof.
  intros Hin. destruct a as [now_ms ev]. unfold onEvent.
  destruct (negb _); [assumption|]. destruct (seen w (id ev)); [assumption|].
  destruct (fromEvent now_ms ev); simpl; apply in_app_iff; now left.
Qed.

Lemma onEvent_records user w now_ms ev :
  pubkey ev = user -> In (id ev) (seenIds (onEvent user w (now_ms, ev))).
Proof.
  intros E. unfold onEvent. apply String.eqb_eq in E. rewrite E. simpl.
  destruct (seen w (id ev)) eqn:S; [now apply seen_In|].
  destruct (fromEvent now_ms ev); simpl; apply in_app_iff; right; now left.
Qed.

Lemma watch_run_seen user evs : forall w,
  (forall i, In i (seenIds w) -> In i (seenIds (fold_left (onEvent user) evs w))) /\
  (forall now_ms ev, In (now_ms, ev) evs -> pubkey ev = user ->
     In (id ev) (seenIds (fold_left (onEvent user) evs w))).
Proof.
  induction evs as [|a evs IH]; simpl; intros w; [split; [auto | intros ? ? []]|].
  destruct (IH (onEvent user w a)) as [H1 H2]. split.
  - intros i Hin. apply H1. now apply onEvent_seen.
  - intros now_ms ev [->|Hin] E; [|eauto]. apply H1. now apply onEvent_records.
Qed.

Lemma watch_replay user evs' : forall w,
  (forall now_ms ev, In (now_ms, ev) evs' -> pubkey ev = user -> In (id ev) (seenIds w)) ->
  fold_left (onEvent user) evs' w = w.
Proof.
  induction evs' as [|[now_ms ev] evs' IH]; intros w H; [reflexivity|].
  cbn [fold_left].
  assert (E : onEvent user w (now_ms, ev) = w).
  { unfold onEvent. destruct (String.eqb (pubkey ev) user) eqn:P; simpl; [|reflexivity].
    apply String.eqb_eq in P.
    assert (seen w (id ev) = true) as -> by (apply seen_In; eapply H; [left; reflexivity | assumption]).
    reflexivity. }
  rewrite E. apply IH. intros; eapply H; [right|]; eauto.
Qed.

(** X12.  [fromUser] calls [onInvite] at most once per event id, only for
    events of the watched user that [fromEvent] accepts, with the invite it
    returns; and events that arrive again, at whatever time, change
    nothing. *)
Theorem fromUser_calls_once (user : string) (arrivals again : list (Z * Event)) :
  NoDup (map (fun c => id (fst c)) (invites (fromUser user arrivals))) /\
  (forall ev inv, In (ev, inv) (invites (fromUser user arrivals)) ->
     pubkey ev = user /\ inviter inv = user /\
     exists now_ms, In (now_ms, ev) arrivals /\ fromEvent now_ms ev = inr inv) /\
  ((forall now_ms ev, In (now_ms, ev) again -> exists earlier, In (earlier, ev) arrivals) ->
   fromUser user (arrivals ++ again) = fromUser user arrivals).
Proof.
  assert (I : watch_inv user arrivals (fromUser user arrivals)).
  { apply watch_run_inv; [auto|].
    split; [constructor|]. split; [intros ev inv []|constructor]. }
  destruct I as (_ & C & D). split; [exact D|]. split.
  - intros ev inv Hin. destruct (C _ _ Hin) as (_ & Hp & now_ms & Ha & F).
    split; [assumption|]. split; [|eauto].
    unfold fromEvent in F. destruct (negb (truthy_opt (sig ev))); [discriminate|].
    destruct (negb (verifyEvent ev)); [discriminate|].
    destruct (tagValue "ephemeralKey" (tags ev)) as [e|]; [|discriminate].
    destruct (tagValue "sharedSecret" (tags ev)) as [s|]; [|discriminate].
    destruct (truthy e && truthy s); [|discriminate]. injection F as <-. exact Hp.
  - intros H. unfold fromUser. rewrite fold_left_app. apply watch_replay.
    intros now_ms ev Hin Hp. destruct (H _ _ Hin) as [earlier He].
    eapply (proj2 (watch_run_seen user arrivals _)); eauto.
Qed.

End Events.

(** *** An invite on the sample verifier *)

Definition deskInvite : Invite :=
  {| inviterEphemeralPublicKey := "eph-desk"; sharedSecret := "0a0b"; inviter := "owner";
     inviterEphemeralPrivateKey := Some [Byte.x05; Byte.x06];
     deviceId := Some "desk"; maxUses := Some 3%Z; usedBy := ["carol"];
     createdAt := 1700000000 |}.

Definition deskEvent : Event :=
  match getEvent 30078 deskInvite with
  | Some e => InviteListEvent.signedWith "e9" "sig-of-owner" e
  | None => InviteList.listEvent
  end.

Lemma invite_event_round_trip_witness :
  fromEvent InviteList.sampleVerify 1700000500400 deskEvent
  = inr {| inviterEphemeralPublicKey := "eph-desk"; sharedSecret := "0a0b"; inviter := "owner";
           inviterEphemeralPrivateKey := None; deviceId := Some "desk";
           maxUses := None; usedBy := []; createdAt := 1700000500 |}.
Proof.
  destruct (proj2 (@invite_event_round_trip 30078 InviteList.sampleVerify deskInvite
                     1700000500400 "e9" "sig-of-owner") "desk" eq_refl)
    as (e & Ee & Hf & _); try discriminate.
  injection Ee as <-. exact (Hf eq_refl).
Defined.

Lemma deletion_event_keeps_the_keys_witness :
  exists t, getDeletionEvent 30078 1700000900000 deskInvite = Some t /\
    tagValue "l" (tags t) = None /\
    tagValue "sharedSecret" (tags t) = Some "0a0b".
Proof.
  destruct (@deletion_event_keeps_the_keys 30078 InviteList.sampleVerify deskInvite
              1700000900000 0 "desk" "e10" "sig-of-owner" eq_refl)
    as (e & t & _ & Ht & _ & _ & _ & _ & _ & _ & Hl & _ & Hs & _); [discriminate|].
  exists t. split; [exact Ht|]. split; [exact Hl | exact Hs].
Defined.

Lemma fromUser_calls_once_witness :
  map (fun c => id (fst c))
      (invites (fromUser InviteList.sampleVerify "owner"
                  ([(1700000500400%Z, deskEvent)] ++ [(1700000900000%Z, deskEvent)])))
  = [Some "e9"].
Proof.
  rewrite (proj2 (proj2 (@fromUser_calls_once InviteList.sampleVerify "owner"
                           [(1700000500400%Z, deskEvent)] [(1700000900000%Z, deskEvent)]))).
  - reflexivity.
  - intros now_ms ev [[= _ <-]|[]]. exists 1700000500400%Z. now left.
Defined.

End InviteEvent.

(** ** Invite.ts: [accept], and [listen] one response at a time *)

Module InviteHandshake.

Import Invite.

(** [encryptor: Uint8Array | EncryptFunction].  An encrypt function gets
    the payload and the inviter's public key. *)
Inductive Encryptor :=
| KeyEncryptor (key : Bytes)
| FnEncryptor (encrypt : string -> string -> option string).

Section Accept.

Variable P : InviteUtils.Primitives.
Variable Session : Type.
Variable Session_init :
  option InviteUtils.jvalue -> Bytes -> bool -> Bytes -> option string -> option Session.

(** [this.inviter || this.inviterEphemeralPublicKey] *)
Definition inviterPublicKeyOf (i : Invite) : string :=
  if truthy (inviter i) then inviter i else inviterEphemeralPublicKey i.

(** [accept(nostrSubscribe, inviteePublicKey, encryptor, deviceId)], called
    by the invitee.  [sessionKey] is the secret key drawn for the session,
    [rnd] the other values drawn; [None] is an exception. *)
Definition accept (i : Invite) (inviteePublicKey : string) (encryptor : Encryptor)
  (deviceId : option string) (sessionKey : Bytes) (rnd : InviteUtils.Entropy)
  : option (Session * Event) :=
  let inviterPublicKey := inviterPublicKeyOf i in
  match createSessionFromAccept P Session_init
          (Some (InviteUtils.JStr (inviterEphemeralPublicKey i)))
          (sharedSecret i) true sessionKey None with
  | None => None
  | Some session =>
    match encryptor with
    | FnEncryptor encrypt =>
      let payload :=
        InviteUtils.JSON_stringify P
          (InviteUtils.JObject
             (("sessionKey", InviteUtils.JStr (InviteUtils.getPublicKey P sessionKey))
              :: InviteUtils.optField "deviceId" deviceId)) in
      InviteUtils.bind (encrypt payload inviterPublicKey) (fun dhEncrypted =>
      InviteUtils.bind (InviteUtils.hexToBytes P (sharedSecret i)) (fun sharedSecretBytes =>
      InviteUtils.bind (InviteUtils.nip44_encrypt P dhEncrypted sharedSecretBytes
                          (InviteUtils.nonce2 rnd)) (fun innerContent =>
      let innerJson :=
        InviteUtils.JSON_stringify P
          (InviteUtils.JObject
             [("pubkey", InviteUtils.JStr inviteePublicKey);
              ("content", InviteUtils.JStr innerContent);
              ("created_at", InviteUtils.JNum (InviteUtils.now_ms rnd / 1000))]) in
      InviteUtils.bind (InviteUtils.getConversationKey P (InviteUtils.randomSenderKey rnd)
                          (inviterEphemeralPublicKey i)) (fun envelopeKey =>
      InviteUtils.bind (InviteUtils.nip44_encrypt P innerJson envelopeKey
                          (InviteUtils.nonce3 rnd)) (fun envelopeContent =>
      Some (session,
            InviteUtils.finalizeEvent P (InviteUtils.INVITE_RESPONSE_KIND P) envelopeContent
              (InviteUtils.randomNow rnd) [["p"; inviterEphemeralPublicKey i]]
              (InviteUtils.randomSenderKey rnd)))))))
    | KeyEncryptor key =>
      InviteUtils.bind
        (InviteUtils.encryptInviteResponse P
           {| InviteUtils.inviteeSessionPublicKey := InviteUtils.getPublicKey P sessionKey;
              InviteUtils.inviteePublicKey := inviteePublicKey;
              InviteUtils.inviteePrivateKey := key;
              InviteUtils.inviterPublicKey := inviterPublicKey;
              InviteUtils.inviterEphemeralPublicKey := inviterEphemeralPublicKey i;
              InviteUtils.sharedSecret := sharedSecret i;
              InviteUtils.deviceId := deviceId |} rnd)
        (fun event => Some (session, event))
    end
  end.

(** The encrypt function that does what [accept] does with a key. *)
Definition encryptWith (key : Bytes) (nonce : Bytes) (payload inviterPublicKey : string)
  : option string :=
  InviteUtils.bind (InviteUtils.getConversationKey P key inviterPublicKey) (fun k =>
  InviteUtils.nip44_encrypt P payload k nonce).

(** X13.  The two ways to accept agree: [accept] with an encrypt function
    that encrypts under the conversation key of the invitee's secret key and
    the inviter's public key returns what [accept] with that secret key
    returns, the session and the event, on the same draws. *)
Theorem accept_function_or_key (i : Invite) (inviteePublicKey : string) (key : Bytes)
  (deviceId : option string) (sessionKey : Bytes) (rnd : InviteUtils.Entropy) :
  accept i inviteePublicKey (FnEncryptor (encryptWith key (InviteUtils.nonce1 rnd)))
    deviceId sessionKey rnd
  = accept i inviteePublicKey (KeyEncryptor key) deviceId sessionKey rnd.
Proof.
  unfold accept, encryptWith, InviteUtils.encryptInviteResponse.
  destruct (createSessionFromAccept _ _ _ _ _ _ _) as [session|]; [|reflexivity]. simpl.
  destruct (InviteUtils.hexToBytes P (sharedSecret i)) as [ss|]; simpl.
  - destruct (InviteUtils.getConversationKey P key (inviterPublicKeyOf i)) as [k|];
      [simpl|reflexivity].
    destruct (InviteUtils.nip44_encrypt P _ k _) as [c1|]; [simpl|reflexivity].
    destruct (InviteUtils.nip44_encrypt P c1 ss _) as [c2|]; [simpl|reflexivity].
    destruct (InviteUtils.getConversationKey P (InviteUtils.randomSenderKey rnd) _) as [ek|];
      [simpl|reflexivity].
    destruct (InviteUtils.nip44_encrypt P _ ek _); reflexivity.
  - destruct (InviteUtils.getConversationKey P key (inviterPublicKeyOf i)) as [k|];
      [simpl|reflexivity].
    destruct (InviteUtils.nip44_encrypt P _ k _); reflexivity.
Qed.

(** *** From [accept] to [onSession] *)

(** The inviter handles one response at a time: each event is delivered
    and its handler runs to the end before the next event comes. *)
Definition oneAtATime (evs : list Event) : list Step :=
  flat_map (fun ev => [Deliver ev; Resume 0]) evs.

(** X14.  The handshake through an invite.  The invitee accepts, with its
    secret key, an invite that names the inviter; the inviter, who holds
    the invite with its ephemeral private key, is listening with its own
    secret key, has uses left and no handler in flight.  Once the event is
    delivered and its handler has run, the invitee's public key has been
    appended to [usedBy] and [onSession] has been called once more, with
    that key, the invitee's device id and the session that [Session.init]
    builds from the invitee's session key, when it builds one. *)
Theorem accept_then_onSession (L : InviteUtils.Laws P)
  (i : Invite) (w : World Session) (inviteePriv inviterPriv ephemeralPriv secret : Bytes)
  (deviceId : option string) (sessionKey : Bytes) (rnd : InviteUtils.Entropy)
  (session : Session) (ev : Event) :
  inviter i = InviteUtils.getPublicKey P inviterPriv ->
  inviter i <> "" ->
  inviterEphemeralPublicKey i = InviteUtils.getPublicKey P ephemeralPriv ->
  inviterEphemeralPublicKey (invite w) = inviterEphemeralPublicKey i ->
  sharedSecret (invite w) = sharedSecret i ->
  inviterEphemeralPrivateKey (invite w) = Some ephemeralPriv ->
  InviteUtils.hexToBytes P (sharedSecret i) = Some secret ->
  usedUp (invite w) = false ->
  pending w = [] ->
  accept i (InviteUtils.getPublicKey P inviteePriv) (KeyEncryptor inviteePriv)
    deviceId sessionKey rnd = Some (session, ev) ->
  let w' := run P Session_init (KeyDecryptor inviterPriv) (oneAtATime [ev]) w in
  usedBy (invite w') = usedBy (invite w) ++ [InviteUtils.getPublicKey P inviteePriv] /\
  pending w' = [] /\
  calls w'
  = calls w ++
    match Session_init (Some (InviteUtils.JStr (InviteUtils.getPublicKey P sessionKey)))
            ephemeralPriv false secret (id ev) with
    | Some s => [{| c_event := ev; c_session := s;
                    c_identity := InviteUtils.getPublicKey P inviteePriv;
                    c_deviceId := option_map InviteUtils.JStr deviceId |}]
    | None => []
    end.
Proof.
  intros Hinv Hne Heph Hweph Hwsec Hwpriv Hhex Hfree Hidle Hacc w'.
  unfold accept in Hacc.
  destruct (createSessionFromAccept _ _ _ _ _ _ _) as [s0|]; [|discriminate].
  simpl in Hacc.
  match type of Hacc with
  | InviteUtils.bind (InviteUtils.encryptInviteResponse P ?p rnd) _ = _ =>
    destruct (InviteUtils.encryptInviteResponse P p rnd) as [e|] eqn:Henc; [|discriminate];
    assert (Hdec := @InviteListHandshake.response_opens P L p rnd ephemeralPriv inviterPriv e)
  end.
  simpl in Hacc. injection Hacc as -> ->. simpl in Hdec.
  assert (Hpk : inviterPublicKeyOf i = InviteUtils.getPublicKey P inviterPriv).
  { unfold inviterPublicKeyOf. apply InviteListEvent.truthy_ne in Hne. now rewrite Hne. }
  specialize (Hdec eq_refl Hpk Heph Henc).
  subst w'. unfold oneAtATime, run. simpl.
  unfold deliver. rewrite Hfree, Hwpriv. unfold decryptResponse. rewrite Hwsec, Hdec.
  rewrite Hidle. unfold resume. simpl. rewrite Hwpriv.
  unfold createSessionFromAccept. rewrite Hwsec, Hhex.
  destruct (Session_init _ ephemeralPriv false secret (id ev)); simpl;
    rewrite ?app_nil_r; auto.
Qed.

(** *** The use limit, one response at a time *)

Lemma deliver_invite decryptor (w : World Session) ev :
  invite (deliver P decryptor w ev) = invite w /\
  calls (deliver P decryptor w ev) = calls w /\
  (usedUp (invite w) = true -> pending (deliver P decryptor w ev) = pending w) /\
  (pending w = [] -> length (pending (deliver P decryptor w ev)) <= 1).
Proof.
  unfold deliver. destruct (usedUp (invite w)) eqn:U.
  { repeat split; auto. intros ->. simpl. lia. }
  destruct (inviterEphemeralPrivateKey (invite w)).
  - destruct (decryptResponse P (invite w) b decryptor ev) as [[[a s] d]|]; simpl.
    + repeat split; auto; [discriminate | intros ->; simpl; lia].
    + repeat split; auto. intros ->. simpl. lia.
  - repeat split; auto. intros ->. simpl. lia.
Qed.

Lemma handled_one decryptor (w : World Session) ev :
  pending w = [] ->
  let w' := resume P Session_init (deliver P decryptor w ev) 0 in
  pending w' = [] /\
  maxUses (invite w') = maxUses (invite w) /\
  ((w' = w) \/
   (usedUp (invite w) = false /\
    length (usedBy (invite w')) = S (length (usedBy (invite w))) /\
    length (calls w') <= S (length (calls w)))).
Proof.
  intros Hidle. destruct (deliver_invite decryptor w ev) as (Hi & Hc & Hu & Hp).
  specialize (Hp Hidle). cbv zeta.
  remember (deliver P decryptor w ev) as w1 eqn:Ew1.
  unfold resume.
  destruct (pending w1) as [|p rest] eqn:Hpend; simpl.
  - split; [exact Hpend|]. split; [now rewrite Hi|]. left.
    destruct w as [wi wp wc], w1 as [di dp dc]. simpl in *. congruence.
  - destruct rest; [|simpl in Hp; lia].
    assert (F : usedUp (invite w) = false).
    { destruct (usedUp (invite w)) eqn:U; [|reflexivity].
      specialize (Hu eq_refl). congruence. }
    rewrite Hi, Hc.
    destruct (inviterEphemeralPrivateKey (invite w));
      [destruct (createSessionFromAccept _ _ _ _ _ _ _)|]; simpl;
      (split; [reflexivity|]; split; [reflexivity|]; right; split; [assumption|];
       rewrite ?length_app; simpl; split; lia).
Qed.

Lemma oneAtATime_bounded decryptor (m : nat) evs : forall (w : World Session),
  maxUses (invite w) = Some (Z.of_nat m) -> 0 < m -> pending w = [] ->
  let w' := run P Session_init decryptor (oneAtATime evs) w in
  pending w' = [] /\
  length (usedBy (invite w')) <= Nat.max m (length (usedBy (invite w))) /\
  length (calls w') + length (usedBy (invite w))
    <= length (calls w) + length (usedBy (invite w')).
Proof.
  induction evs as [|ev evs IH]; intros w Hm Hpos Hidle; simpl.
  - split; [assumption|]. split; lia.
  - destruct (handled_one decryptor w ev Hidle) as (Hp1 & Hm1 & Hstep). simpl in *.
    set (w1 := resume P Session_init (deliver P decryptor w ev) 0) in *.
    destruct (IH w1) as (Hp2 & Hu2 & Hc2); [congruence | assumption | assumption|].
    simpl in *. unfold run in *. split; [assumption|].
    destruct Hstep as [E|(F & Hu & Hc)].
    + rewrite E in *. split; assumption.
    + assert (length (usedBy (invite w)) < m).
      { unfold usedUp in F. rewrite Hm in F.
        assert ((Z.of_nat m =? 0)%Z = false) as E0 by (apply Z.eqb_neq; lia).
        rewrite E0 in F. simpl in F.
        destruct (Z.geb_spec (Z.of_nat (length (usedBy (invite w)))) (Z.of_nat m));
          [discriminate | lia]. }
      split; lia.
Qed.

(** X15.  With a use limit of [m] (not 0) and the responses handled one
    at a time, [usedBy] never grows beyond [m] entries (or beyond what it
    held already), and [onSession] is called at most once for each entry
    added: at most [m] times in all for a fresh invite. *)
Theorem sequential_uses_bounded decryptor (m : nat) (evs : list Event) (w : World Session) :
  maxUses (invite w) = Some (Z.of_nat m) -> 0 < m -> pending w = [] ->
  let w' := run P Session_init decryptor (oneAtATime evs) w in
  length (usedBy (invite w')) <= Nat.max m (length (usedBy (invite w))) /\
  length (calls w') + length (usedBy (invite w))
    <= length (calls w) + length (usedBy (invite w')) /\
  (usedBy (invite w) = [] -> calls w = [] -> length (calls w') <= m).
Proof.
  intros Hm Hpos Hidle w'.
  destruct (@oneAtATime_bounded decryptor m evs w Hm Hpos Hidle) as (_ & H1 & H2).
  fold w' in H1, H2. split; [assumption|]. split; [assumption|].
  intros E1 E2. rewrite E1, E2 in *. simpl in *. lia.
Qed.

End Accept.

(** *** On the sample primitives *)

Definition inviteeView : Invite :=
  {| inviterEphemeralPublicKey :=
       InviteUtils.getPublicKey InviteUtils.Sample.primitives
         InviteUtils.Sample.inviterEphemeralPriv;
     sharedSecret := "0a0b";
     inviter := InviteUtils.getPublicKey InviteUtils.Sample.primitives
                  InviteUtils.Sample.inviterPriv;
     inviterEphemeralPrivateKey := None; deviceId := None; maxUses := None;
     usedBy := []; createdAt := 1700000500 |}.

Definition acceptedByKey : option (string * Event) :=
  accept InviteUtils.Sample.primitives sampleInit inviteeView
    (InviteUtils.getPublicKey InviteUtils.Sample.primitives InviteUtils.Sample.inviteePriv)
    (KeyEncryptor InviteUtils.Sample.inviteePriv) (Some "device-1")
    InviteUtils.Sample.sessionPriv InviteUtils.Sample.entropy.

Lemma accept_then_onSession_witness :
  exists s ev,
    acceptedByKey = Some (s, ev) /\
    usedBy (invite (sampleRun (oneAtATime [ev]) (listening (Some 1%Z) [])))
    = [InviteUtils.getPublicKey InviteUtils.Sample.primitives InviteUtils.Sample.inviteePriv].
Proof.
  destruct acceptedByKey as [[s ev]|] eqn:A; [|discriminate A].
  exists s, ev. split; [reflexivity|].
  unfold acceptedByKey in A.
  exact (proj1 (@accept_then_onSession InviteUtils.Sample.primitives string sampleInit
                  InviteUtils.Sample.sample_laws inviteeView (listening (Some 1%Z) [])
                  InviteUtils.Sample.inviteePriv InviteUtils.Sample.inviterPriv
                  InviteUtils.Sample.inviterEphemeralPriv (list_byte_of_string "0a0b")
                  (Some "device-1") InviteUtils.Sample.sessionPriv InviteUtils.Sample.entropy
                  s ev eq_refl ltac:(discriminate) eq_refl eq_refl eq_refl eq_refl eq_refl
                  eq_refl eq_refl A)).
Defined.

Lemma sequential_uses_bounded_witness :
  length (calls (sampleRun (oneAtATime [response1; response2]) (listening (Some 1%Z) []))) <= 1.
Proof.
  apply (proj2 (proj2 (@sequential_uses_bounded InviteUtils.Sample.primitives string sampleInit
                         (KeyDecryptor InviteUtils.Sample.inviterPriv) 1
                         [response1; response2] (listening (Some 1%Z) [])
                         eq_refl ltac:(lia) eq_refl))); reflexivity.
Defined.

End InviteHandshake.

(** ** DeviceRecord.ts: [rotateSession], call after call *)

Module DeviceRecordHistory.

Import DeviceRecord.

(** The record of a device after the sessions of [history] were rotated
    in, oldest first. *)
Definition rotated (now : Z) (id : string) (history : list Session) : DeviceRecord :=
  fold_left rotateSession history (createDeviceRecord now id).

(** Two sessions at one address are one object. *)
Definition one_object_per_address (sessions : list Session) : Prop :=
  forall s s', In s sessions -> In s' sessions -> ref s = ref s' -> s = s'.

Definition tidy (sessions : list Session) (r : DeviceRecord) : Prop :=
  (activeSession r = None -> inactiveSessions r = []) /\
  length (inactiveSessions r) <= 1 /\
  (forall s, In s (inactiveSessions r) -> In s sessions) /\
  (forall a s, activeSession r = Some a -> In s (inactiveSessions r) ->
     name s <> name a /\ ref s <> ref a).

Lemma last_of_cons {A} (x : A) l d : last l x = last (x :: l) d.
Proof.
  revert x d. induction l as [|y l IH]; intros x d; [reflexivity|].
  change (last (x :: y :: l) d) with (last (y :: l) d).
  rewrite <- (IH y d). destruct l; [reflexivity|]. simpl. apply IH.
Qed.

Lemma rotateSession_active r s : activeSession (rotateSession r s) = Some s.
Proof.
  unfold rotateSession. destruct (activeSession r) as [c|]; [|reflexivity].
  destruct (same_object c s || String.eqb (name c) (name s)); reflexivity.
Qed.

Lemma rotateSession_keeps r s :
  deviceId (rotateSession r s) = deviceId r /\
  createdAt (rotateSession r s) = createdAt r /\
  staleAt (rotateSession r s) = staleAt r.
Proof.
  unfold rotateSession. destruct (activeSession r) as [c|]; [|now simpl].
  destruct (same_object c s || String.eqb (name c) (name s)); now simpl.
Qed.

Lemma rotateSession_tidy sessions r s :
  one_object_per_address sessions ->
  In s sessions -> (forall a, activeSession r = Some a -> In a sessions) ->
  tidy sessions r -> tidy sessions (rotateSession r s).
Proof.
  intros O Hs Ha (T0 & T1 & T2 & T3). unfold rotateSession.
  destruct (activeSession r) as [c|] eqn:A.
  - destruct (same_object c s || String.eqb (name c) (name s)) eqn:E.
    + split; [discriminate|]. split; [assumption|]. split; [assumption|].
      simpl. intros a x [= <-] Hin. destruct (T3 c x eq_refl Hin) as [Hn Hr].
      assert (Hc : In c sessions) by now apply Ha.
      apply orb_true_iff in E. destruct E as [E|E].
      * apply Nat.eqb_eq in E. rewrite <- (O c s Hc Hs E). auto.
      * apply String.eqb_eq in E. split; [congruence|].
        intros R. apply Hn. rewrite (O x s (T2 x Hin) Hs R). congruence.
    + apply orb_false_iff in E. destruct E as [E1 E2].
      apply Nat.eqb_neq in E1. apply String.eqb_neq in E2.
      simpl. rewrite slice_last_snoc.
      split; [discriminate|]. split; [simpl; lia|].
      split; [intros x [<-|[]]; now apply Ha|].
      intros a x [= <-] [<-|[]]. auto.
  - unfold tidy. simpl. rewrite (T0 eq_refl).
    split; [discriminate|]. split; [simpl; lia|].
    split; [intros x []|]. intros a x _ [].
Qed.

(** X16.  The record of a device, whatever sessions were rotated in since
    it was created: the active session is the one rotated in last; at most
    one session is inactive; the inactive session is another object than
    the active one and carries another name; the id and the creation time
    of the record never change.  Rotating the same session in twice is
    rotating it in once. *)
Theorem rotateSession_history (now : Z) (id : string) (history : list Session)
  (r : DeviceRecord) (s : Session) :
  one_object_per_address history ->
  activeSession (rotated now id history) = last (map Some history) None /\
  length (inactiveSessions (rotated now id history)) <= 1 /\
  (forall a x, activeSession (rotated now id history) = Some a ->
     In x (inactiveSessions (rotated now id history)) ->
     name x <> name a /\ ref x <> ref a /\ In x history) /\
  deviceId (rotated now id history) = id /\
  createdAt (rotated now id history) = now /\
  rotateSession (rotateSession r s) s = rotateSession r s.
Proof.
  intros O.
  assert (G : forall rest r0,
            (forall x, In x rest -> In x history) ->
            (forall a, activeSession r0 = Some a -> In a history) ->
            tidy history r0 ->
            let r1 := fold_left rotateSession rest r0 in
            tidy history r1 /\
            activeSession r1 = last (map Some rest) (activeSession r0) /\
            deviceId r1 = deviceId r0 /\ createdAt r1 = createdAt r0).
  { induction rest as [|x rest IH]; intros r0 Hsub Ha T; [simpl; auto|].
    cbn [fold_left]. cbv zeta.
    destruct (IH (rotateSession r0 x)) as (T' & A' & D' & C').
    - intros y Hy. apply Hsub. now right.
    - intros a. rewrite rotateSession_active. intros [= <-]. apply Hsub. now left.
    - apply rotateSession_tidy; auto. apply Hsub. now left.
    - split; [assumption|].
      destruct (rotateSession_keeps r0 x) as (K1 & K2 & _).
      split; [|split; congruence].
      rewrite A', rotateSession_active. apply last_of_cons. }
  destruct (G history (createDeviceRecord now id)) as ((T0 & T1 & T2 & T3) & A & D & C).
  - auto.
  - discriminate.
  - split; [reflexivity|]. split; [simpl; lia|]. split; [intros x []|]. intros a x _ [].
  - fold (rotated now id history) in *. simpl in *.
    split; [exact A|]. split; [exact T1|].
    split; [intros a x Ha Hx; destruct (T3 a x Ha Hx); auto|].
    split; [exact D|]. split; [exact C|].
    unfold rotateSession at 1. rewrite rotateSession_active.
    unfold same_object. rewrite Nat.eqb_refl. simpl.
    pose proof (rotateSession_active r s) as Act.
    destruct (rotateSession r s) as [d a i c st]. simpl in *. now subst a.
Qed.

Lemma rotateSession_history_witness :
  activeSession (rotated 0 "d1" [s1; s2; s3; s3]) = Some s3 /\
  inactiveSessions (rotated 0 "d1" [s1; s2; s3; s3]) = [s2].
Proof.
  assert (O : one_object_per_address [s1; s2; s3; s3]).
  { intros a b Ha Hb. simpl in Ha, Hb.
    repeat (destruct Ha as [<-|Ha]); try contradiction;
      repeat (destruct Hb as [<-|Hb]); try contradiction;
        simpl; intros E; try reflexivity; discriminate E. }
  destruct (@rotateSession_history 0 "d1" [s1; s2; s3; s3] d1 s1 O) as (A & _).
  split; [exact A | reflexivity].
Defined.

End DeviceRecordHistory.

(** ** UserRecord.ts *)

Module UserRecord.

Import DeviceRecord.

Record UserRecord := {
  publicKey : string;
  devices : JsMap.t string DeviceRecord
}.

Definition createUserRecord (publicKey : string) : UserRecord :=
  {| publicKey := publicKey; devices := JsMap.empty |}.

(** [getOrCreateDevice(user, deviceId)], at time [now]: the user record
    afterwards and the device record returned. *)
Definition getOrCreateDevice (now : Z) (user : UserRecord) (id : string)
  : UserRecord * DeviceRecord :=
  match JsMap.get id (devices user) with
  | Some device => (user, device)
  | None =>
    let device := createDeviceRecord now id in
    ({| publicKey := publicKey user; devices := JsMap.set id device (devices user) |}, device)
  end.

(** Every device sits under its own id. *)
Definition keyed (user : UserRecord) : Prop := InviteList.keyed deviceId (devices user).

(** X17.  [getOrCreateDevice] returns the record the user holds under the
    id afterwards.  A record that was there is returned as it is, sessions
    included, and the user is unchanged; a new one is empty, stamped with
    the current time and added last.  The other devices are untouched, a
    second call returns the same record whatever the time, and every device
    stays under its own id. *)
Theorem getOrCreateDevice_returns_the_stored_record (now later : Z) (user : UserRecord)
  (id : string) :
  let (user', device) := getOrCreateDevice now user id in
  JsMap.get id (devices user') = Some device /\
  (forall existing, JsMap.get id (devices user) = Some existing ->
     device = existing /\ user' = user) /\
  (JsMap.get id (devices user) = None ->
     device = createDeviceRecord now id /\
     JsMap.values (devices user') = JsMap.values (devices user) ++ [device]) /\
  (forall other, other <> id -> JsMap.get other (devices user') = JsMap.get other (devices user)) /\
  getOrCreateDevice later user' id = (user', device) /\
  publicKey user' = publicKey user /\
  (keyed user -> keyed user').
Proof.
  unfold getOrCreateDevice. destruct (JsMap.get id (devices user)) as [d|] eqn:G.
  - split; [exact G|]. split; [intros e [= <-]; auto|]. split; [discriminate|].
    split; [reflexivity|]. rewrite G. auto.
  - simpl. split; [apply JsMap.get_set_eq|]. split; [discriminate|].
    split; [intros _; split; [reflexivity | now apply InviteListOps.values_set_new]|].
    split; [intros other N; apply JsMap.get_set_ne; congruence|].
    rewrite JsMap.get_set_eq. split; [reflexivity|]. split; [reflexivity|].
    intros K. exact (@InviteList.keyed_set _ deviceId (devices user)
                       (createDeviceRecord now id) K).
Qed.

(** *** Serialization *)

(** What is stored for a session is the text that
    [serializeSessionState] returns. *)
Record StoredDeviceRecord := {
  s_deviceId : string;
  s_activeSession : option string;
  s_inactiveSessions : list string;
  s_createdAt : Z;
  s_staleAt : option Z
}.

Record StoredUserRecord := {
  s_publicKey : string;
  s_devices : list StoredDeviceRecord
}.

Section Serialize.

(** Of Session.ts and utils.ts: the state of a session, the session that
    [new Session(nostrSubscribe, state)] allocates at an address, and the
    two conversions of a state, to a text and back. *)
Variable State : Type.
Variable state : Session -> State.
Variable newSession : nat -> State -> Session.
Variable serializeSessionState : State -> string.
Variable deserializeSessionState : string -> State.

Definition serializeDeviceRecord (record : DeviceRecord) : StoredDeviceRecord :=
  {| s_deviceId := deviceId record;
     s_activeSession :=
       match activeSession record with
       | Some session => Some (serializeSessionState (state session))
       | None => None
       end;
     s_inactiveSessions :=
       map (fun session => serializeSessionState (state session)) (inactiveSessions record);
     s_createdAt := createdAt record;
     s_staleAt := staleAt record |}.

(** The sessions made for the entries, at the addresses from [next] on. *)
Fixpoint restoreSessions (next : nat) (entries : list string) : list Session * nat :=
  match entries with
  | [] => ([], next)
  | entry :: rest =>
    let session := newSession next (deserializeSessionState entry) in
    let (sessions, next') := restoreSessions (S next) rest in
    (session :: sessions, next')
  end.

(** [deserializeDeviceRecord(data, nostrSubscribe)]; [next] is the first
    free address, returned advanced.  [data.activeSession ? .. : undefined]
    makes no session of [null] and none of the empty text. *)
Definition deserializeDeviceRecord (next : nat) (data : StoredDeviceRecord)
  : DeviceRecord * nat :=
  let (activeSession, next1) :=
    match s_activeSession data with
    | Some entry =>
      if truthy entry
      then (Some (newSession next (deserializeSessionState entry)), S next)
      else (None, next)
    | None => (None, next)
    end in
  let (inactiveSessions, next2) := restoreSessions next1 (s_inactiveSessions data) in
  ({| deviceId := s_deviceId data;
      activeSession := activeSession;
      inactiveSessions := inactiveSessions;
      createdAt := s_createdAt data;
      staleAt := s_staleAt data |}, next2).

Definition serializeUserRecord (user : UserRecord) : StoredUserRecord :=
  {| s_publicKey := publicKey user;
     s_devices := map serializeDeviceRecord (JsMap.values (devices user)) |}.

Definition restoreDevice (acc : JsMap.t string DeviceRecord * nat)
  (deviceData : StoredDeviceRecord) : JsMap.t string DeviceRecord * nat :=
  let (deviceRecord, next') := deserializeDeviceRecord (snd acc) deviceData in
  (JsMap.set (deviceId deviceRecord) deviceRecord (fst acc), next').

Definition deserializeUserRecord (next : nat) (data : StoredUserRecord) : UserRecord * nat :=
  let (devices, next') := fold_left restoreDevice (s_devices data) (JsMap.empty, next) in
  ({| publicKey := s_publicKey data; devices := devices |}, next').

(** What a device record says, its sessions taken by their states: the
    id, the state of the active session, the states of the inactive ones,
    [createdAt] and [staleAt]. *)
Definition contentsOf (record : DeviceRecord)
  : string * option State * list State * Z * option Z :=
  (deviceId record, option_map state (activeSession record),
   map state (inactiveSessions record), createdAt record, staleAt record).

(** The constructor keeps the state it is given; a state that was
    serialized converts back to itself; and the text of a state is not
    empty. *)
Hypothesis state_newSession : forall a st, state (newSession a st) = st.
Hypothesis deserialize_serialize :
  forall st, deserializeSessionState (serializeSessionState st) = st.
Hypothesis serialized_truthy : forall st, serializeSessionState st <> "".

Lemma restoreSessions_states sessions : forall next,
  map state (fst (restoreSessions next
                    (map (fun session => serializeSessionState (state session)) sessions)))
  = map state sessions.
Proof.
  induction sessions as [|x rest IH]; intros next; simpl; [reflexivity|].
  specialize (IH (S next)).
  destruct (restoreSessions (S next) _) as [ss n']. simpl in *.
  now rewrite state_newSession, deserialize_serialize, IH.
Qed.

Lemma device_restored next record :
  contentsOf (fst (deserializeDeviceRecord next (serializeDeviceRecord record)))
  = contentsOf record.
Proof.
  unfold deserializeDeviceRecord, serializeDeviceRecord. cbn [s_activeSession s_inactiveSessions
    s_deviceId s_createdAt s_staleAt].
  destruct (activeSession record) as [active|] eqn:A.
  - assert (truthy (serializeSessionState (state active)) = true) as ->.
    { unfold truthy. apply negb_true_iff, String.eqb_neq, serialized_truthy. }
    pose proof (restoreSessions_states (inactiveSessions record) (S next)) as R.
    destruct (restoreSessions (S next) _) as [ss n']. simpl in *.
    unfold contentsOf. simpl. now rewrite A, state_newSession, deserialize_serialize, R.
  - pose proof (restoreSessions_states (inactiveSessions record) next) as R.
    destruct (restoreSessions next _) as [ss n']. simpl in *.
    unfold contentsOf. simpl. now rewrite A, R.
Qed.

(** The stored form reads the contents only. *)
Lemma serialize_contents r r' :
  contentsOf r = contentsOf r' -> serializeDeviceRecord r = serializeDeviceRecord r'.
Proof.
  unfold contentsOf, serializeDeviceRecord. intros [= E1 E2 E3 E4 E5].
  rewrite E1, E4, E5. f_equal.
  - destruct (activeSession r), (activeSession r'); simpl in E2; congruence.
  - rewrite <- (map_map state serializeSessionState (inactiveSessions r)),
            <- (map_map state serializeSessionState (inactiveSessions r')).
    now rewrite E3.
Qed.

Lemma restoreDevices_contents rs : forall acc next,
  NoDup (map deviceId rs) ->
  (forall r, In r rs -> JsMap.get (deviceId r) acc = None) ->
  InviteList.keyed deviceId acc ->
  map contentsOf
      (JsMap.values (fst (fold_left restoreDevice (map serializeDeviceRecord rs) (acc, next))))
  = map contentsOf (JsMap.values acc) ++ map contentsOf rs /\
  InviteList.keyed deviceId
    (fst (fold_left restoreDevice (map serializeDeviceRecord rs) (acc, next))).
Proof.
  induction rs as [|r rs IH]; intros acc next ND Hfresh K; simpl;
    [now rewrite app_nil_r|].
  inversion ND as [|? ? Hnotin ND']; subst.
  unfold restoreDevice at 2 4. simpl.
  pose proof (device_restored next r) as R.
  destruct (deserializeDeviceRecord next (serializeDeviceRecord r)) as [r1 n']. simpl in *.
  assert (Rid : deviceId r1 = deviceId r) by (unfold contentsOf in R; congruence).
  destruct (IH (JsMap.set (deviceId r1) r1 acc) n') as [I1 I2]; [assumption| |  |].
  - intros r' Hin. rewrite Rid, JsMap.get_set_ne; [apply Hfresh; now right|].
    intros E. apply Hnotin. rewrite E. now apply in_map.
  - now apply InviteList.keyed_set.
  - split; [|exact I2]. rewrite I1.
    rewrite Rid, InviteListOps.values_set_new by (apply Hfresh; now left).
    rewrite map_app, <- app_assoc. simpl. now rewrite R.
Qed.

Lemma same_contents_same_stored l l' :
  map contentsOf l = map contentsOf l' ->
  map serializeDeviceRecord l = map serializeDeviceRecord l'.
Proof.
  revert l'. induction l as [|r rs IH]; intros [|r' rs']; simpl;
    try discriminate; [reflexivity|].
  intros C. f_equal.
  - apply serialize_contents. exact (f_equal (hd (contentsOf r)) C).
  - apply IH. exact (f_equal (@tl _) C).
Qed.

Lemma restored_contents next user :
  keyed user ->
  map contentsOf
      (JsMap.values (devices (fst (deserializeUserRecord next (serializeUserRecord user)))))
  = map contentsOf (JsMap.values (devices user)) /\
  keyed (fst (deserializeUserRecord next (serializeUserRecord user))).
Proof.
  intros K. unfold deserializeUserRecord, serializeUserRecord. cbn [s_devices s_publicKey].
  destruct (@restoreDevices_contents (JsMap.values (devices user)) JsMap.empty next)
    as [C K'].
  { rewrite (InviteList.keyed_ids_keys K). exact (proj1 K). }
  { intros; reflexivity. }
  { apply InviteList.keyed_empty. }
  destruct (fold_left restoreDevice _ (JsMap.empty, next)) as [m n']. simpl in *.
  split; [exact C | exact K'].
Qed.

(** X18.  A user record comes back from its stored form, given that the
    [Session] constructor keeps the state it is given, that
    [deserializeSessionState] undoes [serializeSessionState], and that the
    text of a state is not empty.  For a user record that keeps every device
    under its own id, deserializing what [serializeUserRecord] returns gives
    the same public key and the same devices, under the same ids in the same
    order, each with its [createdAt] and [staleAt] and with sessions (new
    objects) of the same states; so saving the loaded record writes the same
    data again.  A stored device whose [activeSession] is [null] or the
    empty text is given no active session. *)
Theorem user_record_round_trip (next : nat) (user : UserRecord) (data : StoredDeviceRecord) :
  (keyed user ->
   let restored := fst (deserializeUserRecord next (serializeUserRecord user)) in
   publicKey restored = publicKey user /\
   JsMap.keys (devices restored) = JsMap.keys (devices user) /\
   map contentsOf (JsMap.values (devices restored))
     = map contentsOf (JsMap.values (devices user)) /\
   serializeUserRecord restored = serializeUserRecord user) /\
  (s_activeSession data = None \/ s_activeSession data = Some "" ->
   activeSession (fst (deserializeDeviceRecord next data)) = None).
Proof.
  split.
  - intros K restored. destruct (restored_contents next K) as [C K'].
    fold restored in C, K'.
    assert (P : publicKey restored = publicKey user).
    { subst restored. unfold deserializeUserRecord.
      destruct (fold_left restoreDevice _ _). reflexivity. }
    split; [exact P|]. split; [|split; [exact C|]].
    + rewrite <- (InviteList.keyed_ids_keys K'), <- (InviteList.keyed_ids_keys K).
      change deviceId with (fun r => fst (fst (fst (fst (contentsOf r))))).
      rewrite <- (map_map contentsOf (fun c => fst (fst (fst (fst c))))
                    (JsMap.values (devices restored))),
              <- (map_map contentsOf (fun c => fst (fst (fst (fst c))))
                    (JsMap.values (devices user))).
      now rewrite C.
    + unfold serializeUserRecord. rewrite P. f_equal. now apply same_contents_same_stored.
  - unfold deserializeDeviceRecord.
    intros [->| ->]; simpl; now destruct (restoreSessions next (s_inactiveSessions data)).
Qed.

End Serialize.

(** *** A user with two devices *)

Definition twoDevices : UserRecord :=
  fst (getOrCreateDevice 2 (fst (getOrCreateDevice 1 (createUserRecord "bob") "phone")) "laptop").

Lemma getOrCreateDevice_returns_the_stored_record_witness :
  getOrCreateDevice 9 twoDevices "phone" = (twoDevices, createDeviceRecord 1 "phone").
Proof.
  pose proof (@getOrCreateDevice_returns_the_stored_record 9 9 twoDevices "phone") as H.
  destruct (getOrCreateDevice 9 twoDevices "phone") as [u d].
  destruct H as (_ & H & _). destruct (H (createDeviceRecord 1 "phone") eq_refl) as [-> ->].
  reflexivity.
Defined.

(** Sessions whose state is their name, stored between braces. *)
Definition namedSession (address : nat) (st : string) : Session :=
  {| ref := address; name := st |}.

Definition braced (st : string) : string := ("{" ++ st ++ "}")%string.

Fixpoint withoutLast (s : string) : string :=
  match s with
  | EmptyString => EmptyString
  | String c EmptyString => EmptyString
  | String c rest => String c (withoutLast rest)
  end.

Definition unbraced (entry : string) : string :=
  match entry with
  | EmptyString => EmptyString
  | String _ rest => withoutLast rest
  end.

Lemma unbraced_braced st : unbraced (braced st) = st.
Proof.
  unfold braced, unbraced. simpl.
  induction st as [|c st IH]; simpl; [reflexivity|].
  rewrite IH. now destruct st.
Qed.

Lemma braced_truthy st : braced st <> "".
Proof. discriminate. Qed.

(** Bob, whose phone has had two sessions. *)
Definition bob : UserRecord :=
  {| publicKey := "bob";
     devices :=
       [ ("phone", rotateSession (rotateSession (createDeviceRecord 1 "phone")
                                    (namedSession 0 "s1")) (namedSession 1 "s2"));
         ("laptop", createDeviceRecord 2 "laptop") ] |}.

Lemma keyed_bob : keyed bob.
Proof.
  split.
  - repeat constructor; simpl; intuition discriminate.
  - intros k v [E|[E|[]]]; now inversion E.
Qed.

Lemma user_record_round_trip_witness :
  serializeUserRecord name braced
    (fst (deserializeUserRecord namedSession unbraced 10 (serializeUserRecord name braced bob)))
  = {| s_publicKey := "bob";
       s_devices := [ {| s_deviceId := "phone"; s_activeSession := Some "{s2}";
                         s_inactiveSessions := ["{s1}"]; s_createdAt := 1;
                         s_staleAt := None |};
                      {| s_deviceId := "laptop"; s_activeSession := None;
                         s_inactiveSessions := []; s_createdAt := 2;
                         s_staleAt := None |} ] |}.
Proof.
  destruct (proj1 (@user_record_round_trip string name namedSession braced unbraced
                     (fun _ _ => eq_refl) unbraced_braced braced_truthy 10 bob
                     (serializeDeviceRecord name braced (createDeviceRecord 2 "laptop")))
                  keyed_bob) as (_ & _ & _ & E).
  rewrite E. reflexivity.
Defined.

End UserRecord.

(** ** UserRecordStore.ts *)

Module UserRecordStore.

Import UserRecord.

(** [s.slice(n)] for [n >= 0]: the string without its first [n]
    characters. *)
Fixpoint slice (n : nat) (s : string) : string :=
  match n, s with
  | O, _ => s
  | S n', String _ r => slice n' r
  | S _, EmptyString => EmptyString
  end.

Lemma slice_prefix (p s : string) : slice (String.length p) (p ++ s) = s.
Proof. induction p as [|c p IH]; simpl; [reflexivity | exact IH]. Qed.

Section Store.

(** Of Session.ts and utils.ts, as in [UserRecord]. *)
Variable State : Type.
Variable state : DeviceRecord.Session -> State.
Variable newSession : nat -> State -> DeviceRecord.Session.
Variable serializeSessionState : State -> string.
Variable deserializeSessionState : string -> State.

(** The [StorageAdapter]: what the one adapter holds, and its four
    operations.  Stores built on the adapter share what it holds, so the
    operations of a store take it and those that write return it. *)
Variable Storage : Type.
Variable storage_get : Storage -> string -> option StoredUserRecord.
Variable storage_put : Storage -> string -> StoredUserRecord -> Storage.
Variable storage_del : Storage -> string -> Storage.
Variable storage_list : Storage -> string -> list string.

(** A store: its records, whether it was given the adapter, its key
    prefix, and the first free address for the sessions it allocates when
    it loads. *)
Record UserRecordStore := {
  records : JsMap.t string UserRecord;
  attached : bool;
  keyPrefix : string;
  nextAddress : nat
}.

(** [new UserRecordStore(storage?, versionPrefix = "v1")] *)
Definition new_UserRecordStore (withStorage : bool) (versionPrefix : option string)
  (nextAddress : nat) : UserRecordStore :=
  {| records := JsMap.empty;
     attached := withStorage;
     keyPrefix := (match versionPrefix with Some v => v | None => "v1" end ++ "/user/")%string;
     nextAddress := nextAddress |}.

Definition storageKey (s : UserRecordStore) (publicKey : string) : string :=
  (keyPrefix s ++ publicKey)%string.

Definition storageKeyPrefix (s : UserRecordStore) : string := keyPrefix s.

Definition set_records (s : UserRecordStore) (r : JsMap.t string UserRecord) (next : nat)
  : UserRecordStore :=
  {| records := r; attached := attached s; keyPrefix := keyPrefix s; nextAddress := next |}.

Definition getOrCreate (s : UserRecordStore) (publicKey : string)
  : UserRecordStore * UserRecord :=
  match JsMap.get publicKey (records s) with
  | Some record => (s, record)
  | None =>
    let record := createUserRecord publicKey in
    (set_records s (JsMap.set publicKey record (records s)) (nextAddress s), record)
  end.

Definition get (s : UserRecordStore) (publicKey : string) : option UserRecord :=
  JsMap.get publicKey (records s).

Definition has (s : UserRecordStore) (publicKey : string) : bool :=
  JsMap.has publicKey (records s).

Definition delete (s : UserRecordStore) (publicKey : string) : UserRecordStore :=
  set_records s (JsMap.delete publicKey (records s)) (nextAddress s).

Definition getAll (s : UserRecordStore) : JsMap.t string UserRecord := records s.

(** [save(publicKey)]: what the adapter holds afterwards. *)
Definition save (s : UserRecordStore) (st : Storage) (publicKey : string) : Storage :=
  if negb (attached s) then st
  else
    match JsMap.get publicKey (records s) with
    | None => st
    | Some userRecord =>
      storage_put st (storageKey s publicKey)
        (serializeUserRecord state serializeSessionState userRecord)
    end.

(** [load(publicKey, nostrSubscribe)]: the store afterwards. *)
Definition load (st : Storage) (s : UserRecordStore) (publicKey : string) : UserRecordStore :=
  if negb (attached s) then s
  else
    match storage_get st (storageKey s publicKey) with
    | None => s
    | Some data =>
      let (userRecord, next) :=
        deserializeUserRecord newSession deserializeSessionState (nextAddress s) data in
      set_records s (JsMap.set publicKey userRecord (records s)) next
    end.

(** [loadAll(nostrSubscribe)].  The reads are started for the keys the
    adapter lists and the records are set as the reads complete:
    [completion] is the keys in that order. *)
Definition loadAll (completion : list string) (st : Storage) (s : UserRecordStore)
  : UserRecordStore :=
  if negb (attached s) then s
  else
    fold_left (fun s' key => load st s' (slice (String.length (keyPrefix s)) key))
              completion s.

Definition deleteFromStorage (s : UserRecordStore) (st : Storage) (publicKey : string)
  : Storage :=
  if negb (attached s) then st else storage_del st (storageKey s publicKey).

(** *** Loading *)

Lemma load_keeps st s pk :
  attached (load st s pk) = attached s /\ keyPrefix (load st s pk) = keyPrefix s.
Proof.
  unfold load. destruct (negb (attached s)); [auto|].
  destruct (storage_get st (storageKey s pk)) as [data|]; [|auto].
  destruct (deserializeUserRecord _ _ _ data). auto.
Qed.

Lemma load_other st s pk other :
  other <> pk -> get (load st s pk) other = get s other.
Proof.
  intros N. unfold load, get. destruct (negb (attached s)); [reflexivity|].
  destruct (storage_get st (storageKey s pk)) as [data|]; [|reflexivity].
  destruct (deserializeUserRecord _ _ _ data). simpl.
  apply JsMap.get_set_ne. congruence.
Qed.

Lemma load_found st s pk data :
  attached s = true -> storage_get st (storageKey s pk) = Some data ->
  get (load st s pk) pk
  = Some (fst (deserializeUserRecord newSession deserializeSessionState (nextAddress s) data)).
Proof.
  intros A G. unfold load, get. rewrite A, G. simpl.
  destruct (deserializeUserRecord _ _ _ data). simpl. apply JsMap.get_set_eq.
Qed.

Lemma slice_storageKey s pk : slice (String.length (keyPrefix s)) (storageKey s pk) = pk.
Proof. apply slice_prefix. Qed.

Lemma app_inv_prefix (p a b : string) : (p ++ a = p ++ b)%string -> a = b.
Proof. induction p as [|c p IH]; simpl; [auto | intros [= E]; auto]. Qed.

(** X19.  [loadAll] reads every listed record in under the public key cut
    out of its storage key, in whatever order the reads complete, given an
    adapter that lists keys that begin with the prefix it was asked for.
    A user whose key is not listed keeps the record the store had. *)
Theorem loadAll_loads_every_listed_record (completion : list string) (st : Storage)
  (s : UserRecordStore) :
  attached s = true ->
  Permutation completion (storage_list st (keyPrefix s)) ->
  (forall key, In key (storage_list st (keyPrefix s)) -> exists pk, key = storageKey s pk) ->
  (forall pk, slice (String.length (keyPrefix s)) (storageKey s pk) = pk) /\
  (forall pk data,
     In (storageKey s pk) (storage_list st (keyPrefix s)) ->
     storage_get st (storageKey s pk) = Some data ->
     exists next,
       get (loadAll completion st s) pk
       = Some (fst (deserializeUserRecord newSession deserializeSessionState next data))) /\
  (forall pk, ~ In (storageKey s pk) (storage_list st (keyPrefix s)) ->
     get (loadAll completion st s) pk = get s pk).
Proof.
  intros A Hperm Hkeys.
  split; [intros pk; apply slice_storageKey|].
  assert (G : forall keys s0,
            attached s0 = true -> keyPrefix s0 = keyPrefix s ->
            (forall key, In key keys -> exists pk, key = storageKey s pk) ->
            let s1 := fold_left (fun s' key => load st s' (slice (String.length (keyPrefix s)) key))
                                keys s0 in
            (forall pk data, In (storageKey s pk) keys ->
               storage_get st (storageKey s pk) = Some data ->
               exists next,
                 get s1 pk
                 = Some (fst (deserializeUserRecord newSession deserializeSessionState
                                next data))) /\
            (forall pk, ~ In (storageKey s pk) keys -> get s1 pk = get s0 pk)).
  { induction keys as [|key keys IH]; intros s0 A0 P0 Hk; cbn [fold_left]; cbv zeta.
    - split; [intros pk data []|reflexivity].
    - destruct (Hk key (or_introl eq_refl)) as [pk0 ->]. rewrite slice_storageKey.
      destruct (load_keeps st s0 pk0) as [A1 P1].
      destruct (IH (load st s0 pk0)) as [I1 I2];
        [congruence | congruence | intros; apply Hk; now right|].
      cbv zeta in I1, I2. split.
      + intros pk data Hin Hget.
        destruct (in_dec string_dec (storageKey s pk) keys) as [Hlater|Hlast];
          [now apply (I1 pk data)|].
        destruct Hin as [E|Hin]; [|contradiction].
        apply app_inv_prefix in E. subst pk0.
        rewrite (I2 pk Hlast). exists (nextAddress s0). apply load_found; [assumption|].
        unfold storageKey in *. now rewrite P0.
      + intros pk Hnot. rewrite I2 by (intros Hin; apply Hnot; now right).
        apply load_other. intros ->. apply Hnot. now left. }
  unfold loadAll. rewrite A. simpl.
  destruct (G completion s A eq_refl) as [G1 G2].
  { intros key Hin. apply Hkeys. eapply Permutation_in; eauto. }
  cbv zeta in G1, G2. split.
  - intros pk data Hin Hget. apply G1; [|assumption].
    eapply Permutation_in; [apply Permutation_sym|]; eauto.
  - intros pk Hnot. apply G2. intros Hin. apply Hnot. eapply Permutation_in; eauto.
Qed.

(** *** Saving *)

(** The adapter gives back what was put under a key. *)
Hypothesis get_put : forall st key value, storage_get (storage_put st key value) key = Some value.
Hypothesis get_del : forall st key, storage_get (storage_del st key) key = None.

(** Of the sessions, as in [UserRecord]: the constructor keeps the state
    it is given, a state that was serialized converts back to itself, and
    the text of a state is not empty. *)
Hypothesis state_newSession : forall a st, state (newSession a st) = st.
Hypothesis deserialize_serialize :
  forall st, deserializeSessionState (serializeSessionState st) = st.
Hypothesis serialized_truthy : forall st, serializeSessionState st <> "".

(** X20.  Saving and loading, given an adapter whose [get] returns what
    was [put] under a key and nothing after [del], a [Session] constructor
    that keeps the state it is given, a [deserializeSessionState] that
    undoes [serializeSessionState], and texts of states that are not empty.
    A record saved by one store and loaded by a store on the same adapter
    with the same prefix is there under the same key; when every device of
    the saved record sits under its own id, the loaded record has the same
    devices in the same order, each with its [createdAt], its [staleAt] and
    sessions of the same states, and its stored form is the one saved.
    [save] does nothing for a user the store does not hold; [load] keeps the
    store as it is when the adapter has nothing under the key, as after
    [deleteFromStorage]; and a store without an adapter neither saves nor
    loads. *)
Theorem save_then_load (s s2 : UserRecordStore) (st : Storage) (pk : string) :
  (forall user, attached s = true -> get s pk = Some user ->
     attached s2 = true -> keyPrefix s2 = keyPrefix s ->
     exists loaded,
       get (load (save s st pk) s2 pk) pk = Some loaded /\
       (keyed user ->
        publicKey loaded = publicKey user /\
        map (contentsOf state) (JsMap.values (devices loaded))
          = map (contentsOf state) (JsMap.values (devices user)) /\
        serializeUserRecord state serializeSessionState loaded
          = serializeUserRecord state serializeSessionState user)) /\
  (get s pk = None -> save s st pk = st) /\
  (storage_get st (storageKey s pk) = None -> load st s pk = s) /\
  (attached s = true -> load (deleteFromStorage s st pk) s pk = s) /\
  (attached s = false ->
     save s st pk = st /\ load st s pk = s /\ deleteFromStorage s st pk = st /\
     forall completion, loadAll completion st s = s).
Proof.
  split; [|split; [|split; [|split]]].
  - intros user A G A2 P2. unfold save. rewrite A. simpl.
    unfold get in G. rewrite G.
    assert (K2 : storageKey s2 pk = storageKey s pk) by (unfold storageKey; now rewrite P2).
    rewrite <- K2.
    rewrite (@load_found _ s2 pk _ A2 (get_put st (storageKey s2 pk) _)).
    eexists. split; [reflexivity|]. intros K.
    destruct (@UserRecord.restored_contents State state newSession
                serializeSessionState deserializeSessionState
                state_newSession deserialize_serialize serialized_truthy
                (nextAddress s2) user K) as [C _].
    set (loaded := fst (deserializeUserRecord newSession deserializeSessionState
                          (nextAddress s2)
                          (serializeUserRecord state serializeSessionState user))) in *.
    assert (P : publicKey loaded = publicKey user).
    { subst loaded. unfold deserializeUserRecord.
      destruct (fold_left _ _ _). reflexivity. }
    split; [exact P|]. split; [exact C|].
    unfold serializeUserRecord. rewrite P. f_equal.
    now apply UserRecord.same_contents_same_stored.
  - intros G. unfold save. unfold get in G. rewrite G. now destruct (negb (attached s)).
  - intros G. unfold load. rewrite G. now destruct (negb (attached s)).
  - intros A. unfold deleteFromStorage, load. rewrite A. simpl. now rewrite get_del.
  - intros A. unfold save, load, deleteFromStorage, loadAll. rewrite A. simpl. auto.
Qed.

End Store.

(** *** An adapter that keeps its entries in a [Map] *)

Definition MapStorage : Type := JsMap.t string StoredUserRecord.

Definition map_list (st : MapStorage) (p : string) : list string :=
  filter (String.prefix p) (JsMap.keys st).

Definition bobStore : UserRecordStore :=
  {| records := [("bob", bob)]; attached := true; keyPrefix := "v1/user/";
     nextAddress := 0 |}.

Definition emptyStore : UserRecordStore := new_UserRecordStore true None 20.

Definition savedBob : MapStorage :=
  save DeviceRecord.name braced (fun st key value => JsMap.set key value st)
    bobStore JsMap.empty "bob".

Lemma loadAll_loads_every_listed_record_witness :
  exists next,
    get (loadAll namedSession unbraced (fun st key => JsMap.get key st)
           ["v1/user/bob"] savedBob emptyStore) "bob"
    = Some (fst (deserializeUserRecord namedSession unbraced next
                   (serializeUserRecord DeviceRecord.name braced bob))).
Proof.
  refine (proj1 (proj2 (@loadAll_loads_every_listed_record string namedSession
                          unbraced MapStorage (fun st key => JsMap.get key st)
                          map_list ["v1/user/bob"] savedBob emptyStore eq_refl _ _))
            "bob" _ _ _).
  - apply Permutation_refl.
  - intros key [<-|[]]. now exists "bob".
  - now left.
  - reflexivity.
Defined.

Lemma save_then_load_witness :
  exists loaded,
    get (load namedSession unbraced (fun st key => JsMap.get key st)
           savedBob emptyStore "bob") "bob" = Some loaded /\
    map (contentsOf DeviceRecord.name) (JsMap.values (devices loaded))
    = [ ("phone", Some "s2", ["s1"], 1%Z, None); ("laptop", None, [], 2%Z, None) ].
Proof.
  destruct (proj1 (@save_then_load string DeviceRecord.name namedSession
                     braced unbraced MapStorage
                     (fun st key => JsMap.get key st)
                     (fun st key value => JsMap.set key value st)
                     (fun st key => JsMap.delete key st)
                     (fun st key value => JsMap.get_set_eq key value st)
                     (fun st key => JsMap.get_delete_eq key st)
                     (fun _ _ => eq_refl) unbraced_braced braced_truthy
                     bobStore emptyStore JsMap.empty "bob")
                  bob eq_refl eq_refl eq_refl eq_refl) as (loaded & Hl & Hs).
  exists loaded. split; [exact Hl|].
  destruct (Hs keyed_bob) as (_ & C & _). rewrite C. reflexivity.
Defined.

End UserRecordStore.

(** ** ControllableRelay.ts: subscriptions and delivery *)

Module RelayDelivery.

Import ControllableRelay.

(** What a handler throws: an [Error] with its message, or another
    value. *)
Inductive Thrown :=
| ErrorWith (message : option string)
| NotAnError.

(** A call of a subscriber's [onEvent] returns or throws. *)
Inductive Outcome :=
| Returns
| Throws (e : Thrown).

(** [s.includes(needle)] *)
Fixpoint includes (needle s : string) {struct s} : bool :=
  if String.prefix needle s then true
  else match s with
       | EmptyString => false
       | String _ r => includes needle r
       end.

(** [`sub-${n}`] *)
Definition subName (n : nat) : string :=
  ("sub-" ++ DecimalString.NilEmpty.string_of_uint (Nat.to_uint n))%string.

Section Relay.

(** NDK's signing, as in [publish]; the [Filter] type and [matchFilter] of
    nostr-tools; [String.prototype.toLowerCase]. *)
Variable ndkEvent : Event -> option Bytes -> NdkEvent.
Variable Filter : Type.
Variable matchFilter : Filter -> Event -> bool.
Variable toLowerCase : string -> string.

Record Subscriber := {
  sub_id : string;
  sub_filter : Filter;
  delivered : list string
}.

(** The relay, and the calls of [onEvent] it has made: the subscriber's
    id and the event, oldest first. *)
Record Relay := {
  events : JsMap.t string Event;
  subscribers : JsMap.t string Subscriber;
  subscriptionCounter : nat;
  calls : list (string * Event)
}.

(** What the handlers do is not the relay's: [onEvent] gives, for the
    calls made so far, a subscriber and an event, how the call ends.  The
    handlers are taken not to call back into the relay. *)
Variable onEvent : list (string * Event) -> string -> Event -> Outcome.

Definition new_ControllableRelay : Relay :=
  {| events := JsMap.empty; subscribers := JsMap.empty; subscriptionCounter := 0; calls := [] |}.

Definition isDecryptionError (error : Thrown) : bool :=
  match error with
  | ErrorWith (Some message) =>
    let m := toLowerCase message in
    if truthy m then includes "invalid mac" m || includes "failed to decrypt header" m
    else false
  | ErrorWith None => false
  | NotAnError => false
  end.

Definition publish (r : Relay) (p : Event * option Bytes) : Relay :=
  {| events := ControllableRelay.publish ndkEvent (events r) p;
     subscribers := subscribers r;
     subscriptionCounter := subscriptionCounter r;
     calls := calls r |}.

(** [subscribe(filter, onEvent)]: the relay afterwards and the id that the
    returned closure unsubscribes. *)
Definition subscribe (r : Relay) (filter : Filter) : Relay * string :=
  let counter := S (subscriptionCounter r) in
  let subId := subName counter in
  ({| events := events r;
      subscribers := JsMap.set subId {| sub_id := subId; sub_filter := filter; delivered := [] |}
                       (subscribers r);
      subscriptionCounter := counter;
      calls := calls r |}, subId).

(** The closure that [subscribe] returns. *)
Definition unsubscribe (r : Relay) (subId : string) : Relay :=
  {| events := events r;
     subscribers := JsMap.delete subId (subscribers r);
     subscriptionCounter := subscriptionCounter r;
     calls := calls r |}.

Definition hasDelivered (subscriber : Subscriber) (eventId : string) : bool :=
  existsb (String.eqb eventId) (delivered subscriber).

(** [subscriber.delivered.add(event.id)], on the subscriber stored under
    [key], and the call of its [onEvent]. *)
Definition handedOver (r : Relay) (event : Event) (key : string) (subscriber : Subscriber)
  : Relay :=
  {| events := events r;
     subscribers :=
       JsMap.set key {| sub_id := sub_id subscriber; sub_filter := sub_filter subscriber;
                        delivered := delivered subscriber ++ [idOf event] |}
                 (subscribers r);
     subscriptionCounter := subscriptionCounter r;
     calls := calls r ++ [(sub_id subscriber, event)] |}.

(** [deliverEventToSubscriber(event, subscriber)], for the subscriber
    stored under [key]: the relay afterwards, and [true], [false] or the
    error that goes on to the caller. *)
Definition deliverEventToSubscriber (r : Relay) (event : Event) (key : string)
  (subscriber : Subscriber) : Relay * (bool + Thrown) :=
  if hasDelivered subscriber (idOf event) then (r, inl false)
  else if negb (matchFilter (sub_filter subscriber) event) then (r, inl false)
  else
    let r' := handedOver r event key subscriber in
    match onEvent (calls r) (sub_id subscriber) event with
    | Returns => (r', inl true)
    | Throws error => if isDecryptionError error then (r', inl true) else (r', inr error)
    end.

(** [for (const sub of this.subscribers.values())]: the subscribers under
    [keys], in turn, until a call throws. *)
Fixpoint deliverToEach (event : Event) (keys : list string) (r : Relay) (count : nat)
  : Relay * (nat + Thrown) :=
  match keys with
  | [] => (r, inl count)
  | key :: rest =>
    match JsMap.get key (subscribers r) with
    | None => deliverToEach event rest r count
    | Some subscriber =>
      match deliverEventToSubscriber r event key subscriber with
      | (r', inl true) => deliverToEach event rest r' (S count)
      | (r', inl false) => deliverToEach event rest r' count
      | (r', inr error) => (r', inr error)
      end
    end
  end.

Definition deliver (r : Relay) (eventId : string) : Relay * (nat + Thrown) :=
  match JsMap.get eventId (events r) with
  | None => (r, inl 0)
  | Some event => deliverToEach event (JsMap.keys (subscribers r)) r 0
  end.

Definition deliverTo (r : Relay) (eventId subId : string) : Relay * (bool + Thrown) :=
  match JsMap.get eventId (events r), JsMap.get subId (subscribers r) with
  | Some event, Some subscriber => deliverEventToSubscriber r event subId subscriber
  | _, _ => (r, inl false)
  end.

(** [for (const event of ...)] around the loop over the subscribers. *)
Fixpoint deliverEvents (evs : list Event) (r : Relay) (count : nat) : Relay * (nat + Thrown) :=
  match evs with
  | [] => (r, inl count)
  | event :: rest =>
    match deliverToEach event (JsMap.keys (subscribers r)) r count with
    | (r', inl count') => deliverEvents rest r' count'
    | (r', inr error) => (r', inr error)
    end
  end.

Definition deliverAll (r : Relay) : Relay * (nat + Thrown) :=
  deliverEvents (JsMap.values (events r)) r 0.

Definition deliverByKind (r : Relay) (k : Z) : Relay * (nat + Thrown) :=
  deliverEvents (filter (fun event => (kind event =? k)%Z) (JsMap.values (events r))) r 0.

Definition deliverByPubkey (r : Relay) (pk : string) : Relay * (nat + Thrown) :=
  deliverEvents (filter (fun event => String.eqb (pubkey event) pk) (JsMap.values (events r)))
                r 0.

Definition getEvent (r : Relay) (eventId : string) : option Event :=
  JsMap.get eventId (events r).

Definition getSubscribers (r : Relay) : list Subscriber := JsMap.values (subscribers r).

(** [getUndelivered(subId?)]: an id that is missing or empty asks for the
    events delivered to no subscriber. *)
Definition getUndelivered (r : Relay) (subId : option string) : list Event :=
  match subId with
  | Some i =>
    if truthy i then
      match JsMap.get i (subscribers r) with
      | None => []
      | Some subscriber =>
        filter (fun event => negb (hasDelivered subscriber (idOf event))
                             && matchFilter (sub_filter subscriber) event)
               (JsMap.values (events r))
      end
    else
      filter (fun event => forallb (fun sub => negb (hasDelivered sub (idOf event)))
                                   (JsMap.values (subscribers r)))
             (JsMap.values (events r))
  | None =>
    filter (fun event => forallb (fun sub => negb (hasDelivered sub (idOf event)))
                                 (JsMap.values (subscribers r)))
           (JsMap.values (events r))
  end.

(** [clear()]; the calls made are not undone. *)
Definition clear (r : Relay) : Relay :=
  {| events := JsMap.empty; subscribers := JsMap.empty; subscriptionCounter := 0;
     calls := calls r |}.

(** What a test does with the relay, step by step. *)
Inductive Op :=
| Publish (p : Event * option Bytes)
| Subscribe (filter : Filter)
| Unsubscribe (subId : string)
| Deliver (eventId : string)
| DeliverTo (eventId subId : string)
| DeliverAll
| DeliverByKind (k : Z)
| DeliverByPubkey (pk : string)
| Clear.

Definition step (r : Relay) (op : Op) : Relay :=
  match op with
  | Publish p => publish r p
  | Subscribe filter => fst (subscribe r filter)
  | Unsubscribe subId => unsubscribe r subId
  | Deliver eventId => fst (deliver r eventId)
  | DeliverTo eventId subId => fst (deliverTo r eventId subId)
  | DeliverAll => fst (deliverAll r)
  | DeliverByKind k => fst (deliverByKind r k)
  | DeliverByPubkey pk => fst (deliverByPubkey r pk)
  | Clear => clear r
  end.

Definition run (ops : list Op) : Relay := fold_left step ops new_ControllableRelay.

Definition isClear (op : Op) : bool := match op with Clear => true | _ => false end.

(** *** Delivery changes the marks and the calls only *)

(** [r'] is [r] after some deliveries: the same events and subscribers,
    each subscriber with its filter and with no fewer events marked. *)
Definition after (r r' : Relay) : Prop :=
  events r' = events r /\
  JsMap.keys (subscribers r') = JsMap.keys (subscribers r) /\
  subscriptionCounter r' = subscriptionCounter r /\
  (forall key sub, JsMap.get key (subscribers r) = Some sub ->
     exists sub', JsMap.get key (subscribers r') = Some sub' /\
       sub_id sub' = sub_id sub /\ sub_filter sub' = sub_filter sub /\
       forall i, hasDelivered sub i = true -> hasDelivered sub' i = true) /\
  (forall key, JsMap.get key (subscribers r) = None -> JsMap.get key (subscribers r') = None).

Lemma after_refl r : after r r.
Proof. repeat split; auto. intros key sub G. eauto. Qed.

Lemma after_trans r1 r2 r3 : after r1 r2 -> after r2 r3 -> after r1 r3.
Proof.
  intros (E1 & K1 & C1 & S1 & N1) (E2 & K2 & C2 & S2 & N2).
  split; [congruence|]. split; [congruence|]. split; [congruence|]. split; [|auto].
  intros key sub G. destruct (S1 _ _ G) as (s' & G' & I1 & F1 & D1).
  destruct (S2 _ _ G') as (s'' & G'' & I2 & F2 & D2).
  exists s''. repeat split; try congruence. auto.
Qed.

Lemma hasDelivered_app sub i x :
  existsb (String.eqb i) (delivered sub ++ [x]) = hasDelivered sub i || String.eqb i x.
Proof. unfold hasDelivered. rewrite existsb_app. simpl. now rewrite orb_false_r. Qed.

Lemma handedOver_after r event key sub :
  JsMap.get key (subscribers r) = Some sub -> after r (handedOver r event key sub).
Proof.
  intros G. unfold after, handedOver. simpl.
  split; [reflexivity|]. split.
  { apply JsMap.keys_set_in. eapply JsMap.get_Some_keys; eauto. }
  split; [reflexivity|]. split.
  - intros k s0 G0. destruct (String.eqb key k) eqn:E.
    + apply String.eqb_eq in E. subst k. rewrite JsMap.get_set_eq.
      rewrite G in G0. injection G0 as <-. eexists. split; [reflexivity|].
      simpl. repeat split. intros i H. unfold hasDelivered. simpl.
      rewrite hasDelivered_app, H. reflexivity.
    + apply String.eqb_neq in E. rewrite JsMap.get_set_ne by assumption. eauto.
  - intros k N. rewrite JsMap.get_set_ne; [assumption|]. intros ->. congruence.
Qed.

(** How one delivery ends. *)
Lemma deliverEventToSubscriber_cases r event key sub :
  (deliverEventToSubscriber r event key sub = (r, inl false) /\
   (hasDelivered sub (idOf event) = true \/ matchFilter (sub_filter sub) event = false)) \/
  (hasDelivered sub (idOf event) = false /\ matchFilter (sub_filter sub) event = true /\
   exists result, deliverEventToSubscriber r event key sub
                    = (handedOver r event key sub, result) /\ result <> inl false).
Proof.
  unfold deliverEventToSubscriber.
  destruct (hasDelivered sub (idOf event)) eqn:H; [left; auto|].
  destruct (matchFilter (sub_filter sub) event) eqn:M; simpl; [|left; auto].
  right. split; [reflexivity|]. split; [reflexivity|].
  destruct (onEvent (calls r) (sub_id sub) event) as [|e].
  - eexists. split; [reflexivity | discriminate].
  - destruct (isDecryptionError e); eexists; (split; [reflexivity | discriminate]).
Qed.

(** A subscriber has nothing more to get of an event. *)
Definition settled (r : Relay) (event : Event) (key : string) : Prop :=
  forall sub, JsMap.get key (subscribers r) = Some sub ->
    hasDelivered sub (idOf event) = true \/ matchFilter (sub_filter sub) event = false.

Lemma settled_after r r' event key : after r r' -> settled r event key -> settled r' event key.
Proof.
  intros (_ & _ & _ & S & N) H sub' G'.
  destruct (JsMap.get key (subscribers r)) as [sub|] eqn:G.
  - destruct (S _ _ G) as (s' & G2 & _ & F & D). rewrite G' in G2. injection G2 as <-.
    destruct (H sub G) as [H1|H1]; [left; auto | right; congruence].
  - rewrite (N _ G) in G'. discriminate.
Qed.

Lemma handedOver_settled r event key sub : settled (handedOver r event key sub) event key.
Proof.
  intros s G. unfold handedOver in G. simpl in G. rewrite JsMap.get_set_eq in G.
  injection G as <-. left. unfold hasDelivered. simpl.
  rewrite hasDelivered_app, String.eqb_refl. apply orb_true_r.
Qed.

Lemma deliverToEach_spec event keys : forall r count r' result,
  deliverToEach event keys r count = (r', result) ->
  after r r' /\
  length (calls r) <= length (calls r') /\
  (forall n, result = inl n ->
     count <= n /\ n <= count + length keys /\
     length (calls r') + count = length (calls r) + n /\
     forall key, In key keys -> settled r' event key).
Proof.
  induction keys as [|key rest IH]; intros r count r' result H; simpl in H.
  - injection H as <- <-. split; [apply after_refl|]. split; [lia|].
    intros n [= <-]. simpl. split; [lia|]. split; [lia|]. split; [lia|]. intros key [].
  - destruct (JsMap.get key (subscribers r)) as [sub|] eqn:G.
    + destruct (deliverEventToSubscriber_cases r event key sub)
        as [[E S]|(Hd & Hm & res & E & Hres)]; rewrite E in H.
      * destruct (IH _ _ _ _ H) as (A & L & R). split; [assumption|]. split; [assumption|].
        intros n Hn. destruct (R n Hn) as (R1 & R2 & R3 & R4).
        simpl. split; [lia|]. split; [lia|]. split; [lia|]. intros k [<-|Hin]; [|auto].
        apply (settled_after A). intros s0 G0. rewrite G in G0. now injection G0 as <-.
      * pose proof (@handedOver_after r event key sub G) as A0.
        assert (L0 : length (calls (handedOver r event key sub)) = S (length (calls r))).
        { unfold handedOver. simpl. rewrite length_app. simpl. lia. }
        destruct res as [[|]|err]; [|congruence|].
        -- destruct (IH _ _ _ _ H) as (A & L & R).
           split; [eapply after_trans; eauto|]. split; [lia|].
           intros n Hn. destruct (R n Hn) as (R1 & R2 & R3 & R4).
           simpl. split; [lia|]. split; [lia|]. split; [lia|]. intros k [<-|Hin]; [|auto].
           apply (settled_after A). apply handedOver_settled.
        -- injection H as <- <-. split; [assumption|]. split; [lia|]. discriminate.
    + destruct (IH _ _ _ _ H) as (A & L & R). split; [assumption|]. split; [assumption|].
      intros n Hn. destruct (R n Hn) as (R1 & R2 & R3 & R4).
      simpl. split; [lia|]. split; [lia|]. split; [lia|]. intros k [<-|Hin]; [|auto].
      intros s0 G0. destruct A as (_ & _ & _ & _ & N). rewrite (N _ G) in G0. discriminate.
Qed.

(** Nothing happens where everyone is settled. *)
Lemma deliverToEach_settled event keys : forall r count,
  (forall key, In key keys -> settled r event key) ->
  deliverToEach event keys r count = (r, inl count).
Proof.
  induction keys as [|key rest IH]; intros r count H; simpl; [reflexivity|].
  destruct (JsMap.get key (subscribers r)) as [sub|] eqn:G.
  - destruct (deliverEventToSubscriber_cases r event key sub)
      as [[E S]|(Hd & Hm & _)].
    + rewrite E. apply IH. intros k Hin. apply H. now right.
    + destruct (H key (or_introl eq_refl) sub G); congruence.
  - apply IH. intros k Hin. apply H. now right.
Qed.

(** X21.  [deliver(eventId)] answers with the number of calls of [onEvent]
    it has made, at most one per subscriber, when none of them throws
    (errors of decryption apart).  Asked again at once it makes no call,
    answers 0 and leaves the relay as it is; so it does for an event id the
    relay does not hold. *)
Theorem deliver_counts_its_calls (r r' : Relay) (eventId : string) (n : nat) :
  (deliver r eventId = (r', inl n) ->
     length (calls r') = length (calls r) + n /\
     n <= JsMap.size (subscribers r) /\
     events r' = events r /\
     deliver r' eventId = (r', inl 0)) /\
  (getEvent r eventId = None -> deliver r eventId = (r, inl 0)).
Proof.
  unfold deliver, getEvent. split.
  - destruct (JsMap.get eventId (events r)) as [event|] eqn:G.
    + intros H. destruct (deliverToEach_spec _ _ _ _ H) as (A & _ & R).
      destruct (R n eq_refl) as (_ & R2 & R3 & R4).
      destruct A as (E & K & _). rewrite E, G, K.
      split; [lia|]. split; [rewrite JsMap.size_keys; simpl in R2; lia|].
      split; [reflexivity|]. now apply deliverToEach_settled.
    + intros [= <- <-]. rewrite G. repeat split; try lia. 
  - intros ->. reflexivity.
Qed.

Lemma deliverEvents_spec evs : forall r count r' result,
  deliverEvents evs r count = (r', result) ->
  after r r' /\
  (forall n, result = inl n ->
     forall event key, In event evs -> In key (JsMap.keys (subscribers r)) ->
       settled r' event key).
Proof.
  induction evs as [|event rest IH]; intros r count r' result H; simpl in H.
  - injection H as <- <-. split; [apply after_refl|]. intros n _ event key [].
  - destruct (deliverToEach event (JsMap.keys (subscribers r)) r count) as [r1 [c1|err]] eqn:D.
    + destruct (deliverToEach_spec _ _ _ _ D) as (A1 & _ & R1).
      destruct (R1 c1 eq_refl) as (_ & _ & _ & S1).
      destruct (IH _ _ _ _ H) as (A2 & R2).
      split; [eapply after_trans; eauto|].
      intros n Hn ev key [<-|Hin] Hk.
      * apply (settled_after A2). now apply S1.
      * apply (R2 n Hn); [assumption|]. destruct A1 as (_ & K & _). now rewrite K.
    + injection H as <- <-. destruct (deliverToEach_spec _ _ _ _ D) as (A1 & _).
      split; [assumption | discriminate].
Qed.

(** X22.  After [deliverAll], when no handler has thrown,
    [getUndelivered(subId)] is empty for every subscriber: each stored event
    that matches its filter has been handed to it.  For an id that names no
    subscriber it is empty as well. *)
Theorem deliverAll_leaves_nothing_undelivered (r r' : Relay) (n : nat) (subId : string) :
  (deliverAll r = (r', inl n) -> subId <> "" -> getUndelivered r' (Some subId) = []) /\
  (subId <> "" -> JsMap.get subId (subscribers r) = None ->
     getUndelivered r (Some subId) = []).
Proof.
  split.
  - unfold deliverAll. intros H Hne.
    destruct (deliverEvents_spec _ _ _ H) as (A & S). specialize (S n eq_refl).
    unfold getUndelivered. apply InviteListEvent.truthy_ne in Hne. rewrite Hne.
    destruct (JsMap.get subId (subscribers r')) as [sub|] eqn:G; [|reflexivity].
    destruct A as (E & K & _). rewrite E.
    assert (Hk : In subId (JsMap.keys (subscribers r))).
    { rewrite <- K. eapply JsMap.get_Some_keys; eauto. }
    assert (F : forall evs, (forall event, In event evs -> settled r' event subId) ->
                filter (fun event => negb (hasDelivered sub (idOf event))
                                     && matchFilter (sub_filter sub) event) evs = []).
    { induction evs as [|event evs IH]; intros Hs; simpl; [reflexivity|].
      destruct (Hs event (or_introl eq_refl) sub G) as [Hd|Hm].
      - rewrite Hd. simpl. apply IH. intros ev Hin. apply Hs. now right.
      - rewrite Hm, andb_false_r. apply IH. intros ev Hin. apply Hs. now right. }
    apply F. intros event Hin. now apply S.
  - intros Hne G. unfold getUndelivered.
    apply InviteListEvent.truthy_ne in Hne. now rewrite Hne, G.
Qed.

(** *** Subscriber ids *)

Definition named (r : Relay) : Prop :=
  forall key, In key (JsMap.keys (subscribers r)) ->
    exists n, key = subName n /\ n <= subscriptionCounter r.

Lemma named_after r r' : after r r' -> named r -> named r'.
Proof.
  intros (_ & K & C & _) N key Hin. rewrite K in Hin. rewrite C. now apply N.
Qed.

Lemma deliverEventToSubscriber_after r event key sub :
  JsMap.get key (subscribers r) = Some sub ->
  after r (fst (deliverEventToSubscriber r event key sub)).
Proof.
  intros G. destruct (deliverEventToSubscriber_cases r event key sub)
    as [[E _]|(_ & _ & res & E & _)]; rewrite E; simpl.
  - apply after_refl.
  - now apply handedOver_after.
Qed.

Lemma deliverEvents_after evs r count : after r (fst (deliverEvents evs r count)).
Proof.
  destruct (deliverEvents evs r count) as [r' res] eqn:D.
  exact (proj1 (deliverEvents_spec _ _ _ D)).
Qed.

(** The steps that deliver. *)
Definition delivers (op : Op) : bool :=
  match op with
  | Deliver _ | DeliverTo _ _ | DeliverAll | DeliverByKind _ | DeliverByPubkey _ => true
  | _ => false
  end.

Lemma step_after r op : delivers op = true -> after r (step r op).
Proof.
  destruct op; try discriminate; intros _; simpl.
  - unfold deliver. destruct (JsMap.get eventId (events r)); [|apply after_refl].
    destruct (deliverToEach e (JsMap.keys (subscribers r)) r 0) as [r' res] eqn:D.
    exact (proj1 (deliverToEach_spec _ _ _ _ D)).
  - unfold deliverTo. destruct (JsMap.get eventId (events r)); [|apply after_refl].
    destruct (JsMap.get subId (subscribers r)) eqn:G; [|apply after_refl].
    now apply deliverEventToSubscriber_after.
  - apply deliverEvents_after.
  - apply deliverEvents_after.
  - apply deliverEvents_after.
Qed.

Lemma step_named r op : named r -> named (step r op).
Proof.
  intros N. destruct (delivers op) eqn:D; [exact (named_after (step_after r op D) N)|].
  destruct op; try discriminate D; simpl.
  - exact N.
  - intros key Hin. simpl in Hin. apply JsMap.In_keys_set in Hin.
    destruct Hin as [->|Hin];
      [exists (S (subscriptionCounter r)); split; [reflexivity | simpl; lia]|].
    destruct (N key Hin) as (n & -> & Hn). exists n. split; [reflexivity | simpl; lia].
  - intros key Hin. simpl in Hin. rewrite JsMap.keys_delete in Hin.
    apply filter_In in Hin. now apply N.
  - intros key [].
Qed.

Lemma run_named ops : named (run ops).
Proof.
  unfold run.
  assert (G : forall r, named r -> named (fold_left step ops r)).
  { induction ops as [|op ops IH]; simpl; intros r N; [assumption|].
    apply IH. now apply step_named. }
  apply G. intros key [].
Qed.

End Relay.

Lemma subName_inj n m : subName n = subName m -> n = m.
Proof.
  unfold subName. simpl. intros [= E].
  apply (f_equal DecimalString.NilEmpty.uint_of_string) in E.
  rewrite !DecimalString.NilEmpty.usu in E. injection E as E.
  now apply DecimalNat.Unsigned.to_uint_inj.
Qed.

Section Subscriptions.

Variable ndkEvent : Event -> option Bytes -> NdkEvent.
Variable Filter : Type.
Variable matchFilter : Filter -> Event -> bool.
Variable toLowerCase : string -> string.
Variable onEvent : list (string * Event) -> string -> Event -> Outcome.


Lemma delete_set_new {V} k (v : V) (m : JsMap.t string V) :
  JsMap.get k m = None -> JsMap.delete k (JsMap.set k v m) = m.
Proof.
  induction m as [|[k0 v0] m IH]; simpl.
  - now rewrite String.eqb_refl.
  - destruct (String.eqb k k0) eqn:E; [discriminate|]. intros G. simpl. rewrite E.
    now rewrite IH.
Qed.

(** X23.  In a relay that a test has driven through any steps, also
    [clear], [subscribe] hands out an id that no subscriber holds: nobody is
    replaced.  The new subscriber has been handed nothing (subscribing makes
    no call and marks nothing), so all the stored events that match its
    filter are undelivered to it; and the closure returned removes it and
    nobody else. *)
Theorem subscribe_takes_a_fresh_id (ops : list (Op Filter)) (filter : Filter) :
  let r := run ndkEvent matchFilter toLowerCase onEvent ops in
  let r' := fst (subscribe r filter) in
  let subId := snd (subscribe r filter) in
  JsMap.get subId (subscribers r) = None /\
  JsMap.get subId (subscribers r')
    = Some {| sub_id := subId; sub_filter := filter; delivered := [] |} /\
  (forall other, other <> subId ->
     JsMap.get other (subscribers r') = JsMap.get other (subscribers r)) /\
  calls r' = calls r /\
  events r' = events r /\
  getUndelivered matchFilter r' (Some subId)
    = List.filter (matchFilter filter) (JsMap.values (events r)) /\
  subscribers (unsubscribe r' subId) = subscribers r.
Proof.
  intros r r' subId.
  assert (Fresh : JsMap.get subId (subscribers r) = None).
  { apply JsMap.get_None_keys. intros Hin.
    destruct (run_named ndkEvent matchFilter toLowerCase onEvent ops _ Hin) as (n & E & Hn).
    apply subName_inj in E. fold r in Hn. lia. }
  split; [exact Fresh|].
  split; [apply JsMap.get_set_eq|].
  split; [intros other N; apply JsMap.get_set_ne; intros E; apply N; symmetry; exact E|].
  split; [reflexivity|]. split; [reflexivity|]. split.
  - unfold getUndelivered. subst r' subId. simpl.
    rewrite JsMap.get_set_eq. simpl. apply filter_ext. intros e. reflexivity.
  - subst r' subId. simpl. now apply delete_set_new.
Qed.

(** *** Each event once *)

Definition callIds (r : Relay Filter) : list (string * string) :=
  map (fun c => (fst c, idOf (snd c))) (calls r).

Definition once (r : Relay Filter) : Prop :=
  (forall key sub, JsMap.get key (subscribers r) = Some sub -> sub_id sub = key) /\
  (forall key sub i, JsMap.get key (subscribers r) = Some sub -> In (key, i) (callIds r) ->
     hasDelivered sub i = true) /\
  NoDup (callIds r) /\
  (forall key i, In (key, i) (callIds r) ->
     exists n, key = subName n /\ n <= subscriptionCounter r) /\
  named r.

Lemma handedOver_once r event key sub :
  JsMap.get key (subscribers r) = Some sub ->
  hasDelivered sub (idOf event) = false ->
  once r -> once (handedOver r event key sub).
Proof.
  intros G Hd (K & M & D & C & N).
  pose proof (K _ _ G) as Hid.
  assert (Ids : callIds (handedOver r event key sub) = callIds r ++ [(key, idOf event)]).
  { unfold callIds, handedOver. simpl. rewrite map_app. simpl. now rewrite Hid. }
  split; [|split; [|split; [|split]]].
  - intros k s0 G0. simpl in G0. destruct (String.eqb key k) eqn:E.
    + apply String.eqb_eq in E. subst k. rewrite JsMap.get_set_eq in G0.
      injection G0 as <-. exact Hid.
    + apply String.eqb_neq in E. rewrite JsMap.get_set_ne in G0 by assumption. eauto.
  - intros k s0 i G0 Hin. rewrite Ids in Hin. simpl in G0.
    apply in_app_iff in Hin. destruct (String.eqb key k) eqn:E.
    + apply String.eqb_eq in E. subst k. rewrite JsMap.get_set_eq in G0.
      injection G0 as <-. unfold hasDelivered. simpl. rewrite hasDelivered_app.
      destruct Hin as [Hin|[[= <-]|[]]].
      * now rewrite (M _ _ _ G Hin).
      * rewrite String.eqb_refl. apply orb_true_r.
    + apply String.eqb_neq in E. rewrite JsMap.get_set_ne in G0 by assumption.
      destruct Hin as [Hin|[[= E1 _]|[]]]; [eauto | congruence].
  - rewrite Ids. apply NoDup_app; [assumption | repeat constructor; intros [] |].
    intros x Hx [<-|[]]. rewrite (M _ _ _ G Hx) in Hd. discriminate.
  - intros k i Hin. rewrite Ids in Hin. apply in_app_iff in Hin.
    destruct Hin as [Hin|[[= <- _]|[]]]; [exact (C _ _ Hin)|].
    apply N. eapply JsMap.get_Some_keys; eauto.
  - exact (named_after (@handedOver_after Filter r event key sub G) N).
Qed.

Lemma deliverEventToSubscriber_once r event key sub :
  JsMap.get key (subscribers r) = Some sub ->
  once r -> once (fst (deliverEventToSubscriber matchFilter toLowerCase onEvent r event key sub)).
Proof.
  intros G I.
  destruct (deliverEventToSubscriber_cases matchFilter toLowerCase onEvent r event key sub)
    as [[E _]|(Hd & _ & res & E & _)]; rewrite E; simpl; [assumption|].
  now apply handedOver_once.
Qed.

Lemma deliverToEach_once event keys : forall r count,
  once r -> once (fst (deliverToEach matchFilter toLowerCase onEvent event keys r count)).
Proof.
  induction keys as [|key rest IH]; intros r count I; simpl; [assumption|].
  destruct (JsMap.get key (subscribers r)) as [sub|] eqn:G; [|now apply IH].
  pose proof (@deliverEventToSubscriber_once r event key sub G I) as I1.
  destruct (deliverEventToSubscriber matchFilter toLowerCase onEvent r event key sub)
    as [r1 [[|]|err]]; simpl in I1; [now apply IH | now apply IH | assumption].
Qed.

Lemma deliverEvents_once evs : forall r count,
  once r -> once (fst (deliverEvents matchFilter toLowerCase onEvent evs r count)).
Proof.
  induction evs as [|event rest IH]; intros r count I; simpl; [assumption|].
  pose proof (@deliverToEach_once event (JsMap.keys (subscribers r)) r count I) as I1.
  destruct (deliverToEach matchFilter toLowerCase onEvent event (JsMap.keys (subscribers r))
              r count) as [r1 [c1|err]]; simpl in I1; [now apply IH | assumption].
Qed.

Lemma step_once r op : isClear op = false -> once r -> once (step ndkEvent matchFilter toLowerCase onEvent r op).
Proof.
  intros NC I. destruct op; try discriminate NC; simpl.
  - destruct I as (K & M & D & C & N). repeat split; assumption.
  - destruct I as (K & M & D & C & N).
    assert (Hnew : forall i, ~ In (subName (S (subscriptionCounter r)), i) (callIds r)).
    { intros i Hin. destruct (C _ _ Hin) as (n & E & Hn). apply subName_inj in E. lia. }
    split; [|split; [|split; [|split]]]; simpl.
    + intros k s0 G0. destruct (String.eqb (subName (S (subscriptionCounter r))) k) eqn:E.
      * apply String.eqb_eq in E. subst k. rewrite JsMap.get_set_eq in G0. now injection G0 as <-.
      * apply String.eqb_neq in E. rewrite JsMap.get_set_ne in G0 by assumption. eauto.
    + intros k s0 i G0 Hin.
      destruct (String.eqb (subName (S (subscriptionCounter r))) k) eqn:E.
      * apply String.eqb_eq in E. subst k. destruct (Hnew _ Hin).
      * apply String.eqb_neq in E. rewrite JsMap.get_set_ne in G0 by assumption. eauto.
    + exact D.
    + intros k i Hin. destruct (C _ _ Hin) as (n & -> & Hn). exists n. split; [reflexivity|lia].
    + exact (@step_named ndkEvent Filter matchFilter toLowerCase onEvent r (Subscribe filter) N).
  - destruct I as (K & M & D & C & N).
    split; [|split; [|split; [|split]]]; simpl.
    + intros k s0 G0. destruct (String.eqb subId k) eqn:E.
      * apply String.eqb_eq in E. subst k. rewrite JsMap.get_delete_eq in G0. discriminate.
      * apply String.eqb_neq in E. rewrite JsMap.get_delete_ne in G0 by assumption. eauto.
    + intros k s0 i G0 Hin. destruct (String.eqb subId k) eqn:E.
      * apply String.eqb_eq in E. subst k. rewrite JsMap.get_delete_eq in G0. discriminate.
      * apply String.eqb_neq in E. rewrite JsMap.get_delete_ne in G0 by assumption. eauto.
    + exact D.
    + exact C.
    + exact (@step_named ndkEvent Filter matchFilter toLowerCase onEvent r (Unsubscribe _ subId) N).
  - unfold deliver. destruct (JsMap.get eventId (events r)); [|assumption].
    now apply deliverToEach_once.
  - unfold deliverTo. destruct (JsMap.get eventId (events r)); [|assumption].
    destruct (JsMap.get subId (subscribers r)) eqn:G; [|assumption].
    now apply deliverEventToSubscriber_once.
  - now apply deliverEvents_once.
  - now apply deliverEvents_once.
  - now apply deliverEvents_once.
Qed.

(** X24.  However a test publishes, subscribes, unsubscribes and
    delivers (without [clear], which starts the subscriber ids again), no
    subscriber's [onEvent] is called twice for one event id; and an event
    that a subscriber was called with is not among its undelivered
    events. *)
Theorem each_event_once_per_subscriber (ops : list (Op Filter)) :
  forallb (fun op => negb (isClear op)) ops = true ->
  NoDup (map (fun c => (fst c, idOf (snd c))) (calls (run ndkEvent matchFilter toLowerCase onEvent ops))) /\
  (forall subId event, In (subId, event) (calls (run ndkEvent matchFilter toLowerCase onEvent ops)) ->
     ~ In event (getUndelivered matchFilter (run ndkEvent matchFilter toLowerCase onEvent ops) (Some subId))).
Proof.
  intros H.
  assert (I : once (run ndkEvent matchFilter toLowerCase onEvent ops)).
  { unfold RelayDelivery.run.
    assert (G : forall r, once r -> once (fold_left (step ndkEvent matchFilter toLowerCase onEvent) ops r)).
    { induction ops as [|op ops IH]; simpl in *; intros r I; [assumption|].
      apply andb_true_iff in H. destruct H as [H1 H2]. apply negb_true_iff in H1.
      apply IH; [assumption|]. now apply step_once. }
    apply G. split; [intros k s0 G0; discriminate|].
    split; [intros k s0 i G0; discriminate|]. split; [constructor|].
    split; [intros k i []|intros k []]. }
  destruct I as (K & M & D & C & N). split; [exact D|].
  intros subId event Hin Hu. unfold getUndelivered in Hu.
  assert (T : truthy subId = true).
  { assert (Hc : In (subId, idOf event) (callIds (run ndkEvent matchFilter toLowerCase onEvent ops))).
    { unfold callIds. apply in_map_iff. exists (subId, event). auto. }
    destruct (C _ _ Hc) as (n & -> & _). reflexivity. }
  rewrite T in Hu.
  destruct (JsMap.get subId (subscribers (run ndkEvent matchFilter toLowerCase onEvent ops))) as [sub|] eqn:G; [|destruct Hu].
  apply filter_In in Hu. destruct Hu as [_ Hu]. apply andb_true_iff in Hu.
  destruct Hu as [Hu _]. apply negb_true_iff in Hu.
  rewrite (M subId sub (idOf event) G) in Hu; [discriminate|].
  unfold callIds. apply in_map_iff. exists (subId, event). auto.
Qed.

End Subscriptions.

(** *** A relay with two subscribers *)

(** A filter that names a kind; handlers that return. *)
Definition byKind (filter : Z) (event : Event) : bool := (kind event =? filter)%Z.

Definition quiet (_ : list (string * Event)) (_ : string) (_ : Event) : Outcome := Returns.

Definition sameCase (s : string) : string := s.

Definition twoSubscribers : list (Op Z) :=
  [Publish Z (firstNote, None); Subscribe 10078%Z; Subscribe 1%Z].

Definition listening : Relay Z := run sampleNdk byKind sameCase quiet twoSubscribers.

Definition served : Relay Z := fst (deliver byKind sameCase quiet listening "id-first").

Lemma deliver_counts_its_calls_witness :
  deliver byKind sameCase quiet listening "id-first" = (served, inl 1) /\
  length (calls served) = 1 /\
  deliver byKind sameCase quiet served "id-first" = (served, inl 0).
Proof.
  assert (D : deliver byKind sameCase quiet listening "id-first" = (served, inl 1))
    by reflexivity.
  split; [exact D|].
  destruct (proj1 (@deliver_counts_its_calls Z byKind sameCase quiet listening served
                     "id-first" 1) D) as (L & _ & _ & A).
  split; [exact L | exact A].
Defined.

Lemma deliverAll_leaves_nothing_undelivered_witness :
  deliverAll byKind sameCase quiet listening = (served, inl 1) /\
  getUndelivered byKind served (Some "sub-1") = [].
Proof.
  assert (D : deliverAll byKind sameCase quiet listening = (served, inl 1)) by reflexivity.
  split; [exact D|].
  exact (proj1 (@deliverAll_leaves_nothing_undelivered Z byKind sameCase quiet listening
                  served 1 "sub-1") D ltac:(discriminate)).
Defined.

Lemma subscribe_takes_a_fresh_id_witness :
  snd (subscribe listening 10078%Z) = "sub-3" /\
  JsMap.get "sub-1" (subscribers (fst (subscribe listening 10078%Z)))
    = JsMap.get "sub-1" (subscribers listening) /\
  getUndelivered byKind (fst (subscribe listening 10078%Z)) (Some "sub-3")
    = [verifiedOf sampleNdk firstNote None].
Proof.
  split; [reflexivity|].
  destruct (@subscribe_takes_a_fresh_id sampleNdk Z byKind sameCase quiet twoSubscribers
              10078%Z) as (_ & _ & O & _ & _ & U & _).
  split; [exact (O "sub-1" ltac:(discriminate)) | exact U].
Defined.

Lemma each_event_once_per_subscriber_witness :
  NoDup (map (fun c : string * Event => (fst c, idOf (snd c)))
           (calls (run sampleNdk byKind sameCase quiet
                     (twoSubscribers ++ [Deliver _ "id-first"; DeliverAll _;
                                         DeliverTo _ "id-first" "sub-1"])))).
Proof.
  exact (proj1 (@each_event_once_per_subscriber sampleNdk Z byKind sameCase quiet
                  (twoSubscribers ++ [Deliver _ "id-first"; DeliverAll _;
                                      DeliverTo _ "id-first" "sub-1"]) eq_refl)).
Defined.

End RelayDelivery.

(** ** inviteUtils.ts: device ids *)

Module DeviceId.

Import ControllableRelay.

(** The digit of [n < 36] in [Number.prototype.toString(36)]: [0-9], then
    [a-z]. *)
Definition digit36 (n : N) : ascii :=
  if (n <? 10)%N then ascii_of_N (48 + n) else ascii_of_N (87 + n).

Fixpoint toString36_digits (fuel : nat) (n : N) : string :=
  match fuel with
  | O => ""
  | S fuel' =>
    if (n <? 36)%N then String (digit36 n) ""
    else (toString36_digits fuel' (n / 36) ++ String (digit36 (n mod 36)) "")%string
  end.

(** [n.toString(36)] of a non-negative integer: one digit for 0, and
    otherwise no more digits than [n] has bits. *)
Definition toString36 (n : N) : string := toString36_digits (S (N.size_nat n)) n.

(** [generateDeviceId()], with the key that [generateSecretKey()] gives. *)
Definition generateDeviceId (secretKey : Bytes) : string :=
  let bytes := firstn 16 secretKey in
  substring 0 16 (String.concat "" (map (fun b => toString36 (Byte.to_N b)) bytes)).

(** [[0-9a-z]] *)
Definition alphanumeric (c : ascii) : bool :=
  let n := N_of_ascii c in
  ((48 <=? n) && (n <=? 57) || (97 <=? n) && (n <=? 122))%N.

Fixpoint every (p : ascii -> bool) (s : string) : bool :=
  match s with
  | EmptyString => true
  | String c rest => p c && every p rest
  end.

Lemma every_app p s t : every p (s ++ t)%string = every p s && every p t.
Proof. induction s as [|c s IH]; simpl; [reflexivity|]. now rewrite IH, andb_assoc. Qed.

Lemma every_substring p s : forall n, every p s = true -> every p (substring 0 n s) = true.
Proof.
  induction s as [|c s IH]; intros [|n]; simpl; try reflexivity.
  intros H. apply andb_true_iff in H. destruct H as [-> H]. now apply IH.
Qed.

Lemma length_substring s : forall n, n <= String.length s -> String.length (substring 0 n s) = n.
Proof.
  induction s as [|c s IH]; intros [|n]; simpl; try reflexivity; try lia.
  intros H. rewrite IH; lia.
Qed.

Lemma substring_app s t : substring 0 (String.length s) (s ++ t)%string = s.
Proof. induction s as [|c s IH]; simpl; [now destruct t | now rewrite IH]. Qed.

Lemma length_app s t : String.length (s ++ t)%string = String.length s + String.length t.
Proof. induction s as [|c s IH]; simpl; [reflexivity | now rewrite IH]. Qed.

Lemma concat_cons s l : String.concat "" (s :: l) = (s ++ String.concat "" l)%string.
Proof.
  destruct l as [|t l]; simpl; [|reflexivity].
  induction s as [|c s IH]; simpl; [reflexivity | now rewrite <- IH].
Qed.

(** A byte gives one or two alphanumeric characters, two from 36 on. *)
Definition digitsOf (b : Byte.byte) : string := toString36 (Byte.to_N b).

Lemma digitsOf_alphanumeric b :
  every alphanumeric (digitsOf b) = true /\ 1 <= String.length (digitsOf b).
Proof. destruct b; vm_compute; split; solve [reflexivity | lia | repeat constructor]. Qed.

Lemma digitsOf_two b : (36 <= Byte.to_N b)%N -> String.length (digitsOf b) = 2.
Proof. destruct b; vm_compute; solve [reflexivity | intros H; now destruct H]. Qed.

Lemma concat_alphanumeric bytes :
  every alphanumeric (String.concat "" (map digitsOf bytes)) = true /\
  length bytes <= String.length (String.concat "" (map digitsOf bytes)).
Proof.
  induction bytes as [|b bytes [IH1 IH2]]; [split; [reflexivity | simpl; lia]|].
  cbn [map]. rewrite concat_cons, every_app, length_app.
  destruct (digitsOf_alphanumeric b) as [-> L]. split; [exact IH1 | simpl; lia].
Qed.

(** X25.  From a key of 16 bytes or more (the secret keys have 32),
    [generateDeviceId] gives exactly 16 characters, each a digit or a
    lower-case letter. *)
Theorem generateDeviceId_sixteen_alphanumerics (secretKey : Bytes) :
  16 <= length secretKey ->
  String.length (generateDeviceId secretKey) = 16 /\
  every alphanumeric (generateDeviceId secretKey) = true.
Proof.
  intros L. unfold generateDeviceId. cbv zeta.
  destruct (concat_alphanumeric (firstn 16 secretKey)) as [A B].
  rewrite length_firstn, Nat.min_l in B by assumption.
  split; [now apply length_substring | now apply every_substring].
Qed.

Lemma concat_two bytes :
  Forall (fun b => (36 <= Byte.to_N b)%N) bytes ->
  String.length (String.concat "" (map digitsOf bytes)) = 2 * length bytes.
Proof.
  induction 1 as [|b bytes H _ IH]; [reflexivity|].
  cbn [map]. rewrite concat_cons, length_app, IH, (digitsOf_two _ H). simpl. lia.
Qed.

(** X26.  The id does not hold the 16 bytes it is made from: a byte from
    36 on takes two of the 16 characters, so when the first eight bytes are
    such, the id is their digits and two keys that agree on them get the
    same id, whatever their other bytes. *)
Theorem generateDeviceId_uses_a_prefix (start rest rest' : Bytes) :
  length start = 8 ->
  Forall (fun b => (36 <= Byte.to_N b)%N) start ->
  generateDeviceId (start ++ rest) = String.concat "" (map digitsOf start) /\
  generateDeviceId (start ++ rest) = generateDeviceId (start ++ rest').
Proof.
  intros L F.
  assert (G : forall more, generateDeviceId (start ++ more)
                           = String.concat "" (map digitsOf start)).
  { intros more. unfold generateDeviceId. cbv zeta.
    rewrite firstn_app, L.
    rewrite (firstn_all2 (n := 16) start) by lia.
    rewrite map_app.
    assert (C : forall l1 l2, String.concat "" (l1 ++ l2)
                              = (String.concat "" l1 ++ String.concat "" l2)%string).
    { induction l1 as [|s l1 IH]; intros l2; [reflexivity|].
      rewrite <- app_comm_cons, !concat_cons, IH.
      clear. induction s as [|c s IHs]; simpl; [reflexivity | now rewrite IHs]. }
    fold digitsOf. change (fun b => toString36 (Byte.to_N b)) with digitsOf.
    rewrite C. pose proof (concat_two F) as T. rewrite L in T.
    replace 16 with (String.length (String.concat "" (map digitsOf start))) by exact T.
    apply substring_app. }
  split; [apply G | now rewrite !G].
Qed.

(** A key that counts up from 40, and two keys that start alike. *)
Definition countingKey : Bytes :=
  map (fun n => match Byte.of_N n with Some b => b | None => Byte.x00 end)
      (map N.of_nat (seq 40 32)).

Lemma generateDeviceId_sixteen_alphanumerics_witness :
  generateDeviceId countingKey = "1415161718191a1b" /\
  String.length (generateDeviceId countingKey) = 16 /\
  every alphanumeric (generateDeviceId countingKey) = true.
Proof.
  split; [reflexivity|].
  exact (@generateDeviceId_sixteen_alphanumerics countingKey ltac:(vm_compute; lia)).
Defined.

Lemma generateDeviceId_uses_a_prefix_witness :
  generateDeviceId (firstn 8 countingKey ++ skipn 8 countingKey)
  = generateDeviceId (firstn 8 countingKey ++ [Byte.x00; Byte.x01]).
Proof.
  refine (proj2 (@generateDeviceId_uses_a_prefix (firstn 8 countingKey) (skipn 8 countingKey)
                   [Byte.x00; Byte.x01] eq_refl _)).
  vm_compute. repeat constructor; discriminate.
Defined.

End DeviceId.
